(** * Famicom Snake (SnakeM1Microgame.py): game core, power-ups, audio capture

    A shallow embedding of the simulation core of the game: the snake
    entity, the power-up life cycle, the per-frame update, the high-score
    store and the audio capture path, followed by the properties of the
    design document that concern them.

    Conventions of the embedding
    - Python [int] is [Z]; Python [float] (wall-clock seconds, the speed
      multiplier, the movement interval) is an exact rational [Q].
    - A grid cell [(x, y)] and a direction [[dx, dy]] are pairs of [Z].
    - [PowerUp] objects live in a heap and the game's [power_ups] list holds
      references to them, as in Python: the loops of the source iterate over
      a snapshot of the list while mutating the objects and the list.
    - Code that can raise, or wait for more random draws, returns an
      [outcome]. *)

From Stdlib Require Import ZArith QArith List Bool Lia.
Import ListNotations.
Open Scope Z_scope.

(** ** Outcomes of effectful code *)

Inductive exn : Type :=
| IndexError   (* subscript of an empty list *)
| ValueError   (* list.remove of an absent element, numpy shape errors *)
| TypeError
| OSError.     (* a file could not be opened or written *)

(** [Starved]: a rejection-sampling loop has used up every random draw it
    was given and is still looping. *)
Inductive outcome (A : Type) : Type :=
| Done (a : A)
| Raised (e : exn)
| Starved.

Arguments Done {A} a.
Arguments Raised {A} e.
Arguments Starved {A}.

Definition bind {A B : Type} (m : outcome A) (k : A -> outcome B) : outcome B :=
  match m with
  | Done a => k a
  | Raised e => Raised e
  | Starved => Starved
  end.

Notation "x <- m ;; k" := (bind m (fun x => k))
  (at level 61, m at next level, right associativity).
Notation "' pat <- m ;; k" := (bind m (fun x => match x with pat => k end))
  (at level 61, pat pattern, m at next level, right associativity).

(** ** Constants *)

Definition WINDOW_SIZE : Z := 256.
Definition GRID_SIZE : Z := 8.
Definition GRID_COUNT : Z := WINDOW_SIZE / GRID_SIZE.
Definition FPS : Z := 60.
Definition MOVE_INTERVAL : Q := 1 # 10.
Definition SAMPLE_RATE : Z := 44100.

Inductive Difficulty : Type := Easy | Normal | Hard | Expert.

Definition DIFFICULTY_SPEEDS (d : Difficulty) : Q :=
  match d with
  | Easy => 15 # 100
  | Normal => 1 # 10
  | Hard => 7 # 100
  | Expert => 5 # 100
  end.

(** Key order of the [DIFFICULTY_SPEEDS] dictionary. *)
Definition difficulties : list Difficulty := [Easy; Normal; Hard; Expert].

Inductive GameState : Type :=
| TITLE | PLAYING | PAUSED | SETTINGS | CREDITS | GAME_OVER.

Inductive PowerUpType : Type := SPEED | SHIELD | SCORE | SHRINK.

Definition Cell : Type := (Z * Z)%type.
Definition Direction : Type := (Z * Z)%type.

Definition cell_eqb (a b : Cell) : bool :=
  (fst a =? fst b) && (snd a =? snd b).

(** [pos in body] *)
Fixpoint cell_in (c : Cell) (l : list Cell) : bool :=
  match l with
  | [] => false
  | x :: r => cell_eqb x c || cell_in c r
  end.

(** [a < b] on floats. *)
Definition Qltb (a b : Q) : bool := negb (Qle_bool b a).

(** ** Sounds and the capture buffer *)

(** A [pygame.mixer.Sound]: its stereo 16-bit sample frames. *)
Record Sound : Type := mkSound { frames : list (Z * Z) }.

(** A [pygame.mixer.Channel]: the handle [Sound.play] returns. *)
Record Channel : Type := mkChannel { playing : Sound }.

Inductive pyobj : Type :=
| OSound (s : Sound)
| OChannel (c : Channel).

(** A numpy array as the capture path sees it: an [n x 2] array of int16
    frames, or a 0-dimensional object array wrapping a Python object that
    exposes no sample memory. *)
Inductive ndarray : Type :=
| Frames (l : list (Z * Z))
| ObjScalar.

(** What [numpy.array(obj, copy=False)] does on an object that exports no
    buffer: older numpy wraps it in a 0-d object array, newer numpy raises. *)
Inductive foreign_view : Type := ViewWraps | ViewRaises.

(** [pygame.sndarray.samples(obj)]: a view of the sample memory of a Sound.
    A Channel has no sample memory. *)
Definition sndarray_samples (lib : foreign_view) (o : pyobj) : outcome ndarray :=
  match o with
  | OSound s => Done (Frames (frames s))
  | OChannel _ =>
      match lib with
      | ViewWraps => Done ObjScalar
      | ViewRaises => Raised ValueError
      end
  end.

(** Module-level state: the audio flags, the generated sounds, and the
    installed library behaviour. *)
Record Globals : Type := mkGlobals {
  AUDIO_ENABLED : bool;
  RECORDING_ENABLED : bool;
  eat_sound : option Sound;
  move_sound : option Sound;
  game_over_sound : option Sound;
  title_sound : option Sound;
  numpy_view : foreign_view
}.

Definition set_RECORDING_ENABLED (G : Globals) (b : bool) : Globals :=
  mkGlobals (AUDIO_ENABLED G) b (eat_sound G) (move_sound G)
            (game_over_sound G) (title_sound G) (numpy_view G).

(** [Sound.play()] forcibly chooses a channel and returns it. *)
Definition Sound_play (s : Sound) : option Channel := Some (mkChannel s).

(** [play_sound(sound, recording_buffer)]: the whole body runs under
    [try ... except Exception], so a failure leaves the buffer as it was. *)
Definition play_sound (G : Globals) (sound : option Sound)
           (recording_buffer : list ndarray) : list ndarray :=
  match sound with
  | Some snd =>
      if AUDIO_ENABLED G then
        let channel := Sound_play snd in
        if RECORDING_ENABLED G then
          match channel with
          | Some ch =>
              match sndarray_samples (numpy_view G) (OChannel ch) with
              | Done sound_array => recording_buffer ++ [sound_array]
              | _ => recording_buffer
              end
          | None => recording_buffer
          end
        else recording_buffer
      else recording_buffer
  | None => recording_buffer
  end.

(** ** The snake *)

Record Snake : Type := mkSnake {
  body : list Cell;
  direction : Direction;
  grow : bool;
  moved_this_frame : bool;
  last_move_time : Q;
  next_direction : option Direction;
  dead : bool;
  shield_active : bool;
  speed_multiplier : Q;
  score_multiplier : Z
}.

Definition set_body (s : Snake) (b : list Cell) : Snake :=
  mkSnake b (direction s) (grow s) (moved_this_frame s) (last_move_time s)
          (next_direction s) (dead s) (shield_active s) (speed_multiplier s)
          (score_multiplier s).
Definition set_direction (s : Snake) (d : Direction) : Snake :=
  mkSnake (body s) d (grow s) (moved_this_frame s) (last_move_time s)
          (next_direction s) (dead s) (shield_active s) (speed_multiplier s)
          (score_multiplier s).
Definition set_grow (s : Snake) (b : bool) : Snake :=
  mkSnake (body s) (direction s) b (moved_this_frame s) (last_move_time s)
          (next_direction s) (dead s) (shield_active s) (speed_multiplier s)
          (score_multiplier s).
Definition set_last_move_time (s : Snake) (t : Q) : Snake :=
  mkSnake (body s) (direction s) (grow s) (moved_this_frame s) t
          (next_direction s) (dead s) (shield_active s) (speed_multiplier s)
          (score_multiplier s).
Definition set_next_direction (s : Snake) (d : option Direction) : Snake :=
  mkSnake (body s) (direction s) (grow s) (moved_this_frame s) (last_move_time s)
          d (dead s) (shield_active s) (speed_multiplier s) (score_multiplier s).
Definition set_dead (s : Snake) (b : bool) : Snake :=
  mkSnake (body s) (direction s) (grow s) (moved_this_frame s) (last_move_time s)
          (next_direction s) b (shield_active s) (speed_multiplier s)
          (score_multiplier s).
Definition set_shield_active (s : Snake) (b : bool) : Snake :=
  mkSnake (body s) (direction s) (grow s) (moved_this_frame s) (last_move_time s)
          (next_direction s) (dead s) b (speed_multiplier s) (score_multiplier s).
Definition set_speed_multiplier (s : Snake) (m : Q) : Snake :=
  mkSnake (body s) (direction s) (grow s) (moved_this_frame s) (last_move_time s)
          (next_direction s) (dead s) (shield_active s) m (score_multiplier s).
Definition set_score_multiplier (s : Snake) (m : Z) : Snake :=
  mkSnake (body s) (direction s) (grow s) (moved_this_frame s) (last_move_time s)
          (next_direction s) (dead s) (shield_active s) (speed_multiplier s) m.

(** [Snake.__init__], created at wall-clock time [now]. *)
Definition Snake_init (now : Q) : Snake :=
  mkSnake [(GRID_COUNT / 2, GRID_COUNT / 2)] (1, 0) false false now None
          false false 1%Q 1.

(** [self.body[0]] *)
Definition body0 (s : Snake) : outcome Cell :=
  match body s with
  | [] => Raised IndexError
  | h :: _ => Done h
  end.

(** [self.body.pop()] on a list known to be non-empty. *)
Definition pop (l : list Cell) : list Cell := removelast l.

(** The wall test of [move]. *)
Definition on_border (c : Cell) : bool :=
  (fst c <? 1) || (fst c >=? GRID_COUNT - 1) ||
  (snd c <? 1) || (snd c >=? GRID_COUNT - 1).

(** The reversal test shared by [move] and [change_direction]:
    [direction[0] + d[0] != 0 or direction[1] + d[1] != 0]. *)
Definition not_reverse (cur d : Direction) : bool :=
  negb (fst cur + fst d =? 0) || negb (snd cur + snd d =? 0).

Definition _wrap_position (pos : Cell) : Cell :=
  let x := fst pos in
  let y := snd pos in
  let x := if x <? 1 then GRID_COUNT - 2 else x in
  let x := if x >=? GRID_COUNT - 1 then 1 else x in
  let y := if y <? 1 then GRID_COUNT - 2 else y in
  let y := if y >=? GRID_COUNT - 1 then 1 else y in
  (x, y).

Definition effective_interval (s : Snake) : Q :=
  (MOVE_INTERVAL / speed_multiplier s)%Q.

(** The buffered-direction step of [move]. *)
Definition apply_buffered (s : Snake) : Snake :=
  match next_direction s with
  | Some nd =>
      let s1 := if not_reverse (direction s) nd then set_direction s nd else s in
      set_next_direction s1 None
  | None => s
  end.

(** [Snake.move(current_time, recording_buffer)]: the snake after the call,
    the returned alive flag, and the capture buffer. *)
Definition move (G : Globals) (s : Snake) (current_time : Q)
           (recording_buffer : list ndarray)
  : outcome (Snake * bool * list ndarray) :=
  if dead s then Done (s, false, recording_buffer) else
  if Qltb (current_time - last_move_time s) (effective_interval s)
  then Done (s, true, recording_buffer) else
  let s := apply_buffered s in
  head <- body0 s ;;
  let new_head := (fst head + fst (direction s), snd head + snd (direction s)) in
  let die (s : Snake) :=
    Done (set_dead s true, false,
          play_sound G (game_over_sound G) recording_buffer) in
  let continue (s : Snake) (new_head : Cell) :=
    if cell_in new_head (body s) then die s else
    let buf := play_sound G (move_sound G) recording_buffer in
    let s := set_body s (new_head :: body s) in
    let s := if negb (grow s) then set_body s (pop (body s))
             else set_grow s false in
    Done (set_last_move_time s current_time, true, buf) in
  if on_border new_head then
    if shield_active s then
      continue (set_shield_active s false) (_wrap_position new_head)
    else die s
  else continue s new_head.

Definition change_direction (s : Snake) (new_direction : Direction) : Snake :=
  if not_reverse (direction s) new_direction
  then set_next_direction s (Some new_direction)
  else s.

(** ** Power-ups, settings, the disk *)

Record PowerUp : Type := mkPowerUp {
  position : Cell;
  type : PowerUpType;
  duration : Z;
  active : bool;
  timer : Z
}.

(** [PowerUp.__init__(position, type)] *)
Definition PowerUp_init (pos : Cell) (ty : PowerUpType) : PowerUp :=
  mkPowerUp pos ty (10 * FPS) false 0.

(** The heap of [PowerUp] objects; a reference is an index into it. *)
Definition ref : Type := nat.
Definition Heap : Type := list PowerUp.

Definition deref (h : Heap) (r : ref) : PowerUp :=
  nth r h (PowerUp_init (0, 0) SHRINK).

Fixpoint store (h : Heap) (r : ref) (p : PowerUp) : Heap :=
  match h, r with
  | [], _ => []
  | _ :: t, O => p :: t
  | x :: t, S r' => x :: store t r' p
  end.

Definition alloc (h : Heap) (p : PowerUp) : ref * Heap :=
  (length h, h ++ [p]).

(** [list.remove(x)] on a list of references: drops the first occurrence,
    raises [ValueError] when there is none. *)
Fixpoint list_remove (r : ref) (l : list ref) : outcome (list ref) :=
  match l with
  | [] => Raised ValueError
  | x :: t => if Nat.eqb x r then Done t
              else (t' <- list_remove r t ;; Done (x :: t'))
  end.

(** The per-difficulty best scores (the dictionary with the four
    difficulty keys). *)
Record HighScores : Type := mkHighScores {
  hs_Easy : Z; hs_Normal : Z; hs_Hard : Z; hs_Expert : Z
}.

Definition hs_get (h : HighScores) (d : Difficulty) : Z :=
  match d with
  | Easy => hs_Easy h | Normal => hs_Normal h
  | Hard => hs_Hard h | Expert => hs_Expert h
  end.

Definition hs_set (h : HighScores) (d : Difficulty) (v : Z) : HighScores :=
  match d with
  | Easy => mkHighScores v (hs_Normal h) (hs_Hard h) (hs_Expert h)
  | Normal => mkHighScores (hs_Easy h) v (hs_Hard h) (hs_Expert h)
  | Hard => mkHighScores (hs_Easy h) (hs_Normal h) v (hs_Expert h)
  | Expert => mkHighScores (hs_Easy h) (hs_Normal h) (hs_Hard h) v
  end.

(** The two files the program writes: [snake_high_scores.json] and
    [game_audio.wav] (its frames). *)
Record Disk : Type := mkDisk {
  high_score_file : option HighScores;
  wav_file : option (list (Z * Z))
}.

Record Settings : Type := mkSettings {
  volume : Q;
  pro_controller : bool;
  difficulty : Difficulty;
  high_scores : HighScores
}.

(** [Settings._load_high_scores]: any failure falls back to zeros. *)
Definition _load_high_scores (d : Disk) : HighScores :=
  match high_score_file d with
  | Some h => h
  | None => mkHighScores 0 0 0 0
  end.

(** [Settings.save_high_score(score)]; [disk_ok] tells whether the file can
    be opened and written.  There is no [try] around the write. *)
Definition save_high_score (st : Settings) (score : Z) (d : Disk)
           (disk_ok : bool) : outcome (Settings * bool * Disk) :=
  if score >? hs_get (high_scores st) (difficulty st) then
    let hs := hs_set (high_scores st) (difficulty st) score in
    let st := mkSettings (volume st) (pro_controller st) (difficulty st) hs in
    if disk_ok
    then Done (st, true, mkDisk (Some hs) (wav_file d))
    else Raised OSError
  else Done (st, false, d).

(** ** Saving the capture buffer *)

(** [np.concatenate(arrays, axis=0)] *)
Fixpoint np_concatenate_rec (l : list ndarray) : outcome (list (Z * Z)) :=
  match l with
  | [] => Done []
  | Frames f :: t => (r <- np_concatenate_rec t ;; Done (f ++ r))
  | ObjScalar :: _ => Raised ValueError
  end.

Definition np_concatenate (l : list ndarray) : outcome (list (Z * Z)) :=
  match l with
  | [] => Raised ValueError
  | _ => np_concatenate_rec l
  end.

(** [astype(np.int16)] on one sample. *)
Definition int16 (v : Z) : Z := (v + 32768) mod 65536 - 32768.

Definition astype_int16 (f : list (Z * Z)) : list (Z * Z) :=
  map (fun s => (int16 (fst s), int16 (snd s))) f.

(** [Game.save_recording]: everything after the emptiness test runs under
    [try ... except Exception]. *)
Definition save_recording (recording_buffer : list ndarray) (d : Disk)
           (disk_ok : bool) : Disk :=
  match recording_buffer with
  | [] => d
  | _ =>
      match np_concatenate recording_buffer with
      | Done all_samples =>
          if disk_ok
          then mkDisk (high_score_file d) (Some (astype_int16 all_samples))
          else d
      | _ => d
      end
  end.

(** ** The game object *)

Record Game : Type := mkGame {
  state : GameState;
  settings : Settings;
  selected : Z;                  (* title_screen.selected *)
  snake : Snake;
  food : Cell;
  score : Z;
  power_ups : list ref;
  power_up_spawn_timer : Z;
  high_score : bool;
  recording_buffer : list ndarray;
  heap : Heap
}.

Definition set_state (g : Game) (v : GameState) : Game :=
  mkGame v (settings g) (selected g) (snake g) (food g) (score g) (power_ups g)
         (power_up_spawn_timer g) (high_score g) (recording_buffer g) (heap g).
Definition set_settings (g : Game) (v : Settings) : Game :=
  mkGame (state g) v (selected g) (snake g) (food g) (score g) (power_ups g)
         (power_up_spawn_timer g) (high_score g) (recording_buffer g) (heap g).
Definition set_selected (g : Game) (v : Z) : Game :=
  mkGame (state g) (settings g) v (snake g) (food g) (score g) (power_ups g)
         (power_up_spawn_timer g) (high_score g) (recording_buffer g) (heap g).
Definition set_snake (g : Game) (v : Snake) : Game :=
  mkGame (state g) (settings g) (selected g) v (food g) (score g) (power_ups g)
         (power_up_spawn_timer g) (high_score g) (recording_buffer g) (heap g).
Definition set_food (g : Game) (v : Cell) : Game :=
  mkGame (state g) (settings g) (selected g) (snake g) v (score g) (power_ups g)
         (power_up_spawn_timer g) (high_score g) (recording_buffer g) (heap g).
Definition set_score (g : Game) (v : Z) : Game :=
  mkGame (state g) (settings g) (selected g) (snake g) (food g) v (power_ups g)
         (power_up_spawn_timer g) (high_score g) (recording_buffer g) (heap g).
Definition set_power_ups (g : Game) (v : list ref) : Game :=
  mkGame (state g) (settings g) (selected g) (snake g) (food g) (score g) v
         (power_up_spawn_timer g) (high_score g) (recording_buffer g) (heap g).
Definition set_power_up_spawn_timer (g : Game) (v : Z) : Game :=
  mkGame (state g) (settings g) (selected g) (snake g) (food g) (score g)
         (power_ups g) v (high_score g) (recording_buffer g) (heap g).
Definition set_high_score (g : Game) (v : bool) : Game :=
  mkGame (state g) (settings g) (selected g) (snake g) (food g) (score g)
         (power_ups g) (power_up_spawn_timer g) v (recording_buffer g) (heap g).
Definition set_recording_buffer (g : Game) (v : list ndarray) : Game :=
  mkGame (state g) (settings g) (selected g) (snake g) (food g) (score g)
         (power_ups g) (power_up_spawn_timer g) (high_score g) v (heap g).
Definition set_heap (g : Game) (v : Heap) : Game :=
  mkGame (state g) (settings g) (selected g) (snake g) (food g) (score g)
         (power_ups g) (power_up_spawn_timer g) (high_score g)
         (recording_buffer g) v.

(** What the environment answers while one event is handled: the clock,
    the successive pairs of [random.randint(1, GRID_COUNT-2)] results, the
    result of [random.choice], and whether files can be written. *)
Record Env : Type := mkEnv {
  now : Q;
  draws : list Cell;
  pick : PowerUpType;
  disk_ok : bool
}.

(** A draw that [random.randint(1, GRID_COUNT-2)] can return, twice. *)
Definition randint_pair (c : Cell) : Prop :=
  1 <= fst c <= GRID_COUNT - 2 /\ 1 <= snd c <= GRID_COUNT - 2.

(** The [while True] rejection loops: draw a cell until it is free. *)
Fixpoint sample_free (occupied : Cell -> bool) (ds : list Cell)
  : outcome (Cell * list Cell) :=
  match ds with
  | [] => Starved
  | c :: rest => if occupied c then sample_free occupied rest
                 else Done (c, rest)
  end.

(** [Game._start_new_game]; the settings, the menu cursor and the capture
    buffer of the game object are kept. *)
Definition _start_new_game (G : Globals) (g : Game) (e : Env) : outcome Game :=
  match draws e with
  | [] => Starved
  | c :: _ =>
      Done (mkGame PLAYING (settings g) (selected g) (Snake_init (now e)) c 0
                   [] 0 false
                   (play_sound G (title_sound G) (recording_buffer g))
                   (heap g))
  end.

(** [Game._spawn_power_up] *)
Definition _spawn_power_up (g : Game) (ds : list Cell) (ty : PowerUpType)
  : outcome (Game * list Cell) :=
  '(pos, rest) <- sample_free
      (fun pos => negb (negb (cell_in pos (body (snake g)))
                        && negb (cell_eqb pos (food g)))) ds ;;
  let '(r, h) := alloc (heap g) (PowerUp_init pos ty) in
  Done (set_power_ups (set_heap g h) (power_ups g ++ [r]), rest).

Definition set_active (p : PowerUp) (b : bool) : PowerUp :=
  mkPowerUp (position p) (type p) (duration p) b (timer p).
Definition set_timer (p : PowerUp) (t : Z) : PowerUp :=
  mkPowerUp (position p) (type p) (duration p) (active p) t.

(** [body[:-2]] *)
Definition drop_last2 (l : list Cell) : list Cell :=
  firstn (length l - 2) l.

(** [Game._apply_power_up(power_up)] *)
Definition _apply_power_up (g : Game) (r : ref) : Game :=
  let p := deref (heap g) r in
  match type p with
  | SPEED =>
      let g := set_snake g (set_speed_multiplier (snake g) (3 # 2)) in
      set_heap g (store (heap g) r (set_active p true))
  | SHIELD => set_snake g (set_shield_active (snake g) true)
  | SCORE =>
      let g := set_snake g (set_score_multiplier (snake g) 2) in
      set_heap g (store (heap g) r (set_active p true))
  | SHRINK =>
      if (Z.of_nat (length (body (snake g))) >? 3)
      then set_snake g (set_body (snake g) (drop_last2 (body (snake g))))
      else g
  end.

(** [Game._update_power_ups]: the loop over the snapshot [power_ups[:]]. *)
Fixpoint _update_power_ups_loop (snapshot : list ref) (g : Game) : outcome Game :=
  match snapshot with
  | [] => Done g
  | r :: rest =>
      let p := deref (heap g) r in
      if active p then
        let p := set_timer p (timer p + 1) in
        let g := set_heap g (store (heap g) r p) in
        if timer p >=? duration p then
          let g := match type p with
                   | SPEED => set_snake g (set_speed_multiplier (snake g) 1%Q)
                   | SCORE => set_snake g (set_score_multiplier (snake g) 1)
                   | _ => g
                   end in
          l <- list_remove r (power_ups g) ;;
          _update_power_ups_loop rest (set_power_ups g l)
        else _update_power_ups_loop rest g
      else _update_power_ups_loop rest g
  end.

Definition _update_power_ups (g : Game) : outcome Game :=
  _update_power_ups_loop (power_ups g) g.

(** The collection loop of [_update_game], over the snapshot. *)
Fixpoint collect_loop (snapshot : list ref) (g : Game) : outcome Game :=
  match snapshot with
  | [] => Done g
  | r :: rest =>
      head <- body0 (snake g) ;;
      if cell_eqb head (position (deref (heap g) r)) then
        let g := _apply_power_up g r in
        l <- list_remove r (power_ups g) ;;
        collect_loop rest (set_power_ups g l)
      else collect_loop rest g
  end.

(** The three blocks of [_update_game] after the expiry pass: the spawn
    timer, the game-over branch, and the food test. *)
Definition spawn_step (g : Game) (e : Env) : outcome (Game * list Cell) :=
  let g := set_power_up_spawn_timer g (power_up_spawn_timer g + 1) in
  if power_up_spawn_timer g >=? FPS * 15 then
    '(g, ds) <- _spawn_power_up g (draws e) (pick e) ;;
    Done (set_power_up_spawn_timer g 0, ds)
  else Done (g, draws e).

Definition game_over_step (g : Game) (d : Disk) (e : Env)
  : outcome (Game * Disk) :=
  '(g, d) <- (if negb (high_score g) then
                '(st, b, d) <- save_high_score (settings g) (score g) d
                                               (disk_ok e) ;;
                Done (set_high_score (set_settings g st) b, d)
              else Done (g, d)) ;;
  Done (set_state g GAME_OVER, d).

Definition eat_step (G : Globals) (g : Game) (d : Disk) (ds : list Cell)
  : outcome (Game * Disk) :=
  head <- body0 (snake g) ;;
  if cell_eqb head (food g) then
    let g := set_recording_buffer g
               (play_sound G (eat_sound G) (recording_buffer g)) in
    let g := set_snake g (set_grow (snake g) true) in
    let g := set_score g (score g + 1 * score_multiplier (snake g)) in
    '(new_food, _) <- sample_free
        (fun c => cell_in c (body (snake g))) ds ;;
    Done (set_food g new_food, d)
  else Done (g, d).

(** [Game._update_game] *)
Definition _update_game (G : Globals) (g : Game) (d : Disk) (e : Env)
  : outcome (Game * Disk) :=
  let current_time := now e in
  g <- _update_power_ups g ;;
  '(g, ds) <- spawn_step g e ;;
  '(s, alive, buf) <- move G (snake g) current_time (recording_buffer g) ;;
  let g := set_snake (set_recording_buffer g buf) s in
  if negb alive then game_over_step g d e
  else
    g <- collect_loop (power_ups g) g ;;
    eat_step G g d ds.

(** ** Input handling and the frame loop *)

Inductive Key : Type :=
| K_LEFT | K_RIGHT | K_UP | K_DOWN
| K_a | K_d | K_w | K_s
| K_RETURN | K_SPACE | K_ESCAPE | K_r
| K_other.

Inductive event : Type :=
| KEYDOWN (key : Key)
| JOYBUTTONDOWN (button : Z)
| JOYAXISMOTION (axis : Z) (value : Q)
| QUIT
| FRAME.     (* end of the event batch: the rest of one loop iteration *)

(** The whole program state. *)
Record App : Type := mkApp {
  globals : Globals;
  game : Game;
  disk : Disk;
  running : bool
}.

Inductive process : Type :=
| Running (a : App)
| Quitted (d : Disk).    (* [quit_game] reached [sys.exit()] *)

Definition with_game (a : App) (g : Game) : App :=
  mkApp (globals a) g (disk a) (running a).

(** [Game.quit_game] *)
Definition quit_game (a : App) (e : Env) : process :=
  let d := if RECORDING_ENABLED (globals a)
           then save_recording (recording_buffer (game a)) (disk a) (disk_ok e)
           else disk a in
  Quitted d.

Definition next_difficulty (d : Difficulty) : Difficulty :=
  match d with
  | Easy => Normal | Normal => Hard | Hard => Expert | Expert => Easy
  end.

(** [Game._select_menu_option]; the menu is
    [["Start Game", "Settings", "Credits", "Exit"]]. *)
Definition _select_menu_option (a : App) (e : Env) : outcome process :=
  let G := globals a in
  let beep (g : Game) :=
    set_recording_buffer g (play_sound G (eat_sound G) (recording_buffer g)) in
  if selected (game a) =? 0 then
    g <- _start_new_game G (game a) e ;;
    Done (Running (with_game a (beep g)))
  else if selected (game a) =? 3 then Done (quit_game a e)
  else Done (Running (with_game a (beep (game a)))).

Definition menu_step (a : App) (delta : Z) : App :=
  let G := globals a in
  let g := set_selected (game a) ((selected (game a) + delta) mod 4) in
  with_game a (set_recording_buffer g
                 (play_sound G (move_sound G) (recording_buffer g))).

(** [Game._handle_title_input] *)
Definition _handle_title_input (a : App) (ev : event) (e : Env)
  : outcome process :=
  let G := globals a in
  match ev with
  | KEYDOWN (K_UP | K_w) => Done (Running (menu_step a (-1)))
  | KEYDOWN (K_DOWN | K_s) => Done (Running (menu_step a 1))
  | KEYDOWN (K_RETURN | K_SPACE) => _select_menu_option a e
  | KEYDOWN K_d =>
      let st := settings (game a) in
      let st := mkSettings (volume st) (pro_controller st)
                           (next_difficulty (difficulty st)) (high_scores st) in
      let g := set_settings (game a) st in
      Done (Running (with_game a
        (set_recording_buffer g
           (play_sound G (move_sound G) (recording_buffer g)))))
  | JOYBUTTONDOWN b =>
      if pro_controller (settings (game a)) && (b =? 0)
      then _select_menu_option a e else Done (Running a)
  | JOYAXISMOTION ax v =>
      if pro_controller (settings (game a)) && (ax =? 1) then
        if Qltb v (-1 # 2) then Done (Running (menu_step a (-1)))
        else if Qltb (1 # 2) v then Done (Running (menu_step a 1))
        else Done (Running a)
      else Done (Running a)
  | _ => Done (Running a)
  end.

Definition turn (a : App) (d : Direction) : App :=
  with_game a (set_snake (game a) (change_direction (snake (game a)) d)).

(** [Game._handle_game_input] *)
Definition _handle_game_input (a : App) (ev : event) (e : Env) : App :=
  let g := game a in
  let free := negb (moved_this_frame (snake g)) in
  match ev with
  | KEYDOWN (K_LEFT | K_a) => if free then turn a (-1, 0) else a
  | KEYDOWN (K_RIGHT | K_d) => if free then turn a (1, 0) else a
  | KEYDOWN (K_UP | K_w) => if free then turn a (0, -1) else a
  | KEYDOWN (K_DOWN | K_s) => if free then turn a (0, 1) else a
  | KEYDOWN K_ESCAPE => with_game a (set_state g TITLE)
  | KEYDOWN K_r =>
      let G := set_RECORDING_ENABLED (globals a)
                 (negb (RECORDING_ENABLED (globals a))) in
      if negb (RECORDING_ENABLED G) then
        match recording_buffer g with
        | [] => mkApp G g (disk a) (running a)
        | _ => mkApp G (set_recording_buffer g [])
                     (save_recording (recording_buffer g) (disk a) (disk_ok e))
                     (running a)
        end
      else mkApp G g (disk a) (running a)
  | JOYAXISMOTION ax v =>
      if pro_controller (settings g) && (ax <? 2) then
        if ax =? 0 then
          if Qltb v (-1 # 2) then turn a (-1, 0)
          else if Qltb (1 # 2) v then turn a (1, 0) else a
        else if ax =? 1 then
          if Qltb v (-1 # 2) then turn a (0, -1)
          else if Qltb (1 # 2) v then turn a (0, 1) else a
        else a
      else a
  | _ => a
  end.

(** [Game.handle_input] *)
Definition handle_input (a : App) (ev : event) (e : Env) : outcome process :=
  match state (game a) with
  | TITLE => _handle_title_input a ev e
  | PLAYING => Done (Running (_handle_game_input a ev e))
  | _ => Done (Running a)
  end.

(** One step of [Game.run]: an input event of the current batch, or the
    remainder of the loop iteration ([FRAME]). *)
Definition step (a : App) (ev : event) (e : Env) : outcome process :=
  match ev with
  | FRAME =>
      a <- match state (game a) with
           | PLAYING =>
               '(g, d) <- _update_game (globals a) (game a) (disk a) e ;;
               Done (mkApp (globals a) g d (running a))
           | _ => Done a
           end ;;
      if running a then Done (Running a) else Done (quit_game a e)
  | QUIT => handle_input (mkApp (globals a) (game a) (disk a) false) ev e
  | _ => handle_input a ev e
  end.

Fixpoint run (evs : list (event * Env)) (a : App) : outcome process :=
  match evs with
  | [] => Done (Running a)
  | (ev, e) :: rest =>
      p <- step a ev e ;;
      match p with
      | Running a' => run rest a'
      | Quitted d => Done (Quitted d)
      end
  end.

(** How the process ends (or not) on a finite run of events. *)
Inductive exit_status : Type :=
| StillRunning (a : App)
| Exit (code : Z)
| Hangs.

(** The [__main__] block: [sys.exit()] inside [quit_game] ends with status
    0; any [Exception] that escapes [run] is printed and ends with status 1. *)
Definition main (evs : list (event * Env)) (a : App) : exit_status :=
  match run evs a with
  | Done (Running a') => StillRunning a'
  | Done (Quitted _) => Exit 0
  | Raised _ => Exit 1
  | Starved => Hangs
  end.

(** A program that has just started its first game: [Game.__init__] followed
    by [_start_new_game]. *)
Definition fresh_game (G : Globals) (st : Settings) (e : Env) : outcome Game :=
  _start_new_game G
    (mkGame TITLE st 0 (Snake_init (now e)) (0, 0) 0 [] 0 false [] []) e.

Definition fresh_app (G : Globals) (st : Settings) (d : Disk) (e : Env)
  : outcome App :=
  g <- fresh_game G st e ;;
  Done (mkApp G g d true).

(** * Properties *)

(** ** Basic facts about the tests of the source *)

Lemma cell_eqb_eq (a b : Cell) : cell_eqb a b = true <-> a = b.
Proof.
  destruct a as [ax ay], b as [bx by']; unfold cell_eqb; simpl.
  rewrite andb_true_iff, !Z.eqb_eq. split.
  - intros [-> ->]; reflexivity.
  - intros H; inversion H; auto.
Qed.

Lemma cell_eqb_refl (a : Cell) : cell_eqb a a = true.
Proof. apply cell_eqb_eq; reflexivity. Qed.

Lemma cell_in_In (c : Cell) (l : list Cell) : cell_in c l = true <-> In c l.
Proof.
  induction l as [|x l IH]; simpl.
  - split; [discriminate | tauto].
  - rewrite orb_true_iff, cell_eqb_eq, IH. tauto.
Qed.

Lemma cell_in_false (c : Cell) (l : list Cell) :
  cell_in c l = false <-> ~ In c l.
Proof.
  rewrite <- cell_in_In. destruct (cell_in c l); intuition congruence.
Qed.

Lemma Qltb_lt (a b : Q) : Qltb a b = true <-> (a < b)%Q.
Proof.
  unfold Qltb. rewrite negb_true_iff. split.
  - intros H. apply Qnot_le_lt. intros Hle.
    apply Qle_bool_iff in Hle. congruence.
  - intros H. destruct (Qle_bool b a) eqn:E; auto.
    apply Qle_bool_iff in E. exfalso. exact (Qlt_not_le _ _ H E).
Qed.


(** The exact component-wise opposite of a direction. *)
Definition opposite (d : Direction) : Direction := (- fst d, - snd d).

Lemma not_reverse_false (cur d : Direction) :
  not_reverse cur d = false <-> d = opposite cur.
Proof.
  destruct cur as [cx cy], d as [dx dy]; unfold not_reverse, opposite; simpl.
  rewrite orb_false_iff, !negb_false_iff, !Z.eqb_eq. split.
  - intros [H1 H2]. f_equal; lia.
  - intros H; inversion H; subst; lia.
Qed.

Lemma not_reverse_true (cur d : Direction) :
  not_reverse cur d = true <-> d <> opposite cur.
Proof.
  rewrite <- not_reverse_false. destruct (not_reverse cur d); intuition congruence.
Qed.

(** ** C8: the direction buffer *)

(** C8. [change_direction(d)] never touches the committed direction; it
    stores [d] in the buffer, overwriting whatever was pending and leaving
    every other field alone, exactly when [d] is not the component-wise
    opposite of the committed direction; on the exact opposite the snake is
    left as it was, buffer included. *)
Theorem C8_change_direction_buffers_iff_not_reverse :
  forall (s : Snake) (d : Direction),
    direction (change_direction s d) = direction s /\
    (d <> opposite (direction s) ->
       change_direction s d = set_next_direction s (Some d) /\
       next_direction (change_direction s d) = Some d) /\
    (d = opposite (direction s) ->
       change_direction s d = s /\
       next_direction (change_direction s d) = next_direction s).
Proof.
  intros s d. unfold change_direction.
  destruct (not_reverse (direction s) d) eqn:E.
  - apply not_reverse_true in E. repeat split; auto; intros; congruence.
  - apply not_reverse_false in E. repeat split; auto; intros; congruence.
Qed.

Lemma C8_witness :
  let s := set_next_direction (Snake_init 0) (Some (0, 1)) in
  (change_direction s (0, -1) = set_next_direction s (Some (0, -1)) /\
   next_direction (change_direction s (0, -1)) = Some (0, -1)) /\
  (change_direction s (-1, 0) = s /\
   next_direction (change_direction s (-1, 0)) = Some (0, 1)).
Proof.
  intros s. split.
  - apply (C8_change_direction_buffers_iff_not_reverse s (0, -1)).
    simpl. discriminate.
  - apply (C8_change_direction_buffers_iff_not_reverse s (-1, 0)).
    reflexivity.
Defined.

(** ** C2: the Shrink power-up *)

Lemma drop_last2_split (l : list Cell) :
  (2 <= length l)%nat ->
  exists t1 t2, l = drop_last2 l ++ [t1; t2].
Proof.
  intros Hlen. unfold drop_last2.
  pose proof (firstn_skipn (length l - 2) l) as Hsplit.
  assert (Hk : length (skipn (length l - 2) l) = 2%nat)
    by (rewrite length_skipn; lia).
  destruct (skipn (length l - 2) l) as [|t1 [|t2 [|t3 tl]]];
    simpl in Hk; try discriminate.
  exists t1, t2. symmetry; exact Hsplit.
Qed.

(** The sentence of the design document, read on the code: two cells go
    when the length after the cut would still be at least 3, nothing
    changes otherwise. *)
Definition shrink_as_stated (g : Game) (r : ref) : Prop :=
  let n := Z.of_nat (length (body (snake g))) in
  let b' := body (snake (_apply_power_up g r)) in
  (n - 2 >= 3 -> b' = drop_last2 (body (snake g))) /\
  (n - 2 < 3 -> b' = body (snake g)).

Definition quiet_globals : Globals :=
  mkGlobals true false (Some (mkSound [(1, 1)])) (Some (mkSound [(2, 2)]))
            (Some (mkSound [(3, 3)])) (Some (mkSound [(4, 4)])) ViewRaises.

Definition default_settings (d : Difficulty) : Settings :=
  mkSettings (1 # 2) false d (mkHighScores 0 0 0 0).

(** A game in play whose snake has the given body and one live power-up
    of kind [ty] at [pos]. *)
Definition game_with (b : list Cell) (pos : Cell) (ty : PowerUpType) : Game :=
  mkGame PLAYING (default_settings Normal) 0 (set_body (Snake_init 0) b)
         (20, 20) 0 [0%nat] 0 false [] [PowerUp_init pos ty].

Lemma C2_counterexample :
  ~ shrink_as_stated
      (game_with [(5, 5); (4, 5); (3, 5); (2, 5)] (5, 5) SHRINK) 0%nat.
Proof.
  unfold shrink_as_stated. intros [_ H].
  assert (Hlt : 4 - 2 < 3) by lia.
  specialize (H Hlt). vm_compute in H. discriminate H.
Qed.

(** C2 (amended). Applying a Shrink power-up to a body of more than 3 cells
    removes exactly its last two cells; on a body of at most 3 cells it
    changes nothing.  In both cases the power-up objects are left as they
    were (no active flag set, no timer started) and only the body of the
    snake is touched. *)
Theorem C2_shrink_cuts_two_when_longer_than_three :
  forall (g : Game) (r : ref),
    type (deref (heap g) r) = SHRINK ->
    let n := Z.of_nat (length (body (snake g))) in
    let g' := _apply_power_up g r in
    heap g' = heap g /\
    power_ups g' = power_ups g /\
    active (deref (heap g') r) = active (deref (heap g) r) /\
    timer (deref (heap g') r) = timer (deref (heap g) r) /\
    (n > 3 ->
       g' = set_snake g (set_body (snake g) (drop_last2 (body (snake g)))) /\
       Z.of_nat (length (body (snake g'))) = n - 2 /\
       exists t1 t2, body (snake g) = body (snake g') ++ [t1; t2]) /\
    (n <= 3 -> g' = g).
Proof.
  intros g r Hty n g'. subst g'. unfold _apply_power_up. rewrite Hty.
  destruct (Z.of_nat (length (body (snake g))) >? 3) eqn:E.
  - apply Z.gtb_lt in E. simpl.
    repeat split; auto.
    + unfold drop_last2. rewrite length_firstn. subst n. lia.
    + apply drop_last2_split. lia.
    + subst n. lia.
  - assert (Hle : Z.of_nat (length (body (snake g))) <= 3).
    { destruct (Z.gtb_spec (Z.of_nat (length (body (snake g)))) 3);
        [discriminate | lia]. }
    repeat split; auto; intros; subst n; try lia.
Qed.

Lemma C2_witness :
  let g := game_with [(5, 5); (4, 5); (3, 5); (2, 5)] (5, 5) SHRINK in
  body (snake (_apply_power_up g 0%nat)) = [(5, 5); (4, 5)] /\
  heap (_apply_power_up g 0%nat) = heap g.
Proof.
  intros g.
  pose proof (C2_shrink_cuts_two_when_longer_than_three g 0%nat eq_refl) as H.
  destruct H as (Hheap & _ & _ & _ & Hcut & _).
  split; [| exact Hheap].
  assert (Hn : Z.of_nat (length (body (snake g))) > 3) by (vm_compute; reflexivity).
  destruct (Hcut Hn) as (Heq & _ & _). rewrite Heq. reflexivity.
Defined.

(** ** C6: walls and the shield *)

Lemma apply_buffered_body (s : Snake) : body (apply_buffered s) = body s.
Proof.
  unfold apply_buffered. destruct (next_direction s); auto.
  destruct (not_reverse (direction s) d); reflexivity.
Qed.

Lemma apply_buffered_shield (s : Snake) :
  shield_active (apply_buffered s) = shield_active s.
Proof.
  unfold apply_buffered. destruct (next_direction s); auto.
  destruct (not_reverse (direction s) d); reflexivity.
Qed.

Lemma apply_buffered_dead (s : Snake) : dead (apply_buffered s) = dead s.
Proof.
  unfold apply_buffered. destruct (next_direction s); auto.
  destruct (not_reverse (direction s) d); reflexivity.
Qed.

Lemma apply_buffered_grow (s : Snake) : grow (apply_buffered s) = grow s.
Proof.
  unfold apply_buffered. destruct (next_direction s); auto.
  destruct (not_reverse (direction s) d); reflexivity.
Qed.

(** The cell [move] heads for, once the buffered turn is applied. *)
Definition new_head_of (s : Snake) (head : Cell) : Cell :=
  (fst head + fst (direction (apply_buffered s)),
   snd head + snd (direction (apply_buffered s))).

(** What [move] does once it is due, on a live snake with a head. *)
Lemma move_due (G : Globals) (s : Snake) (t : Q) (buf : list ndarray)
      (head : Cell) (tl : list Cell) :
  dead s = false ->
  Qltb (t - last_move_time s) (effective_interval s) = false ->
  body s = head :: tl ->
  move G s t buf =
  let s1 := apply_buffered s in
  let nh := new_head_of s head in
  let die (s : Snake) :=
    Done (set_dead s true, false, play_sound G (game_over_sound G) buf) in
  let continue (s : Snake) (c : Cell) :=
    if cell_in c (body s) then die s else
    let s2 := set_body s (c :: body s) in
    let s3 := if negb (grow s2) then set_body s2 (pop (body s2))
              else set_grow s2 false in
    Done (set_last_move_time s3 t, true, play_sound G (move_sound G) buf) in
  if on_border nh then
    if shield_active s1 then
      continue (set_shield_active s1 false) (_wrap_position nh)
    else die s1
  else continue s1 nh.
Proof.
  intros Hd Ht Hb. unfold move. rewrite Hd, Ht.
  unfold body0. rewrite apply_buffered_body, Hb. reflexivity.
Qed.

(** The sentence of the design document about a shielded wall hit, read on
    [move]: the shield is consumed and the snake stays alive. *)
Definition shield_wrap_as_stated (G : Globals) (s : Snake) (t : Q)
           (buf : list ndarray) : Prop :=
  forall head tl,
    dead s = false ->
    Qltb (t - last_move_time s) (effective_interval s) = false ->
    body s = head :: tl ->
    on_border (new_head_of s head) = true ->
    shield_active s = true ->
    exists s' buf',
      move G s t buf = Done (s', true, buf') /\
      shield_active s' = false /\ dead s' = false.

(** A snake that fills row 5 from wall to wall, head at the right edge,
    heading right, shield on. *)
Definition row_snake : Snake :=
  mkSnake (map (fun k => (30 - Z.of_nat k, 5)) (seq 0 30)) (1, 0) false false
          0 None false true 1 1.

Lemma C6_counterexample :
  ~ shield_wrap_as_stated quiet_globals row_snake 1 [].
Proof.
  intros H.
  destruct (H (30, 5) (map (fun k => (30 - Z.of_nat k, 5)) (seq 1 29)))
    as (s' & buf' & Hmove & _ & _); try reflexivity.
  vm_compute in Hmove. discriminate Hmove.
Qed.

Lemma wrap_position_axes (c : Cell) :
  fst (_wrap_position c) =
    (if fst c <? 1 then GRID_COUNT - 2
     else if fst c >=? GRID_COUNT - 1 then 1 else fst c) /\
  snd (_wrap_position c) =
    (if snd c <? 1 then GRID_COUNT - 2
     else if snd c >=? GRID_COUNT - 1 then 1 else snd c).
Proof.
  destruct c as [x y]. unfold _wrap_position. simpl.
  split.
  - destruct (x <? 1) eqn:E; [reflexivity | reflexivity].
  - destruct (y <? 1) eqn:E; reflexivity.
Qed.

(** The wrapped cell is an interior cell. *)
Lemma wrap_position_interior (c : Cell) :
  on_border (_wrap_position c) = false.
Proof.
  destruct c as [x y]. unfold _wrap_position, on_border, GRID_COUNT,
    WINDOW_SIZE, GRID_SIZE. simpl.
  change (256 / 8) with 32.
  destruct (x <? 1) eqn:Ex; destruct (y <? 1) eqn:Ey; simpl;
    repeat match goal with
           | |- context [?a >=? ?b] => destruct (Z.geb_spec a b); simpl
           | |- context [?a <? ?b] => destruct (Z.ltb_spec a b); simpl
           end; try reflexivity; try lia.
Qed.

(** [move] never raises the shield flag. *)
Lemma move_shield (G : Globals) (s s' : Snake) (t : Q)
      (buf buf' : list ndarray) (alive : bool) :
  move G s t buf = Done (s', alive, buf') ->
  shield_active s' = true -> shield_active s = true.
Proof.
  unfold move. intros H.
  destruct (dead s); [inversion H; subst; auto|].
  destruct (Qltb _ _); [inversion H; subst; auto|].
  unfold body0 in H. rewrite apply_buffered_body in H.
  destruct (body s) as [|head tl] eqn:Hb; [discriminate|].
  simpl in H. rewrite apply_buffered_shield in H.
  repeat match type of H with
         | context [if ?c then _ else _] => destruct c eqn:?
         end; inversion H; subst; simpl; intros;
    rewrite ?apply_buffered_shield in *; congruence.
Qed.

(** ** The heap of power-up objects *)

Lemma length_store (h : Heap) (r : ref) (p : PowerUp) :
  length (store h r p) = length h.
Proof.
  revert r; induction h as [|x h IH]; intros [|r]; simpl; auto.
Qed.

Lemma deref_store_other (h : Heap) (r r' : ref) (p : PowerUp) :
  r <> r' -> deref (store h r p) r' = deref h r'.
Proof.
  unfold deref. revert r r'; induction h as [|x h IH]; intros [|r] [|r'] Hne;
    simpl; auto; try congruence.
Qed.

Lemma deref_store_same (h : Heap) (r : ref) (p : PowerUp) :
  (r < length h)%nat -> deref (store h r p) r = p.
Proof.
  unfold deref. revert r; induction h as [|x h IH]; intros [|r] Hlt;
    simpl in *; auto; try lia. apply IH; lia.
Qed.

(** Writing back an object with the same kind and position changes the kind
    and position of no object. *)
Lemma deref_store_kind (h : Heap) (r r' : ref) (p : PowerUp) :
  type p = type (deref h r) -> position p = position (deref h r) ->
  type (deref (store h r p) r') = type (deref h r') /\
  position (deref (store h r p) r') = position (deref h r').
Proof.
  intros Ht Hp. destruct (Nat.eq_dec r r') as [<-|Hne].
  - destruct (Nat.lt_ge_cases r (length h)) as [Hlt|Hge].
    + rewrite deref_store_same by exact Hlt. auto.
    + assert (Hs : store h r p = h).
      { clear Ht Hp. revert r Hge; induction h as [|x h IH]; intros [|r] Hge;
          simpl in *; auto; try lia. f_equal; apply IH; lia. }
      rewrite Hs; auto.
  - rewrite deref_store_other by exact Hne. auto.
Qed.

Lemma deref_alloc_old (h : Heap) (p : PowerUp) (r : ref) :
  (r < length h)%nat -> deref (h ++ [p]) r = deref h r.
Proof. intros Hlt. unfold deref. apply app_nth1; exact Hlt. Qed.

Lemma deref_alloc_new (h : Heap) (p : PowerUp) :
  deref (h ++ [p]) (length h) = p.
Proof. unfold deref. rewrite app_nth2, Nat.sub_diag by lia. reflexivity. Qed.

Lemma list_remove_spec (r : ref) (l l' : list ref) :
  list_remove r l = Done l' ->
  exists l1 l2, l = l1 ++ r :: l2 /\ l' = l1 ++ l2 /\ ~ In r l1.
Proof.
  revert l'; induction l as [|x l IH]; simpl; intros l' H; [discriminate|].
  destruct (Nat.eqb_spec x r) as [->|Hne].
  - inversion H; subst. exists [], l'. simpl; auto.
  - destruct (list_remove r l) as [t| |] eqn:E; simpl in H; try discriminate.
    inversion H; subst.
    destruct (IH t eq_refl) as (l1 & l2 & -> & -> & Hn).
    exists (x :: l1), l2. simpl. repeat split; auto.
    intros [Hx|Hx]; [congruence | contradiction].
Qed.

Lemma list_remove_incl (r : ref) (l l' : list ref) :
  list_remove r l = Done l' -> forall x, In x l' -> In x l.
Proof.
  intros H x Hx. destruct (list_remove_spec _ _ _ H) as (l1 & l2 & -> & -> & _).
  apply in_app_or in Hx. apply in_or_app. simpl. tauto.
Qed.

(** ** Loop invariants *)

(** A property kept by each assignment of the expiry loop is kept by the
    loop. *)
Lemma _update_power_ups_loop_inv (P : Game -> Prop) :
  (forall g r t, P g ->
     P (set_heap g (store (heap g) r (set_timer (deref (heap g) r) t)))) ->
  (forall g m, P g -> P (set_snake g (set_speed_multiplier (snake g) m))) ->
  (forall g m, P g -> P (set_snake g (set_score_multiplier (snake g) m))) ->
  (forall g r l, P g -> list_remove r (power_ups g) = Done l ->
                 P (set_power_ups g l)) ->
  forall snapshot g g',
    P g -> _update_power_ups_loop snapshot g = Done g' -> P g'.
Proof.
  intros Hh Hsp Hsc Hl. induction snapshot as [|r rest IH]; simpl; intros g g' HP H.
  - inversion H; subst; exact HP.
  - destruct (active (deref (heap g) r)); [|eauto].
    match type of H with
    | context [if ?c then _ else _] => destruct c
    end; [|eapply IH; [|exact H]; auto].
    match type of H with
    | context [list_remove ?a ?b] => destruct (list_remove a b) eqn:E
    end; simpl in H; try discriminate.
    eapply IH; [|exact H]. eapply Hl; [|exact E].
    destruct (type _); simpl; auto.
    + apply (Hsp (set_heap g _)). auto.
    + apply (Hsc (set_heap g _)). auto.
Qed.

(** A property kept by collecting one power-up (apply it, drop it from the
    list) is kept by the collection loop. *)
Lemma collect_loop_inv (P : Game -> Prop) :
  (forall g r l,
      P g -> list_remove r (power_ups (_apply_power_up g r)) = Done l ->
      P (set_power_ups (_apply_power_up g r) l)) ->
  forall snapshot g g',
    P g -> collect_loop snapshot g = Done g' -> P g'.
Proof.
  intros Hstep. induction snapshot as [|r rest IH]; simpl; intros g g' HP H.
  - inversion H; subst; exact HP.
  - destruct (body0 (snake g)) as [head| |]; simpl in H; try discriminate.
    destruct (cell_eqb head _); [|eauto].
    match type of H with
    | context [list_remove ?a ?b] => destruct (list_remove a b) eqn:E
    end; simpl in H; try discriminate.
    eapply IH; [|exact H]. auto.
Qed.

(** ** C5: the body never repeats a cell *)

Ltac bind_inv H :=
  match type of H with
  | bind ?m _ = Done _ =>
      let E := fresh "E" in
      destruct m eqn:E; simpl in H; try discriminate H
  end.

Arguments pop : simpl never.
Arguments _wrap_position : simpl never.

Lemma NoDup_firstn (n : nat) (l : list Cell) : NoDup l -> NoDup (firstn n l).
Proof.
  intros H. rewrite <- (firstn_skipn n l) in H.
  exact (NoDup_app_remove_r _ _ H).
Qed.

Lemma NoDup_pop (l : list Cell) : NoDup l -> NoDup (pop l).
Proof.
  intros H. unfold pop. rewrite removelast_firstn_len. apply NoDup_firstn, H.
Qed.

(** [move] keeps the body free of repetitions: the new head is tested
    against the body (after any wrap) before it is prepended. *)
Lemma move_NoDup (G : Globals) (s s' : Snake) (t : Q)
      (buf buf' : list ndarray) (alive : bool) :
  move G s t buf = Done (s', alive, buf') ->
  NoDup (body s) -> NoDup (body s').
Proof.
  unfold move. intros H Hnd.
  destruct (dead s); [inversion H; subst; auto|].
  destruct (Qltb _ _); [inversion H; subst; auto|].
  unfold body0 in H. rewrite apply_buffered_body in H.
  destruct (body s) as [|head tl] eqn:Hb; [discriminate|].
  simpl in H. rewrite ?apply_buffered_body, ?apply_buffered_grow, Hb in H.
  repeat match type of H with
         | context [if ?c then _ else _] => destruct c eqn:?
         end; inversion H; subst; simpl;
    rewrite ?apply_buffered_body, ?Hb; auto;
    try (apply NoDup_pop);
    constructor; auto;
    intros Hin; apply cell_in_In in Hin; simpl in *; congruence.
Qed.

Lemma _apply_power_up_NoDup (g : Game) (r : ref) :
  NoDup (body (snake g)) -> NoDup (body (snake (_apply_power_up g r))).
Proof.
  intros H. unfold _apply_power_up.
  destruct (type (deref (heap g) r)); simpl; auto.
  destruct (_ >? 3); simpl; auto. apply NoDup_firstn, H.
Qed.

Lemma sample_free_spec (occupied : Cell -> bool) (ds rest : list Cell)
      (c : Cell) :
  sample_free occupied ds = Done (c, rest) ->
  In c ds /\ occupied c = false /\ (forall x, In x rest -> In x ds).
Proof.
  induction ds as [|x ds IH]; simpl; intros H; [discriminate|].
  destruct (occupied x) eqn:E.
  - destruct (IH H) as (H1 & H2 & H3). auto.
  - inversion H; subst. auto.
Qed.

Lemma _spawn_power_up_snake (g g' : Game) (ds rest : list Cell)
      (ty : PowerUpType) :
  _spawn_power_up g ds ty = Done (g', rest) ->
  snake g' = snake g /\ food g' = food g /\ state g' = state g /\
  (forall x, In x rest -> In x ds).
Proof.
  unfold _spawn_power_up. intros H. bind_inv H.
  destruct a as [pos rest']. simpl in H. inversion H; subst; simpl.
  apply sample_free_spec in E. tauto.
Qed.

(** The stages of a frame that returned. *)
Lemma _update_game_stages (G : Globals) (g g' : Game) (d d' : Disk) (e : Env) :
  _update_game G g d e = Done (g', d') ->
  exists g1 g2 ds s alive buf,
    _update_power_ups g = Done g1 /\
    spawn_step g1 e = Done (g2, ds) /\
    move G (snake g2) (now e) (recording_buffer g2) = Done (s, alive, buf) /\
    let g3 := set_snake (set_recording_buffer g2 buf) s in
    (alive = false /\ game_over_step g3 d e = Done (g', d')) \/
    (alive = true /\
     exists g4, collect_loop (power_ups g3) g3 = Done g4 /\
                eat_step G g4 d ds = Done (g', d')).
Proof.
  unfold _update_game. intros H.
  bind_inv H. rename a into g1.
  bind_inv H. destruct a as [g2 ds].
  bind_inv H. destruct a as [[s alive] buf].
  exists g1, g2, ds, s, alive, buf. repeat split; auto.
  destruct alive; simpl in H.
  - right. split; auto. bind_inv H. eauto.
  - left. auto.
Qed.

Lemma spawn_step_snake (g g' : Game) (ds : list Cell) (e : Env) :
  spawn_step g e = Done (g', ds) ->
  snake g' = snake g /\ food g' = food g /\ state g' = state g /\
  (forall x, In x ds -> In x (draws e)).
Proof.
  unfold spawn_step. intros H.
  destruct (_ >=? _) in H.
  - bind_inv H. destruct a as [g3 ds3]. inversion H; subst. simpl.
    apply _spawn_power_up_snake in E. simpl in E. tauto.
  - inversion H; subst. simpl. auto.
Qed.

Lemma game_over_step_board (g g' : Game) (d d' : Disk) (e : Env) :
  game_over_step g d e = Done (g', d') ->
  snake g' = snake g /\ food g' = food g /\ power_ups g' = power_ups g /\
  heap g' = heap g /\ state g' = GAME_OVER.
Proof.
  unfold game_over_step. intros H. bind_inv H. destruct a as [g5 d5].
  inversion H; subst. simpl.
  destruct (negb (high_score g)) in E.
  - bind_inv E. destruct a as [[st b] d6]. inversion E; subst. simpl. auto.
  - inversion E; subst. auto.
Qed.

Lemma eat_step_body (G : Globals) (g g' : Game) (d d' : Disk)
      (ds : list Cell) :
  eat_step G g d ds = Done (g', d') ->
  body (snake g') = body (snake g) /\ power_ups g' = power_ups g /\
  heap g' = heap g /\ state g' = state g /\
  speed_multiplier (snake g') = speed_multiplier (snake g) /\
  score_multiplier (snake g') = score_multiplier (snake g) /\
  shield_active (snake g') = shield_active (snake g) /\
  dead (snake g') = dead (snake g).
Proof.
  unfold eat_step. intros H. bind_inv H.
  destruct (cell_eqb a (food g)).
  - bind_inv H. destruct a0 as [nf rest]. inversion H; subst. simpl.
    repeat split; reflexivity.
  - inversion H; subst. repeat split; reflexivity.
Qed.

Lemma _update_game_NoDup (G : Globals) (g g' : Game) (d d' : Disk) (e : Env) :
  _update_game G g d e = Done (g', d') ->
  NoDup (body (snake g)) -> NoDup (body (snake g')).
Proof.
  intros H Hnd.
  destruct (_update_game_stages _ _ _ _ _ _ H)
    as (g1 & g2 & ds & s & alive & buf & Hup & Hsp & Hmv & Hrest).
  assert (H1 : NoDup (body (snake g1))).
  { unfold _update_power_ups in Hup.
    eapply (_update_power_ups_loop_inv (fun g => NoDup (body (snake g))));
      try exact Hup; auto. }
  apply spawn_step_snake in Hsp. destruct Hsp as (Hs2 & _).
  rewrite <- Hs2 in H1.
  apply move_NoDup in Hmv; [|exact H1].
  destruct Hrest as [[_ Hgo]|[_ (g4 & Hcol & Heat)]].
  - apply game_over_step_board in Hgo. destruct Hgo as (-> & _). exact Hmv.
  - apply eat_step_body in Heat. destruct Heat as (-> & _).
    eapply (collect_loop_inv (fun g => NoDup (body (snake g))));
      try exact Hcol; auto.
    intros g0 r l Hg0 _. simpl. apply _apply_power_up_NoDup, Hg0.
Qed.

Lemma change_direction_body (s : Snake) (d : Direction) :
  body (change_direction s d) = body s.
Proof. unfold change_direction. destruct (not_reverse _ _); reflexivity. Qed.

Lemma _handle_game_input_body (a : App) (ev : event) (e : Env) :
  body (snake (game (_handle_game_input a ev e))) = body (snake (game a)).
Proof.
  unfold _handle_game_input, turn.
  destruct ev as [k| |ax v| |]; simpl; auto.
  - destruct k; simpl; auto;
      repeat match goal with
             | |- context [if ?c then _ else _] => destruct c
             | |- context [match recording_buffer ?g with _ => _ end] =>
                 destruct (recording_buffer g)
             end; simpl; auto using change_direction_body.
  - repeat match goal with
           | |- context [if ?c then _ else _] => destruct c
           end; simpl; auto using change_direction_body.
Qed.

Lemma _select_menu_option_NoDup (a a' : App) (e : Env) :
  _select_menu_option a e = Done (Running a') ->
  NoDup (body (snake (game a))) -> NoDup (body (snake (game a'))).
Proof.
  unfold _select_menu_option, _start_new_game. intros H Hnd.
  destruct (selected (game a) =? 0).
  - destruct (draws e); simpl in H; [discriminate|].
    inversion H; subst; simpl. repeat constructor. simpl; tauto.
  - destruct (selected (game a) =? 3); [discriminate|].
    inversion H; subst; simpl. exact Hnd.
Qed.

Lemma _handle_title_input_NoDup (a a' : App) (ev : event) (e : Env) :
  _handle_title_input a ev e = Done (Running a') ->
  NoDup (body (snake (game a))) -> NoDup (body (snake (game a'))).
Proof.
  unfold _handle_title_input. intros H Hnd.
  destruct ev as [k|b|ax v| |].
  - destruct k; try (inversion H; subst; exact Hnd);
      eauto using _select_menu_option_NoDup.
  - destruct (_ && _); [eauto using _select_menu_option_NoDup|].
    inversion H; subst; exact Hnd.
  - repeat match type of H with
           | context [if ?c then _ else _] => destruct c
           end; inversion H; subst; exact Hnd.
  - inversion H; subst; exact Hnd.
  - inversion H; subst; exact Hnd.
Qed.

Lemma handle_input_NoDup (a a' : App) (ev : event) (e : Env) :
  handle_input a ev e = Done (Running a') ->
  NoDup (body (snake (game a))) -> NoDup (body (snake (game a'))).
Proof.
  unfold handle_input. intros H Hnd.
  destruct (state (game a));
    try (inversion H; subst; exact Hnd).
  - eauto using _handle_title_input_NoDup.
  - inversion H; subst. rewrite _handle_game_input_body. exact Hnd.
Qed.

Lemma step_NoDup (a a' : App) (ev : event) (e : Env) :
  step a ev e = Done (Running a') ->
  NoDup (body (snake (game a))) -> NoDup (body (snake (game a'))).
Proof.
  unfold step. intros H Hnd.
  destruct ev; try (eapply handle_input_NoDup; [exact H | exact Hnd]).
  bind_inv H. rename a0 into a1.
  assert (H1 : NoDup (body (snake (game a1)))).
  { destruct (state (game a)); try (inversion E; subst; exact Hnd).
    bind_inv E. destruct a0 as [g d]. inversion E; subst. simpl.
    eapply _update_game_NoDup; eauto. }
  destruct (running a1); inversion H; subst. exact H1.
Qed.

Lemma run_NoDup (evs : list (event * Env)) (a a' : App) :
  run evs a = Done (Running a') ->
  NoDup (body (snake (game a))) -> NoDup (body (snake (game a'))).
Proof.
  revert a; induction evs as [|[ev e] rest IH]; simpl; intros a H Hnd.
  - inversion H; subst; exact Hnd.
  - bind_inv H. destruct a0 as [a1|d]; [|discriminate].
    eapply IH; [exact H|]. eapply step_NoDup; eauto.
Qed.

(** C5. From a freshly started game, after any sequence of input events and
    frames (whatever the clock, the random draws and the disk do), the body
    of the snake holds no cell twice; in particular while it is alive.
    [move], with or without a shield-assisted wrap, and Shrink each keep
    the body free of repetitions. *)
Theorem C5_body_never_repeats_a_cell :
  forall (G : Globals) (st : Settings) (d : Disk) (e0 : Env)
         (evs : list (event * Env)) (a0 a : App),
    fresh_app G st d e0 = Done a0 ->
    run evs a0 = Done (Running a) ->
    NoDup (body (snake (game a))) /\
    (forall s' alive buf' t,
        move (globals a) (snake (game a)) t (recording_buffer (game a))
          = Done (s', alive, buf') -> NoDup (body s')) /\
    (forall r, NoDup (body (snake (_apply_power_up (game a) r)))).
Proof.
  intros G st d e0 evs a0 a Hfresh Hrun.
  assert (H0 : NoDup (body (snake (game a0)))).
  { unfold fresh_app, fresh_game, _start_new_game in Hfresh.
    destruct (draws e0); simpl in Hfresh; [discriminate|].
    inversion Hfresh; subst; simpl. repeat constructor. simpl; tauto. }
  pose proof (run_NoDup _ _ _ Hrun H0) as Hnd.
  split; [exact Hnd|]. split.
  - intros s' alive buf' t Hm. eapply move_NoDup; eauto.
  - intros r. apply _apply_power_up_NoDup, Hnd.
Qed.

(** ** Concrete runs *)

(** Frame [k] of a run happens [17 k] milliseconds after the start (a
    60 Hz loop never runs faster than that). *)
Definition frame_time (k : Z) : Q := (17 * k) # 1000.

Definition env_at (k : Z) (ds : list Cell) (ty : PowerUpType) (ok : bool)
  : Env := mkEnv (frame_time k) ds ty ok.

(** Frames [k+1 .. k+n], each with the same answers from the environment. *)
Fixpoint frames_from (k : Z) (n : nat) (ds : list Cell) (ty : PowerUpType)
         (ok : bool) : list (event * Env) :=
  match n with
  | O => []
  | S n' => (FRAME, env_at (k + 1) ds ty ok)
            :: frames_from (k + 1) n' ds ty ok
  end.

(** [groups] rounds of: press the next key of the cycle, then let [per]
    frames pass. *)
Fixpoint circling (keys : list Key) (k : Z) (per groups : nat)
         (ds : list Cell) (ty : PowerUpType) (ok : bool)
  : list (event * Env) :=
  match groups, keys with
  | S g', key :: ks =>
      (KEYDOWN key, env_at k ds ty ok)
        :: frames_from k per ds ty ok
        ++ circling (ks ++ [key]) (k + Z.of_nat per) per g' ds ty ok
  | _, _ => []
  end.

Definition start_env (f : Cell) : Env := mkEnv 0 [f] SPEED true.

(** The program right after its first [_start_new_game], at time 0, with
    the food drawn at [f]. *)
Definition start_app (f : Cell) (d : Difficulty) : App :=
  mkApp quiet_globals
        (mkGame PLAYING (default_settings d) 0 (Snake_init 0) f 0 [] 0 false
                [] [])
        (mkDisk None None) true.

Lemma fresh_app_start (f : Cell) (d : Difficulty) :
  fresh_app quiet_globals (default_settings d) (mkDisk None None) (start_env f)
  = Done (start_app f d).
Proof. reflexivity. Qed.

(** The state a run ends in (the start state if it does not end in one). *)
Definition app_after (evs : list (event * Env)) (a : App) : App :=
  match run evs a with
  | Done (Running a') => a'
  | _ => a
  end.

Lemma C5_witness :
  NoDup (body (snake (game
    (app_after (frames_from 0 30 [(5, 5)] SPEED true)
               (start_app (18, 16) Normal))))).
Proof.
  refine (proj1 (C5_body_never_repeats_a_cell
                   quiet_globals (default_settings Normal) (mkDisk None None)
                   (start_env (18, 16))
                   (frames_from 0 30 [(5, 5)] SPEED true)
                   (start_app (18, 16) Normal) _ eq_refl _)).
  vm_compute. reflexivity.
Defined.

(** ** C1: timed effects *)

(** The state of the power-up objects in every reachable game: the list
    holds distinct references to allocated objects, none of them active,
    and no object has a running timer. *)
Definition wf (g : Game) : Prop :=
  NoDup (power_ups g) /\
  Forall (fun r => (r < length (heap g))%nat /\
                   active (deref (heap g) r) = false) (power_ups g) /\
  Forall (fun p => timer p = 0) (heap g).

(** With no active object in the snapshot the expiry loop does nothing. *)
Lemma _update_power_ups_loop_inert (snapshot : list ref) (g : Game) :
  Forall (fun r => active (deref (heap g) r) = false) snapshot ->
  _update_power_ups_loop snapshot g = Done g.
Proof.
  induction 1 as [|r rest Hr _ IH]; simpl; [reflexivity|].
  rewrite Hr. exact IH.
Qed.

Lemma _update_power_ups_wf (g : Game) : wf g -> _update_power_ups g = Done g.
Proof.
  intros (_ & Hin & _). apply _update_power_ups_loop_inert.
  eapply Forall_impl; [|exact Hin]. simpl. tauto.
Qed.

Lemma Forall_store (P : PowerUp -> Prop) (h : Heap) (r : ref) (p : PowerUp) :
  Forall P h -> P p -> Forall P (store h r p).
Proof.
  intros Hh Hp. revert r. induction Hh as [|x h Hx Hh IH]; intros [|r];
    simpl; auto.
Qed.

Lemma deref_timer (h : Heap) (r : ref) :
  Forall (fun p => timer p = 0) h -> timer (deref h r) = 0.
Proof.
  intros Hh. unfold deref.
  destruct (nth_in_or_default r h (PowerUp_init (0, 0) SHRINK)) as [Hin| ->].
  - rewrite Forall_forall in Hh. apply Hh, Hin.
  - reflexivity.
Qed.

Lemma _apply_power_up_heap (g : Game) (r : ref) :
  power_ups (_apply_power_up g r) = power_ups g /\
  (heap (_apply_power_up g r) = heap g \/
   heap (_apply_power_up g r)
   = store (heap g) r (set_active (deref (heap g) r) true)).
Proof.
  unfold _apply_power_up. destruct (type (deref (heap g) r)); simpl; auto.
  destruct (_ >? 3); simpl; auto.
Qed.

Lemma wf_collect_step (g : Game) (r : ref) (l : list ref) :
  wf g ->
  list_remove r (power_ups (_apply_power_up g r)) = Done l ->
  wf (set_power_ups (_apply_power_up g r) l).
Proof.
  intros (Hnd & Hin & Htm) Hrm.
  destruct (_apply_power_up_heap g r) as (Hpu & Hheap).
  rewrite Hpu in Hrm.
  destruct (list_remove_spec _ _ _ Hrm) as (l1 & l2 & Hl & -> & _).
  rewrite Hl in Hnd, Hin.
  assert (Hnd' : NoDup (l1 ++ l2)) by (eapply NoDup_remove_1; exact Hnd).
  assert (Hnotin : ~ In r (l1 ++ l2)) by (eapply NoDup_remove_2; exact Hnd).
  assert (Hin' : Forall (fun r0 => (r0 < length (heap g))%nat /\
                                   active (deref (heap g) r0) = false)
                        (l1 ++ l2)).
  { rewrite Forall_app in *. destruct Hin as (H1 & H2).
    inversion H2; subst. auto. }
  unfold wf. simpl. split; [exact Hnd'|].
  destruct Hheap as [-> | ->].
  - auto.
  - split.
    + rewrite Forall_forall in *. intros r0 Hr0.
      assert (Hne : r <> r0) by (intros ->; contradiction).
      rewrite length_store, deref_store_other by exact Hne. auto.
    + apply Forall_store; [exact Htm|]. simpl. apply deref_timer, Htm.
Qed.

Lemma collect_loop_wf (snapshot : list ref) (g g' : Game) :
  wf g -> collect_loop snapshot g = Done g' -> wf g'.
Proof.
  apply (collect_loop_inv wf). intros; eapply wf_collect_step; eauto.
Qed.

Lemma wf_same_objects (g g' : Game) :
  power_ups g' = power_ups g -> heap g' = heap g -> wf g -> wf g'.
Proof. unfold wf. intros -> ->. auto. Qed.

Lemma spawn_step_wf (g g' : Game) (ds : list Cell) (e : Env) :
  spawn_step g e = Done (g', ds) -> wf g -> wf g'.
Proof.
  unfold spawn_step. intros H Hwf.
  destruct (_ >=? _) in H.
  - bind_inv H. destruct a as [g3 ds3]. inversion H; subst. clear H.
    unfold _spawn_power_up in E. bind_inv E. destruct a as [pos rest].
    simpl in E. inversion E; subst. clear E.
    destruct Hwf as (Hnd & Hin & Htm). unfold wf. simpl.
    rewrite Forall_forall in Hin. repeat split.
    + apply NoDup_app; [exact Hnd | repeat constructor; simpl; tauto |].
      intros x Hx [<-|[]]. apply Hin in Hx. lia.
    + rewrite Forall_app. split.
      * rewrite Forall_forall. intros r Hr. destruct (Hin r Hr) as (Hlt & Ha).
        rewrite length_app, deref_alloc_old by exact Hlt. simpl. split; [lia|auto].
      * repeat constructor.
        -- rewrite length_app. simpl. lia.
        -- rewrite deref_alloc_new. reflexivity.
    + rewrite Forall_app. split; [exact Htm|]. repeat constructor.
  - inversion H; subst. exact Hwf.
Qed.

Lemma _update_game_wf (G : Globals) (g g' : Game) (d d' : Disk) (e : Env) :
  _update_game G g d e = Done (g', d') -> wf g -> wf g'.
Proof.
  intros H Hwf.
  destruct (_update_game_stages _ _ _ _ _ _ H)
    as (g1 & g2 & ds & s & alive & buf & Hup & Hsp & Hmv & Hrest).
  rewrite (_update_power_ups_wf g Hwf) in Hup. inversion Hup; subst g1.
  pose proof (spawn_step_wf _ _ _ _ Hsp Hwf) as H2.
  destruct Hrest as [[_ Hgo]|[_ (g4 & Hcol & Heat)]].
  - apply game_over_step_board in Hgo. destruct Hgo as (_ & _ & Hp & Hh & _).
    eapply wf_same_objects; [exact Hp | exact Hh | exact H2].
  - apply eat_step_body in Heat. destruct Heat as (_ & Hp & Hh & _).
    eapply wf_same_objects; [exact Hp | exact Hh |].
    eapply collect_loop_wf; [|exact Hcol]. exact H2.
Qed.

(** A raised multiplier stays raised. *)
Definition sticky (s s' : Snake) : Prop :=
  (speed_multiplier s = 3 # 2 -> speed_multiplier s' = 3 # 2) /\
  (score_multiplier s = 2 -> score_multiplier s' = 2).

Lemma sticky_same (s s' : Snake) :
  speed_multiplier s' = speed_multiplier s ->
  score_multiplier s' = score_multiplier s -> sticky s s'.
Proof. unfold sticky. intros -> ->. auto. Qed.

Lemma sticky_trans (s1 s2 s3 : Snake) :
  sticky s1 s2 -> sticky s2 s3 -> sticky s1 s3.
Proof. unfold sticky. tauto. Qed.

Lemma apply_buffered_multipliers (s : Snake) :
  speed_multiplier (apply_buffered s) = speed_multiplier s /\
  score_multiplier (apply_buffered s) = score_multiplier s.
Proof.
  unfold apply_buffered. destruct (next_direction s); auto.
  destruct (not_reverse (direction s) d); auto.
Qed.

Lemma move_multipliers (G : Globals) (s s' : Snake) (t : Q)
      (buf buf' : list ndarray) (alive : bool) :
  move G s t buf = Done (s', alive, buf') ->
  speed_multiplier s' = speed_multiplier s /\
  score_multiplier s' = score_multiplier s.
Proof.
  unfold move. intros H.
  destruct (dead s); [inversion H; subst; auto|].
  destruct (Qltb _ _); [inversion H; subst; auto|].
  unfold body0 in H. rewrite apply_buffered_body in H.
  destruct (body s) as [|head tl] eqn:Hb; [discriminate|].
  simpl in H.
  repeat match type of H with
         | context [if ?c then _ else _] => destruct c eqn:?
         end; inversion H; subst; simpl; apply apply_buffered_multipliers.
Qed.

Lemma _apply_power_up_sticky (g : Game) (r : ref) :
  sticky (snake g) (snake (_apply_power_up g r)).
Proof.
  unfold _apply_power_up, sticky.
  destruct (type (deref (heap g) r)); simpl; auto.
  destruct (_ >? 3); simpl; auto.
Qed.

Lemma collect_loop_sticky (snapshot : list ref) (g g' : Game) :
  collect_loop snapshot g = Done g' -> sticky (snake g) (snake g').
Proof.
  apply (collect_loop_inv (fun x => sticky (snake g) (snake x))).
  - intros g0 r l H0 _. simpl.
    eapply sticky_trans; [exact H0 | apply _apply_power_up_sticky].
  - unfold sticky; auto.
Qed.

(** In a well-formed game a frame never lowers a raised multiplier. *)
Lemma _update_game_sticky (G : Globals) (g g' : Game) (d d' : Disk) (e : Env) :
  _update_game G g d e = Done (g', d') -> wf g ->
  sticky (snake g) (snake g').
Proof.
  intros H Hwf.
  destruct (_update_game_stages _ _ _ _ _ _ H)
    as (g1 & g2 & ds & s & alive & buf & Hup & Hsp & Hmv & Hrest).
  rewrite (_update_power_ups_wf g Hwf) in Hup. inversion Hup; subst g1.
  apply spawn_step_snake in Hsp. destruct Hsp as (Hs2 & _).
  apply move_multipliers in Hmv. rewrite Hs2 in Hmv. destruct Hmv as (Hv & Hc).
  destruct Hrest as [[_ Hgo]|[_ (g4 & Hcol & Heat)]].
  - apply game_over_step_board in Hgo. destruct Hgo as (-> & _).
    apply sticky_same; assumption.
  - apply eat_step_body in Heat.
    destruct Heat as (_ & _ & _ & _ & Hv' & Hc' & _).
    apply collect_loop_sticky in Hcol. simpl in Hcol.
    eapply sticky_trans; [apply sticky_same; eassumption|].
    eapply sticky_trans; [exact Hcol|]. apply sticky_same; assumption.
Qed.

(** Events other than a menu confirmation (which may start a new game). *)
Definition no_confirm (ev : event) : Prop :=
  match ev with
  | KEYDOWN K_RETURN | KEYDOWN K_SPACE | JOYBUTTONDOWN _ => False
  | _ => True
  end.

Lemma change_direction_multipliers (s : Snake) (d : Direction) :
  speed_multiplier (change_direction s d) = speed_multiplier s /\
  score_multiplier (change_direction s d) = score_multiplier s.
Proof. unfold change_direction. destruct (not_reverse _ _); auto. Qed.

Lemma _handle_game_input_objects (a : App) (ev : event) (e : Env) :
  let a' := _handle_game_input a ev e in
  power_ups (game a') = power_ups (game a) /\
  heap (game a') = heap (game a) /\
  speed_multiplier (snake (game a')) = speed_multiplier (snake (game a)) /\
  score_multiplier (snake (game a')) = score_multiplier (snake (game a)).
Proof.
  unfold _handle_game_input, turn.
  destruct ev as [k| |ax v| |]; simpl; auto.
  - destruct k; simpl; auto;
      repeat match goal with
             | |- context [if ?c then _ else _] => destruct c
             | |- context [match recording_buffer ?g with _ => _ end] =>
                 destruct (recording_buffer g)
             end; simpl; auto using change_direction_multipliers.
  - repeat match goal with
           | |- context [if ?c then _ else _] => destruct c
           end; simpl; auto using change_direction_multipliers.
Qed.

Lemma _select_menu_option_wf (a a' : App) (e : Env) :
  _select_menu_option a e = Done (Running a') -> wf (game a) -> wf (game a').
Proof.
  unfold _select_menu_option, _start_new_game. intros H (Hnd & Hin & Htm).
  destruct (selected (game a) =? 0).
  - destruct (draws e); simpl in H; [discriminate|].
    inversion H; subst; unfold wf; simpl. repeat split; auto. constructor.
  - destruct (selected (game a) =? 3); [discriminate|].
    inversion H; subst; unfold wf; simpl. auto.
Qed.

Lemma _handle_title_input_objects (a a' : App) (ev : event) (e : Env) :
  _handle_title_input a ev e = Done (Running a') -> wf (game a) ->
  wf (game a') /\
  (no_confirm ev -> snake (game a') = snake (game a)).
Proof.
  unfold _handle_title_input. intros H Hwf.
  destruct ev as [k|b|ax v| |].
  - destruct k; try (inversion H; subst; simpl; split; [exact Hwf | reflexivity]);
      (split; [eapply _select_menu_option_wf; eauto | simpl; tauto]).
  - split; [|simpl; tauto].
    destruct (_ && _); [eauto using _select_menu_option_wf|].
    inversion H; subst; exact Hwf.
  - repeat match type of H with
           | context [if ?c then _ else _] => destruct c
           end; inversion H; subst; simpl; split; auto.
  - inversion H; subst; auto.
  - inversion H; subst; auto.
Qed.

Lemma handle_input_objects (a a' : App) (ev : event) (e : Env) :
  handle_input a ev e = Done (Running a') -> wf (game a) ->
  wf (game a') /\
  (no_confirm ev -> sticky (snake (game a)) (snake (game a'))).
Proof.
  unfold handle_input. intros H Hwf.
  destruct (state (game a));
    try (inversion H; subst; split; [exact Hwf | intros; apply sticky_same; reflexivity]).
  - destruct (_handle_title_input_objects _ _ _ _ H Hwf) as (H1 & H2).
    split; [exact H1|]. intros Hn. rewrite (H2 Hn). apply sticky_same; reflexivity.
  - inversion H; subst.
    destruct (_handle_game_input_objects a ev e) as (Hp & Hh & Hv & Hc).
    split.
    + eapply wf_same_objects; [exact Hp | exact Hh | exact Hwf].
    + intros _. apply sticky_same; assumption.
Qed.

Lemma step_objects (a a' : App) (ev : event) (e : Env) :
  step a ev e = Done (Running a') -> wf (game a) ->
  wf (game a') /\
  (no_confirm ev -> sticky (snake (game a)) (snake (game a'))).
Proof.
  unfold step. intros H Hwf.
  destruct ev; try (eapply handle_input_objects; [exact H | exact Hwf]).
  - apply handle_input_objects in H; [|exact Hwf]. exact H.
  - bind_inv H. rename a0 into a1.
    assert (H1 : wf (game a1) /\ sticky (snake (game a)) (snake (game a1))).
    { destruct (state (game a));
        try (inversion E; subst; split;
             [exact Hwf | apply sticky_same; reflexivity]).
      bind_inv E. destruct a0 as [g d]. inversion E; subst. simpl.
      split; [eapply _update_game_wf | eapply _update_game_sticky]; eauto. }
    destruct (running a1); inversion H; subst. tauto.
Qed.

Lemma run_wf (evs : list (event * Env)) (a a' : App) :
  run evs a = Done (Running a') -> wf (game a) -> wf (game a').
Proof.
  revert a; induction evs as [|[ev e] rest IH]; simpl; intros a H Hwf.
  - inversion H; subst; exact Hwf.
  - bind_inv H. destruct a0 as [a1|d]; [|discriminate].
    eapply IH; [exact H|]. eapply step_objects; eauto.
Qed.

Lemma run_sticky (evs : list (event * Env)) (a a' : App) :
  run evs a = Done (Running a') -> wf (game a) ->
  Forall no_confirm (map fst evs) ->
  sticky (snake (game a)) (snake (game a')).
Proof.
  revert a; induction evs as [|[ev e] rest IH]; simpl; intros a H Hwf Hn.
  - inversion H; subst. apply sticky_same; reflexivity.
  - bind_inv H. destruct a0 as [a1|d]; [|discriminate].
    inversion Hn; subst.
    destruct (step_objects _ _ _ _ E Hwf) as (Hw1 & Hs1).
    eapply sticky_trans; [apply Hs1; assumption|]. apply IH; assumption.
Qed.

Lemma fresh_app_wf (G : Globals) (st : Settings) (d : Disk) (e0 : Env)
      (a0 : App) :
  fresh_app G st d e0 = Done a0 -> wf (game a0).
Proof.
  unfold fresh_app, fresh_game, _start_new_game. intros H.
  destruct (draws e0); simpl in H; [discriminate|].
  inversion H; subst; unfold wf; simpl. repeat split; constructor.
Qed.

Definition no_confirmb (ev : event) : bool :=
  match ev with
  | KEYDOWN K_RETURN | KEYDOWN K_SPACE | JOYBUTTONDOWN _ => false
  | _ => true
  end.

Lemma no_confirmb_Forall (l : list event) :
  forallb no_confirmb l = true -> Forall no_confirm l.
Proof.
  induction l as [|ev l IH]; simpl; intros H; constructor.
  - apply andb_true_iff in H. destruct H as (H & _).
    destruct ev as [[]| | | |]; simpl in *; auto; discriminate.
  - apply andb_true_iff in H. apply IH, H.
Qed.

Definition is_frame (x : event * Env) : bool :=
  match fst x with FRAME => true | _ => false end.

(** A run from a fresh game: the snake circles for 900 frames, a Speed
    power-up spawns at (14, 17) in frame 900, and the snake steps onto it in
    frame 906. *)
Definition speed_run_before : list (event * Env) :=
  circling [K_DOWN; K_LEFT; K_UP; K_RIGHT] 0 6 150 [(14, 17)] SPEED true
  ++ frames_from 900 6 [(14, 17)] SPEED true.

(** The 600 frames that follow the collection (the snake keeps circling). *)
Definition speed_run_after : list (event * Env) :=
  circling [K_UP; K_RIGHT; K_DOWN; K_LEFT] 906 4 150 [(14, 17)] SPEED true.

(** C1 (the code departs from the claim). In every game reached from a
    fresh start, the expiry pass [_update_power_ups] changes nothing and no
    power-up timer has ever advanced: a collected power-up is dropped from
    [power_ups] in the very loop iteration that marks it active, and the
    expiry pass only looks at [power_ups].  Hence, over any further events
    that do not start a new game, a speed multiplier of 1.5 stays 1.5 and a
    score multiplier of 2 stays 2, however many frames pass: the effect is
    never reverted, where the claim has it reverted after [duration]
    ticks. *)
Theorem C1_timed_effects_never_expire :
  forall (G : Globals) (st : Settings) (d : Disk) (e0 : Env)
         (evs0 evs : list (event * Env)) (a0 a a' : App),
    fresh_app G st d e0 = Done a0 ->
    run evs0 a0 = Done (Running a) ->
    Forall no_confirm (map fst evs) ->
    run evs a = Done (Running a') ->
    (speed_multiplier (snake (game a)) = 3 # 2 ->
     speed_multiplier (snake (game a')) = 3 # 2) /\
    (score_multiplier (snake (game a)) = 2 ->
     score_multiplier (snake (game a')) = 2) /\
    _update_power_ups (game a') = Done (game a') /\
    Forall (fun p => timer p = 0) (heap (game a')).
Proof.
  intros G st d e0 evs0 evs a0 a a' Hfresh Hrun0 Hn Hrun.
  pose proof (run_wf _ _ _ Hrun0 (fresh_app_wf _ _ _ _ _ Hfresh)) as Hwf.
  pose proof (run_wf _ _ _ Hrun Hwf) as Hwf'.
  destruct (run_sticky _ _ _ Hrun Hwf Hn) as (Hv & Hc).
  repeat split; auto.
  - apply _update_power_ups_wf, Hwf'.
  - apply Hwf'.
Qed.

Lemma C1_witness :
  let a := app_after speed_run_before (start_app (13, 17) Normal) in
  let a' := app_after speed_run_after a in
  length (filter is_frame speed_run_after) = 600%nat /\
  speed_multiplier (snake (game a)) = 3 # 2 /\
  speed_multiplier (snake (game a')) = 3 # 2 /\
  power_ups (game a') = [] /\
  heap (game a') = [mkPowerUp (14, 17) SPEED 600 true 0].
Proof.
  intros a a'.
  assert (Hsp : speed_multiplier (snake (game a)) = 3 # 2)
    by (vm_compute; reflexivity).
  split; [vm_compute; reflexivity|].
  split; [exact Hsp|].
  split; [|split; vm_compute; reflexivity].
  refine (proj1 (C1_timed_effects_never_expire
                   quiet_globals (default_settings Normal) (mkDisk None None)
                   (start_env (13, 17)) speed_run_before speed_run_after
                   (start_app (13, 17) Normal) a a' eq_refl _ _ _) Hsp).
  - vm_compute. reflexivity.
  - apply no_confirmb_Forall. vm_compute. reflexivity.
  - vm_compute. reflexivity.
Defined.

(** *** The shield flag is raised only by collecting a Shield *)

(** Kind and position of every object agree in two heaps. *)
Definition same_kinds (h h' : Heap) : Prop :=
  forall r, type (deref h' r) = type (deref h r) /\
            position (deref h' r) = position (deref h r).

Lemma same_kinds_refl (h : Heap) : same_kinds h h.
Proof. intros r; auto. Qed.

Lemma same_kinds_trans (h1 h2 h3 : Heap) :
  same_kinds h1 h2 -> same_kinds h2 h3 -> same_kinds h1 h3.
Proof.
  intros H12 H23 r. destruct (H12 r), (H23 r). split; congruence.
Qed.

Lemma _apply_power_up_kinds (g : Game) (r : ref) :
  same_kinds (heap g) (heap (_apply_power_up g r)).
Proof.
  destruct (_apply_power_up_heap g r) as (_ & [-> | ->]).
  - apply same_kinds_refl.
  - intros r'. apply deref_store_kind; reflexivity.
Qed.

Lemma drop_last2_head (h : Cell) (t : list Cell) :
  Z.of_nat (length (h :: t)) > 3 ->
  exists t', drop_last2 (h :: t) = h :: t'.
Proof.
  intros Hlen. unfold drop_last2. simpl length in *.
  destruct (length t) as [|[|n]] eqn:E; try lia.
  replace (S (S (S n)) - 2)%nat with (S n) by lia. simpl. eauto.
Qed.

Lemma _apply_power_up_head (g : Game) (r : ref) :
  body0 (snake (_apply_power_up g r)) = body0 (snake g).
Proof.
  unfold _apply_power_up. destruct (type (deref (heap g) r)); simpl; auto.
  destruct (_ >? 3) eqn:E; simpl; auto.
  apply Z.gtb_lt in E. unfold body0. simpl.
  destruct (body (snake g)) as [|h t]; [reflexivity|].
  destruct (drop_last2_head h t) as (t' & ->); [lia | reflexivity].
Qed.

Lemma _apply_power_up_shield (g : Game) (r : ref) :
  shield_active (snake (_apply_power_up g r)) = true ->
  shield_active (snake g) = true \/ type (deref (heap g) r) = SHIELD.
Proof.
  unfold _apply_power_up. destruct (type (deref (heap g) r)); simpl; auto.
  destruct (_ >? 3); simpl; auto.
Qed.

Lemma collect_loop_kinds (snapshot : list ref) (g g' : Game) :
  collect_loop snapshot g = Done g' ->
  same_kinds (heap g) (heap g') /\ body0 (snake g') = body0 (snake g).
Proof.
  apply (collect_loop_inv
           (fun x => same_kinds (heap g) (heap x) /\
                     body0 (snake x) = body0 (snake g))).
  - intros g0 r l (Hk & Hb) _. simpl. split.
    + eapply same_kinds_trans; [exact Hk | apply _apply_power_up_kinds].
    + rewrite _apply_power_up_head. exact Hb.
  - split; [apply same_kinds_refl | reflexivity].
Qed.

Lemma collect_loop_shield (snapshot : list ref) (g g' : Game) :
  collect_loop snapshot g = Done g' ->
  shield_active (snake g') = true ->
  shield_active (snake g) = true \/
  exists r, In r snapshot /\ type (deref (heap g') r) = SHIELD /\
            body0 (snake g') = Done (position (deref (heap g') r)).
Proof.
  revert g. induction snapshot as [|r rest IH]; intros g H Hs.
  - simpl in H. inversion H; subst. auto.
  - pose proof (collect_loop_kinds _ _ _ H) as (Hk & Hb).
    simpl in H. bind_inv H. rename a into head.
    destruct (cell_eqb head (position (deref (heap g) r))) eqn:Eh.
    + bind_inv H. rename a into l.
      destruct (IH _ H Hs) as [Hs1 | (r' & Hr' & Hty & Hpos)].
      * simpl in Hs1. apply _apply_power_up_shield in Hs1.
        destruct Hs1 as [Hs1 | Hty]; [auto|]. right. exists r.
        destruct (Hk r) as (Hkt & Hkp).
        split; [left; reflexivity|]. split; [congruence|].
        apply cell_eqb_eq in Eh. congruence.
      * right. exists r'. simpl. auto.
    + destruct (IH _ H Hs) as [Hs1 | (r' & Hr' & Hty & Hpos)]; auto.
      right. exists r'. simpl. auto.
Qed.

Lemma _update_power_ups_frame (g g' : Game) :
  _update_power_ups g = Done g' ->
  (forall r, In r (power_ups g') -> In r (power_ups g)) /\
  length (heap g') = length (heap g) /\
  same_kinds (heap g) (heap g') /\
  shield_active (snake g') = shield_active (snake g) /\
  food g' = food g /\ body (snake g') = body (snake g) /\
  dead (snake g') = dead (snake g).
Proof.
  unfold _update_power_ups.
  apply (_update_power_ups_loop_inv
           (fun x => (forall r, In r (power_ups x) -> In r (power_ups g)) /\
                     length (heap x) = length (heap g) /\
                     same_kinds (heap g) (heap x) /\
                     shield_active (snake x) = shield_active (snake g) /\
                     food x = food g /\ body (snake x) = body (snake g) /\
                     dead (snake x) = dead (snake g))).
  - intros g0 r t (H1 & H2 & H3 & H4). simpl. repeat split; try tauto.
    + rewrite length_store. exact H2.
    + destruct (H3 r0) as (Ha & _).
      destruct (deref_store_kind (heap g0) r r0
                  (set_timer (deref (heap g0) r) t) eq_refl eq_refl) as (Hb & _).
      congruence.
    + destruct (H3 r0) as (_ & Ha).
      destruct (deref_store_kind (heap g0) r r0
                  (set_timer (deref (heap g0) r) t) eq_refl eq_refl) as (_ & Hb).
      congruence.
  - intros g0 m H. exact H.
  - intros g0 m H. exact H.
  - intros g0 r l (H1 & H2) Hrm. simpl. split; [|exact H2].
    intros r0 Hr0. apply H1. eapply list_remove_incl; eauto.
  - repeat split; auto.
Qed.

Lemma spawn_step_objects (g g' : Game) (ds : list Cell) (e : Env) :
  spawn_step g e = Done (g', ds) ->
  (forall r, In r (power_ups g') ->
             In r (power_ups g) \/ r = length (heap g)) /\
  (heap g' = heap g \/ exists p, heap g' = heap g ++ [p]).
Proof.
  unfold spawn_step. intros H.
  destruct (_ >=? _) in H.
  - bind_inv H. destruct a as [g3 ds3]. inversion H; subst. clear H.
    unfold _spawn_power_up in E. bind_inv E. destruct a as [pos rest].
    simpl in E. inversion E; subst. clear E. simpl. split.
    + intros r Hr. apply in_app_or in Hr. simpl in Hr.
      destruct Hr as [Hr | [<- | []]]; auto.
    + right. eauto.
  - inversion H; subst. simpl. auto.
Qed.

(** A frame raises the shield flag only when the head ends on a Shield
    power-up that was live before the frame or spawned in it. *)
Lemma _update_game_shield (G : Globals) (g g' : Game) (d d' : Disk) (e : Env) :
  _update_game G g d e = Done (g', d') ->
  shield_active (snake g') = true ->
  shield_active (snake g) = true \/
  exists r, (In r (power_ups g) \/ r = length (heap g)) /\
            type (deref (heap g') r) = SHIELD /\
            body0 (snake g') = Done (position (deref (heap g') r)).
Proof.
  intros H Hs.
  destruct (_update_game_stages _ _ _ _ _ _ H)
    as (g1 & g2 & ds & s & alive & buf & Hup & Hsp & Hmv & Hrest).
  apply _update_power_ups_frame in Hup.
  destruct Hup as (Hin1 & Hlen1 & _ & Hsh1 & _).
  pose proof (spawn_step_objects _ _ _ _ Hsp) as (Hin2 & _).
  apply spawn_step_snake in Hsp. destruct Hsp as (Hs2 & _).
  assert (Hmono : shield_active s = true -> shield_active (snake g) = true).
  { intros Hx. apply (move_shield _ _ _ _ _ _ _ Hmv) in Hx. congruence. }
  destruct Hrest as [[_ Hgo]|[_ (g4 & Hcol & Heat)]].
  - apply game_over_step_board in Hgo. destruct Hgo as (Hsn & _).
    rewrite Hsn in Hs. simpl in Hs. auto.
  - apply eat_step_body in Heat.
    destruct Heat as (Hb & _ & Hh & _ & _ & _ & Hsh & _).
    rewrite Hsh in Hs.
    destruct (collect_loop_shield _ _ _ Hcol Hs)
      as [Hs3 | (r & Hr & Hty & Hpos)].
    + simpl in Hs3. auto.
    + right. exists r. simpl in Hr. rewrite Hh. split; [|split; [exact Hty|]].
      * destruct (Hin2 r Hr) as [Hx | ->]; [left; auto | right; congruence].
      * unfold body0 in *. rewrite Hb. exact Hpos.
Qed.

Lemma change_direction_shield (s : Snake) (d : Direction) :
  shield_active (change_direction s d) = shield_active s.
Proof. unfold change_direction. destruct (not_reverse _ _); reflexivity. Qed.

(** C6 (amended). When [move] is due on a live snake and the new head lies
    on a border cell:
    - with the shield on, the shield flag is cleared and every out-of-range
      coordinate is wrapped, independently per axis, to the opposite
      interior edge (below 1 to [GRID_COUNT-2], from [GRID_COUNT-1] up to 1);
      the wrapped cell then goes through the self-collision test like any
      other new head: the snake stays alive and advances onto it when it is
      not a body cell, and dies (the shield spent all the same) when it is;
    - with the shield off the snake dies where it stands.
    The shield flag is never raised by [move] or by a direction input, and
    a frame raises it only when the head ends on a Shield power-up that was
    live before the frame or spawned in it. *)
Theorem C6_shield_consumed_on_wall_hit :
  (forall (G : Globals) (s : Snake) (t : Q) (buf : list ndarray)
          (head : Cell) (tl : list Cell),
      dead s = false ->
      Qltb (t - last_move_time s) (effective_interval s) = false ->
      body s = head :: tl ->
      on_border (new_head_of s head) = true ->
      let nh := new_head_of s head in
      let w := _wrap_position nh in
      (shield_active s = true ->
         on_border w = false /\
         fst w = (if fst nh <? 1 then GRID_COUNT - 2
                  else if fst nh >=? GRID_COUNT - 1 then 1 else fst nh) /\
         snd w = (if snd nh <? 1 then GRID_COUNT - 2
                  else if snd nh >=? GRID_COUNT - 1 then 1 else snd nh) /\
         exists s' buf',
           move G s t buf = Done (s', negb (cell_in w (body s)), buf') /\
           shield_active s' = false /\
           dead s' = cell_in w (body s) /\
           (cell_in w (body s) = false -> exists rest, body s' = w :: rest) /\
           (cell_in w (body s) = true -> body s' = body s)) /\
      (shield_active s = false ->
         exists s' buf',
           move G s t buf = Done (s', false, buf') /\
           dead s' = true /\ body s' = body s)) /\
  (forall (G : Globals) (s s' : Snake) (t : Q) (buf buf' : list ndarray)
          (alive : bool),
      move G s t buf = Done (s', alive, buf') ->
      shield_active s' = true -> shield_active s = true) /\
  (forall (s : Snake) (d : Direction),
      shield_active (change_direction s d) = shield_active s) /\
  (forall (G : Globals) (g g' : Game) (d d' : Disk) (e : Env),
      _update_game G g d e = Done (g', d') ->
      shield_active (snake g') = true ->
      shield_active (snake g) = true \/
      exists r, (In r (power_ups g) \/ r = length (heap g)) /\
                type (deref (heap g') r) = SHIELD /\
                body0 (snake g') = Done (position (deref (heap g') r))).
Proof.
  split; [|split; [exact move_shield|split;
                   [exact change_direction_shield|exact _update_game_shield]]].
  intros G s t buf head tl Hd Ht Hb Hbord nh w.
  subst w nh.
  rewrite (move_due G s t buf head tl Hd Ht Hb). cbv zeta.
  rewrite Hbord, apply_buffered_shield.
  set (nh := new_head_of s head). set (w := _wrap_position nh). split.
  - intros Hs. rewrite Hs.
    split; [apply wrap_position_interior|].
    destruct (wrap_position_axes nh) as (Hx & Hy).
    split; [exact Hx|]. split; [exact Hy|].
    simpl body. simpl grow. rewrite apply_buffered_body, apply_buffered_grow.
    destruct (cell_in w (body s)) eqn:Ein.
    + eexists _, _. split; [reflexivity|]. simpl.
      rewrite apply_buffered_body.
      repeat split; auto; discriminate.
    + destruct (negb (grow s)); eexists _, _; (split; [reflexivity|]); simpl;
        rewrite apply_buffered_dead, Hd;
        repeat split; auto; try discriminate; intros _; eauto.
      rewrite Hb. unfold pop. simpl. eauto.
  - intros Hs. rewrite Hs. eexists _, _. split; [reflexivity|]. simpl.
    rewrite apply_buffered_body. auto.
Qed.

(** A one-cell snake at the right edge of row 5, heading right. *)
Definition edge_snake (shield : bool) : Snake :=
  mkSnake [(30, 5)] (1, 0) false false 0 None false shield 1 1.

Lemma C6_witness :
  exists s' buf',
    move quiet_globals (edge_snake true) 1 [] = Done (s', true, buf') /\
    shield_active s' = false /\ dead s' = false /\
    exists rest, body s' = (1, 5) :: rest.
Proof.
  destruct (proj1 C6_shield_consumed_on_wall_hit quiet_globals
                  (edge_snake true) 1%Q [] (30, 5) [] eq_refl eq_refl eq_refl
                  eq_refl) as (Hon & _).
  destruct (Hon eq_refl) as (_ & _ & _ & s' & buf' & Hm & Hs & Hd & Hb & _).
  exists s', buf'. split; [exact Hm|]. split; [exact Hs|].
  split; [exact Hd|]. exact (Hb eq_refl).
Defined.

(** ** C9: where the food goes *)

(** The alive flag [move] returns is the negation of the dead flag. *)
Lemma move_alive (G : Globals) (s s' : Snake) (t : Q)
      (buf buf' : list ndarray) (alive : bool) :
  move G s t buf = Done (s', alive, buf') -> alive = negb (dead s').
Proof.
  unfold move. intros H.
  destruct (dead s) eqn:Hd; [inversion H; subst; rewrite Hd; auto|].
  destruct (Qltb _ _); [inversion H; subst; rewrite Hd; auto|].
  unfold body0 in H. rewrite apply_buffered_body in H.
  destruct (body s) as [|head tl] eqn:Hb; [discriminate|].
  simpl in H.
  repeat match type of H with
         | context [if ?c then _ else _] => destruct c eqn:?
         end; inversion H; subst; simpl;
    rewrite ?apply_buffered_dead, ?Hd; reflexivity.
Qed.

Lemma collect_loop_board (snapshot : list ref) (g g' : Game) :
  collect_loop snapshot g = Done g' ->
  food g' = food g /\ dead (snake g') = dead (snake g) /\ state g' = state g.
Proof.
  apply (collect_loop_inv
           (fun x => food x = food g /\ dead (snake x) = dead (snake g) /\
                     state x = state g)); [|auto].
  intros g0 r l H _. simpl. unfold _apply_power_up.
  destruct (type (deref (heap g0) r)); simpl; auto.
  destruct (_ >? 3); simpl; auto.
Qed.

Lemma randint_pair_interior (c : Cell) : randint_pair c -> on_border c = false.
Proof.
  unfold randint_pair, on_border, GRID_COUNT, WINDOW_SIZE, GRID_SIZE.
  change (256 / 8) with 32. intros ((H1 & H2) & (H3 & H4)).
  repeat match goal with
         | |- context [?a >=? ?b] => destruct (Z.geb_spec a b)
         | |- context [?a <? ?b] => destruct (Z.ltb_spec a b)
         end; simpl; try reflexivity; lia.
Qed.

(** The food block relocates the food, when the head is on it, to the first
    drawn cell that is off the body. *)
Lemma eat_step_food (G : Globals) (g g' : Game) (d d' : Disk)
      (ds : list Cell) :
  eat_step G g d ds = Done (g', d') ->
  body0 (snake g') = Done (food g) ->
  exists rest,
    sample_free (fun c => cell_in c (body (snake g))) ds
    = Done (food g', rest).
Proof.
  intros H Hhead. pose proof (eat_step_body _ _ _ _ _ _ H) as (Hb & _).
  unfold eat_step in H. bind_inv H.
  assert (Ha : a = food g).
  { unfold body0 in *. rewrite Hb in Hhead.
    destruct (body (snake g)); congruence. }
  subst a. rewrite cell_eqb_refl in H. simpl in H.
  bind_inv H. destruct a as [nf rest]. inversion H; subst. simpl.
  simpl in E0. eauto.
Qed.

Lemma sample_free_total (occupied : Cell -> bool) (ds : list Cell) (c : Cell) :
  In c ds -> occupied c = false ->
  exists c' rest, sample_free occupied ds = Done (c', rest).
Proof.
  induction ds as [|x ds IH]; simpl; intros Hin Hfree; [contradiction|].
  destruct (occupied x) eqn:E; [|eauto].
  destruct Hin as [->|Hin]; [congruence | auto].
Qed.

(** C9. In a frame that the snake survives and in which its head reaches
    the food, the food moves to a cell that is one of the frame's random
    draws, hence an interior (non-wall) cell, and that is not a cell of the
    snake's body, whatever the draws are.  The relocation returns as soon
    as the draws contain one cell off the body. *)
Theorem C9_relocated_food_is_free_and_interior :
  (forall (G : Globals) (g g' : Game) (d d' : Disk) (e : Env),
      Forall randint_pair (draws e) ->
      _update_game G g d e = Done (g', d') ->
      dead (snake g') = false ->
      body0 (snake g') = Done (food g) ->
      In (food g') (draws e) /\
      randint_pair (food g') /\
      on_border (food g') = false /\
      ~ In (food g') (body (snake g'))) /\
  (forall (G : Globals) (g : Game) (d : Disk) (ds : list Cell) (c : Cell),
      body (snake g) <> [] ->
      In c ds -> ~ In c (body (snake g)) ->
      exists g', eat_step G g d ds = Done (g', d)).
Proof.
  split.
  - intros G g g' d d' e Hds H Halive Hhead.
    destruct (_update_game_stages _ _ _ _ _ _ H)
      as (g1 & g2 & ds & s & alive & buf & Hup & Hsp & Hmv & Hrest).
    apply _update_power_ups_frame in Hup.
    destruct Hup as (_ & _ & _ & _ & Hf1 & _).
    apply spawn_step_snake in Hsp. destruct Hsp as (_ & Hf2 & _ & Hsub).
    apply move_alive in Hmv.
    destruct Hrest as [[Ha Hgo]|[_ (g4 & Hcol & Heat)]].
    + apply game_over_step_board in Hgo. destruct Hgo as (Hsn & _).
      rewrite Hsn in Halive. simpl in Halive.
      rewrite Ha, Halive in Hmv. discriminate.
    + apply collect_loop_board in Hcol. destruct Hcol as (Hf4 & _).
      simpl in Hf4.
      assert (Hfood : food g4 = food g) by congruence.
      rewrite <- Hfood in Hhead.
      destruct (eat_step_food _ _ _ _ _ _ Heat Hhead) as (rest & Hs).
      apply eat_step_body in Heat. destruct Heat as (Hb & _).
      apply sample_free_spec in Hs. destruct Hs as (Hin & Hfree & _).
      assert (Hdraw : In (food g') (draws e)) by auto.
      rewrite Forall_forall in Hds.
      repeat split; try (apply Hds; exact Hdraw); auto.
      * apply randint_pair_interior, Hds, Hdraw.
      * rewrite Hb. apply cell_in_false. exact Hfree.
  - intros G g d ds c Hne Hin Hfree. unfold eat_step, body0.
    destruct (body (snake g)) as [|h t] eqn:Hb; [congruence|]. simpl.
    destruct (cell_eqb h (food g)); [|eauto]. simpl. rewrite Hb.
    destruct (sample_free_total (fun c0 => cell_in c0 (h :: t)) ds c Hin)
      as (c' & rest & ->).
    + apply cell_in_false. exact Hfree.
    + simpl. eauto.
Qed.

(** The frame in which a fresh snake steps onto food placed right in front
    of it; the first draw is the head's own cell and is rejected. *)
Definition eat_env : Env := mkEnv (102 # 1000) [(17, 16); (5, 5)] SPEED true.

Lemma C9_witness :
  let a := start_app (17, 16) Normal in
  let a' := app_after [(FRAME, eat_env)] a in
  food (game a') = (5, 5) /\
  on_border (food (game a')) = false /\
  ~ In (food (game a')) (body (snake (game a'))).
Proof.
  intros a a'.
  assert (Hdraws : Forall randint_pair (draws eat_env)).
  { repeat constructor; vm_compute; discriminate. }
  assert (Hrun : _update_game (globals a) (game a) (disk a) eat_env
                 = Done (game a', disk a')) by (vm_compute; reflexivity).
  assert (Halive : dead (snake (game a')) = false) by (vm_compute; reflexivity).
  assert (Hhead : body0 (snake (game a')) = Done (food (game a)))
    by (vm_compute; reflexivity).
  destruct (proj1 C9_relocated_food_is_free_and_interior
                  (globals a) (game a) (game a') (disk a) (disk a') eat_env
                  Hdraws Hrun Halive Hhead) as (_ & _ & H3 & H4).
  split; [vm_compute; reflexivity|]. split; assumption.
Defined.

(** ** C10: food and power-ups on one cell *)

Definition randint_pairb (c : Cell) : bool :=
  (1 <=? fst c) && (fst c <=? GRID_COUNT - 2) &&
  (1 <=? snd c) && (snd c <=? GRID_COUNT - 2).

Lemma randint_pairb_ok (c : Cell) : randint_pairb c = true -> randint_pair c.
Proof.
  unfold randint_pairb, randint_pair. rewrite !andb_true_iff, !Z.leb_le. tauto.
Qed.

(** Every draw of every event of a run is a possible result of
    [random.randint(1, GRID_COUNT-2)]. *)
Definition valid_draws (evs : list (event * Env)) : Prop :=
  Forall (fun x => Forall randint_pair (draws (snd x))) evs.

Definition valid_drawsb (evs : list (event * Env)) : bool :=
  forallb (fun x => forallb randint_pairb (draws (snd x))) evs.

Lemma valid_drawsb_ok (evs : list (event * Env)) :
  valid_drawsb evs = true -> valid_draws evs.
Proof.
  unfold valid_drawsb, valid_draws. rewrite forallb_forall, Forall_forall.
  intros H x Hx. specialize (H x Hx).
  rewrite forallb_forall in H. rewrite Forall_forall.
  intros c Hc. apply randint_pairb_ok, H, Hc.
Qed.

(** A run from a fresh game with the food at (13, 17): the snake circles
    for 900 frames, a Shield power-up spawns at (10, 10) in frame 900, and
    the snake then heads left for 11 more frames. *)
Definition shield_run : list (event * Env) :=
  circling [K_DOWN; K_LEFT; K_UP; K_RIGHT] 0 6 150 [(10, 10)] SHIELD true
  ++ frames_from 900 11 [(10, 10)] SHIELD true.

(** C10. Food relocation tests the drawn cell against the snake's body
    only.  There is a run from a fresh game, with every random draw in
    range, that ends in a frame in which the snake's head reaches the food
    and the food is relocated onto the cell of a power-up that is still in
    [power_ups] (spawned, not collected): afterwards food and power-up
    share a cell. *)
Theorem C10_food_can_land_on_a_live_power_up :
  exists (G : Globals) (st : Settings) (d : Disk) (e0 : Env) (a0 : App)
         (evs : list (event * Env)) (a : App) (e : Env) (a' : App) (r : ref),
    fresh_app G st d e0 = Done a0 /\
    valid_draws ((FRAME, e0) :: evs ++ [(FRAME, e)]) /\
    run evs a0 = Done (Running a) /\
    step a FRAME e = Done (Running a') /\
    state (game a') = PLAYING /\
    body0 (snake (game a')) = Done (food (game a)) /\
    food (game a') <> food (game a) /\
    In r (power_ups (game a)) /\
    In r (power_ups (game a')) /\
    position (deref (heap (game a')) r) = food (game a').
Proof.
  exists quiet_globals, (default_settings Normal), (mkDisk None None),
    (start_env (13, 17)), (start_app (13, 17) Normal), shield_run,
    (app_after shield_run (start_app (13, 17) Normal)),
    (env_at 912 [(10, 10)] SHIELD true),
    (app_after (shield_run ++ [(FRAME, env_at 912 [(10, 10)] SHIELD true)])
               (start_app (13, 17) Normal)),
    0%nat.
  split; [reflexivity|].
  split; [apply valid_drawsb_ok; vm_compute; reflexivity|].
  split; [vm_compute; reflexivity|].
  split; [vm_compute; reflexivity|].
  split; [vm_compute; reflexivity|].
  split; [vm_compute; reflexivity|].
  split; [vm_compute; discriminate|].
  split; [vm_compute; auto|].
  split; [vm_compute; auto|].
  vm_compute; reflexivity.
Qed.

(** Split conjunctions only, then evaluate each conjunct. *)
Ltac conjuncts :=
  repeat match goal with
         | |- _ /\ _ => split
         | |- let _ := _ in _ => intro
         end.

(** ** C3: difficulty and the movement interval *)

(** The interval [move] waits for does not mention the difficulty. *)
Lemma effective_interval_fixed (s : Snake) :
  effective_interval s = (MOVE_INTERVAL / speed_multiplier s)%Q.
Proof. reflexivity. Qed.

(** C3 (the code departs from the claim). [move] gates on
    [MOVE_INTERVAL / speed_multiplier] whatever the selected difficulty is;
    [DIFFICULTY_SPEEDS] is never read.  On Easy (0.15 s) a frame 0.12 s
    after the last move advances the snake, although 0.12 is below the
    interval of that difficulty; on Hard (0.07 s) a frame 0.08 s after the
    last move leaves the snake where it is, although the interval of that
    difficulty has elapsed. *)
Theorem C3_move_ignores_the_difficulty :
  (forall d : Difficulty,
      let a := start_app (20, 20) d in
      let a' := app_after [(FRAME, mkEnv (12 # 100) [] SPEED true)] a in
      body (snake (game a)) = [(16, 16)] /\
      body (snake (game a')) = [(17, 16)] /\
      last_move_time (snake (game a')) = 12 # 100) /\
  Qltb ((12 # 100) - last_move_time (snake (game (start_app (20, 20) Easy))))
       (DIFFICULTY_SPEEDS Easy
        / speed_multiplier (snake (game (start_app (20, 20) Easy)))) = true /\
  (let a := start_app (20, 20) Hard in
   let a' := app_after [(FRAME, mkEnv (8 # 100) [] SPEED true)] a in
   game a' = set_power_up_spawn_timer (game a) 1 /\
   Qltb ((8 # 100) - last_move_time (snake (game a)))
        (DIFFICULTY_SPEEDS Hard / speed_multiplier (snake (game a))) = false).
Proof.
  split; [|split; [vm_compute; reflexivity|split; vm_compute; reflexivity]].
  intros [] a a'; conjuncts; vm_compute; reflexivity.
Qed.

(** ** C4: a failed high-score write *)

(** Without a writable disk, a score above the stored best makes
    [save_high_score] raise. *)
Lemma save_high_score_raises (st : Settings) (score : Z) (d : Disk) :
  save_high_score st score d false =
  if score >? hs_get (high_scores st) (difficulty st)
  then Raised OSError else Done (st, false, d).
Proof. unfold save_high_score. destruct (_ >? _); reflexivity. Qed.

(** From a fresh game with the food two cells ahead: the snake eats it in
    frame 12 (score 1) and runs into the right wall in frame 90. *)
Definition wall_run (disk_ok : bool) : list (event * Env) :=
  frames_from 0 90 [(5, 5)] SPEED disk_ok.

(** C4 (the code departs from the claim). [save_high_score] has no [try]
    around the file write, and neither have its callers [_update_game] and
    [run]: when the write fails in the frame in which the snake dies with a
    new best score, the exception leaves [_update_game] and [run] and
    reaches the top-level handler, which ends the process with status 1.
    With a writable disk the same run ends in the game-over state with the
    new best score on disk. *)
Theorem C4_failed_high_score_write_ends_the_process :
  let a0 := start_app (18, 16) Normal in
  let a := app_after (frames_from 0 89 [(5, 5)] SPEED false) a0 in
  run (frames_from 0 89 [(5, 5)] SPEED false) a0 = Done (Running a) /\
  state (game a) = PLAYING /\ score (game a) = 1 /\
  _update_game (globals a) (game a) (disk a)
               (env_at 90 [(5, 5)] SPEED false) = Raised OSError /\
  run (wall_run false) a0 = Raised OSError /\
  main (wall_run false) a0 = Exit 1 /\
  (let b := app_after (wall_run true) a0 in
   main (wall_run true) a0 = StillRunning b /\
   state (game b) = GAME_OVER /\
   high_score_file (disk b) = Some (mkHighScores 0 1 0 0)).
Proof.
  intros a0 a. conjuncts; vm_compute; reflexivity.
Qed.

(** ** C7: the audio capture path *)

(** The export path is sound: a buffer of frame arrays is written out as
    their concatenation, in order. *)
Lemma save_recording_frames (f1 f2 : list (Z * Z)) (d : Disk) :
  save_recording [Frames f1; Frames f2] d true
  = mkDisk (high_score_file d) (Some (astype_int16 (f1 ++ f2))).
Proof.
  unfold save_recording, np_concatenate. simpl. rewrite app_nil_r. reflexivity.
Qed.

(** What [play_sound] appends is the view of the Channel, not the samples
    of the Sound: nothing, or a 0-d object array. *)
Lemma play_sound_captures_no_frames (G : Globals) (snd : Sound)
      (buf : list ndarray) :
  play_sound G (Some snd) buf = buf \/
  play_sound G (Some snd) buf = buf ++ [ObjScalar].
Proof.
  unfold play_sound, Sound_play, sndarray_samples.
  destruct (AUDIO_ENABLED G), (RECORDING_ENABLED G), (numpy_view G); auto.
Qed.

(** The program in a game, capture off, nothing captured, nothing on disk. *)
Definition capture_app (lib : foreign_view) (s_move s_eat : Sound) : App :=
  mkApp (mkGlobals true false (Some s_eat) (Some s_move)
                   (Some (mkSound [])) (Some (mkSound [])) lib)
        (game (start_app (17, 16) Normal)) (mkDisk None None) true.

(** Toggle capture on, play two sounds, toggle capture off. *)
Definition capture_scenario (lib : foreign_view) (s1 s2 : Sound) : App :=
  let e := mkEnv 0 [] SPEED true in
  let a1 := _handle_game_input (capture_app lib s1 s2) (KEYDOWN K_r) e in
  let buf := play_sound (globals a1) (Some s1) (recording_buffer (game a1)) in
  let buf := play_sound (globals a1) (Some s2) buf in
  let a2 := with_game a1 (set_recording_buffer (game a1) buf) in
  _handle_game_input a2 (KEYDOWN K_r) e.

(** The same in a run: capture on, six frames in the last of which the snake
    moves (move sound) onto the food (eat sound), capture off. *)
Definition capture_run : list (event * Env) :=
  (KEYDOWN K_r, env_at 0 [(5, 5)] SPEED true)
    :: frames_from 0 6 [(5, 5)] SPEED true
    ++ [(KEYDOWN K_r, env_at 6 [(5, 5)] SPEED true)].

(** C7 (the code departs from the claim). With capture on, [play_sound]
    hands the Channel returned by [sound.play()] to
    [pygame.sndarray.samples], which views the sample memory of a Sound; a
    Channel has none.  Whether the library raises (caught and logged by
    [play_sound]) or wraps the object in a 0-d array (on which
    [np.concatenate] raises inside [save_recording], caught and logged),
    toggling capture off after two sounds writes no file: the exported
    sample count is not the sum of the two sounds' sample counts. *)
Theorem C7_capture_exports_nothing :
  forall (lib : foreign_view) (s1 s2 : Sound),
    RECORDING_ENABLED (globals (capture_scenario lib s1 s2)) = false /\
    wav_file (disk (capture_scenario lib s1 s2)) = None /\
    recording_buffer (game (capture_scenario lib s1 s2)) = [] /\
    (let a := app_after capture_run (capture_app lib s1 s2) in
     run capture_run (capture_app lib s1 s2) = Done (Running a) /\
     score (game a) = 1 /\
     wav_file (disk a) = None /\
     recording_buffer (game a) = []).
Proof.
  intros [] s1 s2; cbv zeta; conjuncts; vm_compute; reflexivity.
Qed.

(** * Further properties of the game core *)

(** ** What one call of [move] can do *)

(** Nothing: the snake is dead, or the movement interval has not elapsed. *)
Definition idle (s s' : Snake) (t : Q) (alive : bool) : Prop :=
  s' = s /\
  ((dead s = true /\ alive = false) \/
   (dead s = false /\ alive = true /\
    Qltb (t - last_move_time s) (effective_interval s) = true)).

(** The snake dies where it stands. *)
Definition died (s s' : Snake) (t : Q) (alive : bool) : Prop :=
  alive = false /\ dead s = false /\ dead s' = true /\
  Qltb (t - last_move_time s) (effective_interval s) = false /\
  body s' = body s /\ grow s' = grow s /\
  last_move_time s' = last_move_time s /\
  next_direction s' = None /\
  direction s' = direction (apply_buffered s) /\
  speed_multiplier s' = speed_multiplier s /\
  score_multiplier s' = score_multiplier s.

(** The snake advances onto an interior cell [c] that is not a body cell:
    the cell ahead, or its wrap when the shield is spent on a wall. *)
Definition stepped (s s' : Snake) (t : Q) (alive : bool) : Prop :=
  alive = true /\ dead s = false /\ dead s' = false /\
  Qltb (t - last_move_time s) (effective_interval s) = false /\
  exists head tl c,
    body s = head :: tl /\
    on_border c = false /\ ~ In c (body s) /\
    ((on_border (new_head_of s head) = false /\ c = new_head_of s head /\
      shield_active s' = shield_active s) \/
     (on_border (new_head_of s head) = true /\ shield_active s = true /\
      shield_active s' = false /\ c = _wrap_position (new_head_of s head))) /\
    body s' = (if grow s then c :: body s else c :: pop (body s)) /\
    grow s' = false /\
    last_move_time s' = t /\
    next_direction s' = None /\
    direction s' = direction (apply_buffered s) /\
    speed_multiplier s' = speed_multiplier s /\
    score_multiplier s' = score_multiplier s.

Lemma pop_cons (c h : Cell) (t : list Cell) :
  pop (c :: h :: t) = c :: pop (h :: t).
Proof. reflexivity. Qed.

Lemma move_outcome (G : Globals) (s s' : Snake) (t : Q)
      (buf buf' : list ndarray) (alive : bool) :
  move G s t buf = Done (s', alive, buf') ->
  idle s s' t alive \/ died s s' t alive \/ stepped s s' t alive.
Proof.
  intros H.
  destruct (dead s) eqn:Hd.
  { unfold move in H. rewrite Hd in H. inversion H; subst.
    left. split; auto. }
  destruct (Qltb (t - last_move_time s) (effective_interval s)) eqn:Ht.
  { unfold move in H. rewrite Hd, Ht in H. inversion H; subst.
    left. split; auto. }
  right.
  destruct (body s) as [|head tl] eqn:Hb.
  { unfold move in H. rewrite Hd, Ht in H. unfold body0 in H.
    rewrite apply_buffered_body, Hb in H. discriminate. }
  rewrite (move_due G s t buf head tl Hd Ht Hb) in H. cbv zeta in H.
  destruct (apply_buffered_multipliers s) as (Hv & Hc).
  pose proof (apply_buffered_body s) as Hbb.
  pose proof (apply_buffered_grow s) as Hg.
  pose proof (apply_buffered_dead s) as Hdd.
  pose proof (apply_buffered_shield s) as Hsh.
  assert (Hl : last_move_time (apply_buffered s) = last_move_time s).
  { unfold apply_buffered. destruct (next_direction s); auto.
    destruct (not_reverse (direction s) d); reflexivity. }
  assert (Hnone : next_direction (apply_buffered s) = None).
  { unfold apply_buffered. destruct (next_direction s) eqn:E; auto. }
  destruct (on_border (new_head_of s head)) eqn:Hbord.
  - destruct (shield_active (apply_buffered s)) eqn:Hs.
    + simpl body in H. rewrite Hbb in H.
      destruct (cell_in (_wrap_position (new_head_of s head)) (body s)) eqn:Ein.
      * left. inversion H; subst. unfold died. simpl.
        rewrite Hbb, Hg, Hv, Hc, Hl. repeat split; auto.
      * right. simpl grow in H. rewrite Hg in H.
        unfold stepped. apply cell_in_false in Ein.
        destruct (grow s) eqn:Egrow; simpl in H; inversion H; subst; simpl;
          rewrite ?Hdd, ?Hd, ?Hv, ?Hc;
          (repeat split; auto);
          exists head, tl, (_wrap_position (new_head_of s head));
          (split; [exact Hb|]);
          (split; [apply wrap_position_interior|]);
          (split; [exact Ein|]);
          (split; [right; repeat split; auto; congruence|]);
          rewrite ?Hb; repeat split; auto.
    + left. inversion H; subst. unfold died. simpl.
      rewrite Hbb, Hg, Hv, Hc, Hl. repeat split; auto.
  - simpl body in H. rewrite Hbb in H.
    destruct (cell_in (new_head_of s head) (body s)) eqn:Ein.
    + left. inversion H; subst. unfold died. simpl.
      rewrite Hbb, Hg, Hv, Hc, Hl. repeat split; auto.
    + right. simpl grow in H. rewrite Hg in H.
      unfold stepped. apply cell_in_false in Ein.
      destruct (grow s) eqn:Egrow; simpl in H; inversion H; subst; simpl;
        rewrite ?Hdd, ?Hd, ?Hv, ?Hc;
        (repeat split; auto);
        exists head, tl, (new_head_of s head);
        (split; [exact Hb|]);
        (split; [exact Hbord|]);
        (split; [exact Ein|]);
        (split; [left; repeat split; auto|]);
        rewrite ?Hb; repeat split; auto.
Qed.

(** ** A scheme for invariants of the game object *)

Definition unit_dir (d : Direction) : Prop :=
  d = (1, 0) \/ d = (-1, 0) \/ d = (0, 1) \/ d = (0, -1).

(** The game object after a gameplay input: unchanged, a turn by a unit
    direction, back to the title, or the capture buffer emptied. *)
Lemma _handle_game_input_game (a : App) (ev : event) (e : Env) :
  let g := game a in
  let g' := game (_handle_game_input a ev e) in
  g' = g \/
  (exists d, unit_dir d /\ g' = set_snake g (change_direction (snake g) d)) \/
  g' = set_state g TITLE \/
  g' = set_recording_buffer g [].
Proof.
  unfold _handle_game_input, turn, unit_dir.
  destruct ev as [k| |ax v| |]; simpl; auto.
  - destruct k; simpl; auto;
      repeat match goal with
             | |- context [if ?c then _ else _] => destruct c
             | |- context [match recording_buffer ?g with _ => _ end] =>
                 destruct (recording_buffer g)
             end; simpl; eauto 8.
  - repeat match goal with
           | |- context [if ?c then _ else _] => destruct c
           end; simpl; eauto 8.
Qed.

(** The game object after a title input that keeps the program running. *)
Lemma _handle_title_input_game (a a' : App) (ev : event) (e : Env) :
  _handle_title_input a ev e = Done (Running a') ->
  let g := game a in
  let g' := game a' in
  g' = g \/
  (exists v buf, 0 <= v < 4 /\
                 g' = set_recording_buffer (set_selected g v) buf) \/
  (exists g1 buf, _start_new_game (globals a) g e = Done g1 /\
                  g' = set_recording_buffer g1 buf) \/
  (exists buf, g' = set_recording_buffer g buf) \/
  (exists st buf, g' = set_recording_buffer (set_settings g st) buf).
Proof.
  assert (Hmenu : forall delta,
             exists v buf, 0 <= v < 4 /\
               game (menu_step a delta)
               = set_recording_buffer (set_selected (game a) v) buf).
  { intros delta. unfold menu_step. simpl.
    eexists _, _. split; [|reflexivity]. apply Z.mod_pos_bound. lia. }
  assert (Hsel : forall a1, _select_menu_option a e = Done (Running a1) ->
             (exists g1 buf, _start_new_game (globals a) (game a) e = Done g1 /\
                             game a1 = set_recording_buffer g1 buf) \/
             (exists buf, game a1 = set_recording_buffer (game a) buf)).
  { intros a1 H. unfold _select_menu_option in H.
    destruct (selected (game a) =? 0).
    - bind_inv H. inversion H; subst. simpl. eauto.
    - destruct (selected (game a) =? 3); [discriminate|].
      inversion H; subst. simpl. eauto. }
  unfold _handle_title_input. intros H. cbv zeta.
  destruct ev as [k|b|ax v| |].
  - destruct k;
      first [ destruct (Hsel _ H) as [Hx | Hx]; eauto 8; fail
            | inversion H; subst;
              first [ left; reflexivity
                    | right; left; apply Hmenu
                    | do 4 right; simpl; eexists _, _; reflexivity ] ].
  - destruct (_ && _).
    + destruct (Hsel _ H) as [Hx | Hx]; eauto 8.
    + inversion H; subst; auto.
  - repeat match type of H with
           | context [if ?c then _ else _] => destruct c
           end; inversion H; subst;
      first [ left; reflexivity | right; left; apply Hmenu ].
  - inversion H; subst; auto.
  - inversion H; subst; auto.
Qed.

(** A property of the game object that every operation keeps holds along
    every run. *)
Lemma run_game_inv (P : Game -> Prop) :
  (forall G g d e g' d',
      P g -> state g = PLAYING ->
      _update_game G g d e = Done (g', d') -> P g') ->
  (forall g dir, unit_dir dir -> P g ->
                 P (set_snake g (change_direction (snake g) dir))) ->
  (forall g, P g -> P (set_state g TITLE)) ->
  (forall g v, P g -> P (set_recording_buffer g v)) ->
  (forall g v, P g -> P (set_settings g v)) ->
  (forall g v, 0 <= v < 4 -> P g -> P (set_selected g v)) ->
  (forall G g e g', P g -> _start_new_game G g e = Done g' -> P g') ->
  forall evs a a',
    P (game a) -> run evs a = Done (Running a') -> P (game a').
Proof.
  intros Hup Hturn Hst Hbuf Hset Hsel Hnew.
  assert (Hin : forall a ev e a',
             P (game a) -> handle_input a ev e = Done (Running a') ->
             P (game a')).
  { intros a ev e a' HP H. unfold handle_input in H.
    destruct (state (game a)); try (inversion H; subst; exact HP).
    - destruct (_handle_title_input_game _ _ _ _ H)
        as [-> | [(v & buf & Hv & ->) | [(g1 & buf & Hg1 & ->) |
            [(buf & ->) | (st & buf & ->)]]]]; eauto.
    - inversion H; subst.
      destruct (_handle_game_input_game a ev e)
        as [-> | [(dir & Hdir & ->) | [-> | ->]]]; eauto. }
  assert (Hstep : forall a ev e a',
             P (game a) -> step a ev e = Done (Running a') -> P (game a')).
  { intros a ev e a' HP H. unfold step in H.
    destruct ev; try (eapply Hin; [|exact H]; exact HP).
    bind_inv H. rename a0 into a1.
    assert (H1 : P (game a1)).
    { destruct (state (game a)) eqn:Est;
        try (inversion E; subst; exact HP).
      bind_inv E. destruct a0 as [g d]. inversion E; subst. simpl. eauto. }
    destruct (running a1); inversion H; subst. exact H1. }
  induction evs as [|[ev e] rest IH]; simpl; intros a a' HP H.
  - inversion H; subst; exact HP.
  - bind_inv H. destruct a0 as [a1|d]; [|discriminate]. eauto.
Qed.

(** ** The shape of the snake *)

(** What holds of the snake in every reachable game: a non-empty body of
    interior cells, a unit direction, a buffered direction (if any) that is
    a unit direction and not the reverse of the committed one, and
    multipliers at their default or boosted value. *)
Definition snake_ok (s : Snake) : Prop :=
  body s <> [] /\
  Forall (fun c => on_border c = false) (body s) /\
  unit_dir (direction s) /\
  (forall nd, next_direction s = Some nd ->
              unit_dir nd /\ not_reverse (direction s) nd = true) /\
  (speed_multiplier s = 1%Q \/ speed_multiplier s = 3 # 2) /\
  (score_multiplier s = 1 \/ score_multiplier s = 2).

Lemma Snake_init_ok (t : Q) : snake_ok (Snake_init t).
Proof.
  unfold snake_ok, Snake_init, unit_dir. simpl.
  repeat split; auto; try discriminate.
Qed.

Lemma apply_buffered_direction (s : Snake) :
  snake_ok s ->
  unit_dir (direction (apply_buffered s)) /\
  (forall nd, next_direction s = Some nd ->
              direction (apply_buffered s) = nd) /\
  (next_direction s = None -> direction (apply_buffered s) = direction s).
Proof.
  intros (_ & _ & Hu & Hn & _). unfold apply_buffered.
  destruct (next_direction s) as [nd|] eqn:E.
  - destruct (Hn nd eq_refl) as (Hund & Hnr). rewrite Hnr. simpl.
    repeat split; auto; congruence.
  - repeat split; auto; congruence.
Qed.

Lemma Forall_pop (P : Cell -> Prop) (l : list Cell) :
  Forall P l -> Forall P (pop l).
Proof.
  intros H. unfold pop. rewrite removelast_firstn_len.
  rewrite Forall_forall in *. intros x Hx. apply H.
  rewrite <- (firstn_skipn (pred (length l)) l). apply in_or_app. auto.
Qed.

Lemma move_snake_ok (G : Globals) (s s' : Snake) (t : Q)
      (buf buf' : list ndarray) (alive : bool) :
  move G s t buf = Done (s', alive, buf') -> snake_ok s -> snake_ok s'.
Proof.
  intros H Hok.
  destruct (apply_buffered_direction s Hok) as (Hdir & _).
  destruct Hok as (Hne & Hint & Hu & Hn & Hv & Hc).
  destruct (move_outcome _ _ _ _ _ _ _ H)
    as [(-> & _) | [Hdied | Hstep]].
  - unfold snake_ok; auto 10.
  - destruct Hdied as (_ & _ & _ & _ & Hb & _ & _ & Hnd & Hd & Hv' & Hc').
    unfold snake_ok. rewrite Hb, Hnd, Hd, Hv', Hc'.
    repeat split; auto; discriminate.
  - destruct Hstep as (_ & _ & _ & _ & head & tl & c & Hb & Hc0 & _ & _ &
                       Hb' & _ & _ & Hnd & Hd & Hv' & Hc').
    unfold snake_ok. rewrite Hb', Hnd, Hd, Hv', Hc'.
    repeat split; auto; try discriminate.
    + destruct (grow s); discriminate.
    + destruct (grow s); constructor; auto. apply Forall_pop, Hint.
Qed.

Lemma change_direction_snake_ok (s : Snake) (d : Direction) :
  unit_dir d -> snake_ok s -> snake_ok (change_direction s d).
Proof.
  intros Hd (Hne & Hint & Hu & Hn & Hv & Hc). unfold change_direction.
  destruct (not_reverse (direction s) d) eqn:E; unfold snake_ok; simpl.
  - split; [exact Hne|]. split; [exact Hint|]. split; [exact Hu|].
    split; [|auto]. intros nd Hnd. inversion Hnd; subst. auto.
  - auto 10.
Qed.

Lemma Forall_firstn (P : Cell -> Prop) (n : nat) (l : list Cell) :
  Forall P l -> Forall P (firstn n l).
Proof.
  intros H. rewrite Forall_forall in *. intros x Hx. apply H.
  rewrite <- (firstn_skipn n l). apply in_or_app. auto.
Qed.

Lemma _apply_power_up_snake_ok (g : Game) (r : ref) :
  snake_ok (snake g) -> snake_ok (snake (_apply_power_up g r)).
Proof.
  intros Hok. pose proof (_apply_power_up_head g r) as Hhead.
  destruct Hok as (Hne & Hint & Hu & Hn & Hv & Hc).
  unfold _apply_power_up in *.
  destruct (type (deref (heap g) r)); simpl in *.
  - unfold snake_ok; simpl. auto 10.
  - unfold snake_ok; simpl. auto 10.
  - unfold snake_ok; simpl. auto 10.
  - destruct (_ >? 3) eqn:E; simpl in *; [|unfold snake_ok; auto 10].
    unfold snake_ok; simpl.
    split; [|split; [apply Forall_firstn, Hint | auto 10]].
    unfold body0 in Hhead. simpl in Hhead.
    destruct (drop_last2 (body (snake g))); [|discriminate].
    destruct (body (snake g)); [congruence | discriminate].
Qed.

(** The food block touches nothing of the snake but the growth flag. *)
Lemma eat_step_snake (G : Globals) (g g' : Game) (d d' : Disk)
      (ds : list Cell) :
  eat_step G g d ds = Done (g', d') ->
  snake g' = snake g \/ snake g' = set_grow (snake g) true.
Proof.
  unfold eat_step. intros H. bind_inv H.
  destruct (cell_eqb a (food g)).
  - bind_inv H. destruct a0 as [nf rest]. inversion H; subst. simpl. auto.
  - inversion H; subst. auto.
Qed.

(** The expiry loop with the values it actually assigns. *)
Lemma _update_power_ups_loop_inv1 (P : Game -> Prop) :
  (forall g r t, P g ->
     P (set_heap g (store (heap g) r (set_timer (deref (heap g) r) t)))) ->
  (forall g, P g -> P (set_snake g (set_speed_multiplier (snake g) 1%Q))) ->
  (forall g, P g -> P (set_snake g (set_score_multiplier (snake g) 1))) ->
  (forall g r l, P g -> list_remove r (power_ups g) = Done l ->
                 P (set_power_ups g l)) ->
  forall snapshot g g',
    P g -> _update_power_ups_loop snapshot g = Done g' -> P g'.
Proof.
  intros Hh Hsp Hsc Hl. induction snapshot as [|r rest IH]; simpl; intros g g' HP H.
  - inversion H; subst; exact HP.
  - destruct (active (deref (heap g) r)); [|eauto].
    match type of H with
    | context [if ?c then _ else _] => destruct c
    end; [|eapply IH; [|exact H]; auto].
    match type of H with
    | context [list_remove ?a ?b] => destruct (list_remove a b) eqn:E
    end; simpl in H; try discriminate.
    eapply IH; [|exact H]. eapply Hl; [|exact E].
    destruct (type _); simpl; auto.
    + apply (Hsp (set_heap g _)). auto.
    + apply (Hsc (set_heap g _)). auto.
Qed.

Lemma _update_power_ups_snake_ok (g g' : Game) :
  _update_power_ups g = Done g' -> snake_ok (snake g) -> snake_ok (snake g').
Proof.
  intros H Hok. unfold _update_power_ups in H.
  refine (_update_power_ups_loop_inv1 (fun x => snake_ok (snake x))
            _ _ _ _ _ _ _ Hok H).
  - intros; assumption.
  - intros g0 (Hne & Hint & Hu & Hn & Hv & Hc). unfold snake_ok; simpl; auto 10.
  - intros g0 (Hne & Hint & Hu & Hn & Hv & Hc). unfold snake_ok; simpl; auto 10.
  - intros; assumption.
Qed.

Lemma _update_game_snake_ok (G : Globals) (g g' : Game) (d d' : Disk)
      (e : Env) :
  _update_game G g d e = Done (g', d') ->
  snake_ok (snake g) -> snake_ok (snake g').
Proof.
  intros H Hok.
  destruct (_update_game_stages _ _ _ _ _ _ H)
    as (g1 & g2 & ds & s & alive & buf & Hup & Hsp & Hmv & Hrest).
  pose proof (_update_power_ups_snake_ok _ _ Hup Hok) as H1.
  apply spawn_step_snake in Hsp. destruct Hsp as (Hs2 & _).
  rewrite <- Hs2 in H1.
  pose proof (move_snake_ok _ _ _ _ _ _ _ Hmv H1) as H3.
  destruct Hrest as [[_ Hgo]|[_ (g4 & Hcol & Heat)]].
  - apply game_over_step_board in Hgo. destruct Hgo as (-> & _). exact H3.
  - assert (H4 : snake_ok (snake g4)).
    { refine (collect_loop_inv (fun x => snake_ok (snake x)) _ _ _ _ _ Hcol).
      - intros g0 r l Hg0 _. simpl. apply _apply_power_up_snake_ok, Hg0.
      - exact H3. }
    destruct (eat_step_snake _ _ _ _ _ _ Heat) as [-> | ->]; exact H4.
Qed.

(** States the program can be in: reached from a first game by a run of
    events. *)
Definition reachable (a : App) : Prop :=
  exists G st d e0 evs a0,
    fresh_app G st d e0 = Done a0 /\ run evs a0 = Done (Running a).

Lemma reachable_snake_ok (a : App) : reachable a -> snake_ok (snake (game a)).
Proof.
  intros (G & st & d & e0 & evs & a0 & Hfresh & Hrun).
  refine (run_game_inv (fun g => snake_ok (snake g)) _ _ _ _ _ _ _
            evs a0 a _ Hrun).
  - intros G0 g d0 e g' d' Hg _ H. eapply _update_game_snake_ok; eauto.
  - intros g dir Hdir Hg. simpl. apply change_direction_snake_ok; auto.
  - auto.
  - auto.
  - auto.
  - auto.
  - intros G0 g e g' _ H. unfold _start_new_game in H.
    destruct (draws e); [discriminate|]. inversion H; subst. simpl.
    apply Snake_init_ok.
  - unfold fresh_app, fresh_game, _start_new_game in Hfresh.
    destruct (draws e0); simpl in Hfresh; [discriminate|].
    inversion Hfresh; subst. simpl. apply Snake_init_ok.
Qed.

Lemma reachable_wf (a : App) : reachable a -> wf (game a).
Proof.
  intros (G & st & d & e0 & evs & a0 & Hfresh & Hrun).
  eapply run_wf; [exact Hrun|]. eapply fresh_app_wf; eauto.
Qed.

(** A game 30 frames old in which the snake has eaten once. *)
Definition played_app : App :=
  app_after (frames_from 0 30 [(5, 5)] SPEED true) (start_app (18, 16) Normal).

Lemma played_app_reachable : reachable played_app.
Proof.
  exists quiet_globals, (default_settings Normal), (mkDisk None None),
    (start_env (18, 16)), (frames_from 0 30 [(5, 5)] SPEED true),
    (start_app (18, 16) Normal).
  split; [reflexivity | vm_compute; reflexivity].
Qed.




(** X2. In every reachable state the body of the snake is non-empty and
    all its cells are interior cells: no body cell is ever a border cell,
    shield-assisted wraps included. *)
Theorem X2_body_stays_inside_the_walls :
  forall a : App,
    reachable a ->
    body (snake (game a)) <> [] /\
    forall c, In c (body (snake (game a))) ->
              1 <= fst c <= GRID_COUNT - 2 /\ 1 <= snd c <= GRID_COUNT - 2.
Proof.
  intros a Hr. destruct (reachable_snake_ok a Hr) as (Hne & Hint & _).
  split; [exact Hne|]. intros c Hc.
  rewrite Forall_forall in Hint. specialize (Hint c Hc).
  unfold on_border, GRID_COUNT, WINDOW_SIZE, GRID_SIZE in *.
  change (256 / 8) with 32 in *.
  rewrite !orb_false_iff in Hint. destruct Hint as (((H1 & H2) & H3) & H4).
  apply Z.ltb_ge in H1, H3.
  destruct (Z.geb_spec (fst c) (32 - 1)); [discriminate|].
  destruct (Z.geb_spec (snd c) (32 - 1)); [discriminate|]. lia.
Qed.

Lemma X2_witness :
  body (snake (game played_app)) <> [] /\
  forall c, In c (body (snake (game played_app))) ->
            1 <= fst c <= GRID_COUNT - 2 /\ 1 <= snd c <= GRID_COUNT - 2.
Proof. exact (X2_body_stays_inside_the_walls played_app played_app_reachable). Defined.

Lemma unit_dir_not_self_opposite (d : Direction) :
  unit_dir d -> d <> opposite d.
Proof.
  intros [-> | [-> | [-> | ->]]]; unfold opposite; simpl; intros H;
    inversion H.
Qed.

(** X3. In every reachable state the committed direction is one of the
    four unit vectors and a buffered direction, if any, is a unit vector
    that is not the reverse of the committed one.  Hence the reversal test
    inside [move] never rejects: whenever [move] is due on a live snake with
    a buffered direction, that direction is the committed one afterwards,
    and no call of [move] ever turns the snake by 180 degrees. *)
Theorem X3_direction_is_a_unit_vector_and_never_reverses :
  forall a : App,
    reachable a ->
    let s := snake (game a) in
    unit_dir (direction s) /\
    (forall nd, next_direction s = Some nd ->
                unit_dir nd /\ nd <> opposite (direction s)) /\
    (forall G t buf s' alive buf',
        move G s t buf = Done (s', alive, buf') ->
        unit_dir (direction s') /\
        direction s' <> opposite (direction s) /\
        (forall nd, next_direction s = Some nd -> dead s = false ->
                    Qltb (t - last_move_time s) (effective_interval s) = false ->
                    direction s' = nd /\ next_direction s' = None)).
Proof.
  intros a Hr s. pose proof (reachable_snake_ok a Hr) as Hok. fold s in Hok.
  destruct (apply_buffered_direction s Hok) as (Hdu & Hdn & Hd0).
  pose proof Hok as (_ & _ & Hu & Hn & _).
  assert (Hnr : direction (apply_buffered s) <> opposite (direction s)).
  { destruct (next_direction s) as [nd|] eqn:E.
    - rewrite (Hdn nd eq_refl). apply not_reverse_true. apply Hn, eq_refl.
    - rewrite (Hd0 eq_refl). apply unit_dir_not_self_opposite, Hu. }
  split; [exact Hu|]. split.
  - intros nd Hnd. destruct (Hn nd Hnd) as (H1 & H2).
    split; [exact H1|]. apply not_reverse_true, H2.
  - intros G t buf s' alive buf' H.
    destruct (move_outcome _ _ _ _ _ _ _ H)
      as [(-> & Hidle) | [Hdied | Hstep]].
    + split; [exact Hu|]. split; [apply unit_dir_not_self_opposite, Hu|].
      intros nd _ Hd Ht.
      destruct Hidle as [(Hx & _) | (_ & _ & Hx)]; congruence.
    + destruct Hdied as (_ & _ & _ & _ & _ & _ & _ & Hnone & Hd & _).
      rewrite Hd. repeat split; auto.
    + destruct Hstep as (_ & _ & _ & _ & head & tl & c & _ & _ & _ & _ &
                         _ & _ & _ & Hnone & Hd & _).
      rewrite Hd. repeat split; auto.
Qed.

Lemma X3_witness : unit_dir (direction (snake (game played_app))).
Proof.
  exact (proj1 (X3_direction_is_a_unit_vector_and_never_reverses
                  played_app played_app_reachable)).
Defined.



(** ** Which exceptions a frame can raise *)












(** ** Food, power-ups and the body *)

Lemma list_remove_app (r : ref) (kept rest : list ref) :
  ~ In r kept -> list_remove r (kept ++ r :: rest) = Done (kept ++ rest).
Proof.
  induction kept as [|x kept IH]; simpl; intros Hn.
  - rewrite Nat.eqb_refl. reflexivity.
  - destruct (Nat.eqb_spec x r) as [->|Hne]; [tauto|].
    rewrite IH by tauto. reflexivity.
Qed.

(** The collection loop over the whole list drops exactly the power-ups
    that lie under the head. *)
Lemma collect_loop_removes (snapshot kept : list ref) (g g' : Game)
      (head : Cell) :
  NoDup (kept ++ snapshot) ->
  power_ups g = kept ++ snapshot ->
  body0 (snake g) = Done head ->
  collect_loop snapshot g = Done g' ->
  power_ups g' =
  kept ++ filter (fun r => negb (cell_eqb head (position (deref (heap g) r))))
                 snapshot.
Proof.
  revert kept g. induction snapshot as [|r rest IH];
    intros kept g Hnd Hpu Hhead H.
  - simpl in *. inversion H; subst. exact Hpu.
  - simpl in H. rewrite Hhead in H. simpl in H. simpl filter.
    destruct (cell_eqb head (position (deref (heap g) r))) eqn:Eh; simpl.
    + destruct (_apply_power_up_heap g r) as (Hpu1 & _).
      rewrite Hpu1, Hpu in H.
      rewrite list_remove_app in H.
      2:{ intros Hin. apply NoDup_remove_2 in Hnd. apply Hnd.
          apply in_or_app. auto. }
      simpl in H.
      assert (Hh1 : body0 (snake (set_power_ups (_apply_power_up g r)
                                                 (kept ++ rest))) = Done head).
      { simpl. rewrite _apply_power_up_head. exact Hhead. }
      rewrite (IH kept (set_power_ups (_apply_power_up g r) (kept ++ rest))
                  (NoDup_remove_1 _ _ _ Hnd) eq_refl Hh1 H).
      f_equal. apply filter_ext. intros r0. simpl.
      destruct (_apply_power_up_kinds g r r0) as (_ & ->). reflexivity.
    + assert (Hnd' : NoDup ((kept ++ [r]) ++ rest))
        by (rewrite <- app_assoc; exact Hnd).
      assert (Hpu' : power_ups g = (kept ++ [r]) ++ rest)
        by (rewrite <- app_assoc; exact Hpu).
      rewrite (IH (kept ++ [r]) g Hnd' Hpu' Hhead H).
      rewrite <- app_assoc. reflexivity.
Qed.

Lemma tl_firstn_incl (n : nat) (l : list Cell) (x : Cell) :
  In x (tl (firstn n l)) -> In x (tl l).
Proof.
  destruct n as [|n]; [simpl; tauto|].
  destruct l as [|h t]; simpl; [tauto|].
  intros H. rewrite <- (firstn_skipn n t). apply in_or_app. auto.
Qed.

(** Collecting power-ups keeps the head and can only shorten the tail. *)
Lemma collect_loop_body (snapshot : list ref) (g g' : Game) :
  collect_loop snapshot g = Done g' ->
  body0 (snake g') = body0 (snake g) /\
  (forall x, In x (tl (body (snake g'))) -> In x (tl (body (snake g)))) /\
  grow (snake g') = grow (snake g).
Proof.
  apply (collect_loop_inv
           (fun y => body0 (snake y) = body0 (snake g) /\
                     (forall x, In x (tl (body (snake y))) ->
                                In x (tl (body (snake g)))) /\
                     grow (snake y) = grow (snake g))); [|auto].
  intros g0 r l (Hh & Ht & Hg) _. simpl.
  rewrite _apply_power_up_head. split; [exact Hh|].
  unfold _apply_power_up.
  destruct (type (deref (heap g0) r)); simpl; auto.
  destruct (_ >? 3); simpl; auto. split; [|exact Hg].
  intros x Hx. apply Ht. eapply tl_firstn_incl. exact Hx.
Qed.

Lemma body_head_tail (s : Snake) (h x : Cell) :
  body0 s = Done h -> In x (body s) -> x = h \/ In x (tl (body s)).
Proof.
  unfold body0. destruct (body s) as [|h0 t]; [discriminate|].
  intros Hh [Hx|Hx]; [left; congruence | right; exact Hx].
Qed.

(** The food is off the body, except that a new game may start with the
    food under the one-cell snake. *)
Definition food_clear (g : Game) : Prop :=
  ~ In (food g) (body (snake g)) \/
  (body (snake g) = [food g] /\ grow (snake g) = false).

(** No live power-up lies on a body cell. *)
Definition power_ups_clear (g : Game) : Prop :=
  Forall (fun r => ~ In (position (deref (heap g) r)) (body (snake g)))
         (power_ups g).

(** After the food block the food is off the body, provided it was off the
    tail before. *)
Lemma eat_step_clears (G : Globals) (g g' : Game) (d d' : Disk)
      (ds : list Cell) :
  eat_step G g d ds = Done (g', d') ->
  ~ In (food g) (tl (body (snake g))) ->
  ~ In (food g') (body (snake g')).
Proof.
  intros H Htl. pose proof (eat_step_body _ _ _ _ _ _ H) as (Hb & _).
  unfold eat_step in H. bind_inv H. rename a into head.
  destruct (cell_eqb head (food g)) eqn:Eh.
  - bind_inv H. destruct a as [nf rest]. inversion H; subst. simpl in *.
    apply sample_free_spec in E0. destruct E0 as (_ & Hfree & _).
    apply cell_in_false in Hfree. exact Hfree.
  - inversion H; subst. intros Hin.
    destruct (body_head_tail _ _ _ E Hin) as [Hx | Hx]; [|auto].
    rewrite Hx, cell_eqb_refl in Eh. discriminate.
Qed.

(** What [move] does to the cells of the body: every cell of the new body
    is its head or a cell of the old tail-or-body. *)
Lemma move_tail (G : Globals) (s s' : Snake) (t : Q)
      (buf buf' : list ndarray) (alive : bool) (f : Cell) :
  move G s t buf = Done (s', alive, buf') ->
  (~ In f (body s) \/ (body s = [f] /\ grow s = false)) ->
  ~ In f (tl (body s')) /\
  (alive = false ->
   ~ In f (body s') \/ (body s' = [f] /\ grow s' = false)).
Proof.
  intros H HK.
  assert (Hsame : body s' = body s -> grow s' = grow s ->
                  ~ In f (tl (body s')) /\
                  (~ In f (body s') \/ (body s' = [f] /\ grow s' = false))).
  { intros -> ->. split; [|exact HK].
    destruct HK as [Hn | (-> & _)]; simpl; auto.
    intros Hx. apply Hn. destruct (body s); simpl in *; auto. }
  destruct (move_outcome _ _ _ _ _ _ _ H)
    as [(-> & _) | [Hdied | Hstep]].
  - destruct Hsame; auto.
  - destruct Hdied as (_ & _ & _ & _ & Hb & Hg & _).
    destruct (Hsame Hb Hg); auto.
  - destruct Hstep as (Ha & _ & _ & _ & head & tl & c & Hb & _ & _ & _ &
                       Hb' & _).
    split; [|intros; congruence].
    rewrite Hb'. destruct (grow s) eqn:Eg; simpl.
    + destruct HK as [Hn | (_ & Hx)]; [exact Hn | congruence].
    + destruct HK as [Hn | (-> & _)]; [|simpl; auto].
      intros Hx. apply Hn. unfold pop in Hx.
      rewrite removelast_firstn_len in Hx.
      rewrite <- (firstn_skipn (pred (length (body s))) (body s)).
      apply in_or_app. auto.
Qed.

Lemma _update_game_food_clear (G : Globals) (g g' : Game) (d d' : Disk)
      (e : Env) :
  _update_game G g d e = Done (g', d') ->
  wf g -> food_clear g ->
  food_clear g' /\
  (dead (snake g') = false -> ~ In (food g') (body (snake g'))).
Proof.
  intros H Hwf HK.
  destruct (_update_game_stages _ _ _ _ _ _ H)
    as (g1 & g2 & ds & s & alive & buf & Hup & Hsp & Hmv & Hrest).
  rewrite (_update_power_ups_wf g Hwf) in Hup. inversion Hup; subst g1.
  apply spawn_step_snake in Hsp. destruct Hsp as (Hs2 & Hf2 & _).
  unfold food_clear in HK. rewrite <- Hs2, <- Hf2 in HK.
  destruct (move_tail _ _ _ _ _ _ _ (food g2) Hmv HK) as (Htl & Hdead).
  pose proof (move_alive _ _ _ _ _ _ _ Hmv) as Halive.
  destruct Hrest as [[Ha Hgo]|[Ha (g4 & Hcol & Heat)]].
  - apply game_over_step_board in Hgo. destruct Hgo as (Hsn & Hfd & _).
    unfold food_clear. rewrite Hsn, Hfd. simpl. split; [auto|].
    intros Hd. rewrite Ha, Hd in Halive. discriminate.
  - destruct (collect_loop_body _ _ _ Hcol) as (_ & Ht4 & _).
    destruct (collect_loop_board _ _ _ Hcol) as (Hf4 & _).
    simpl in Ht4, Hf4.
    assert (Hclear : ~ In (food g') (body (snake g'))).
    { eapply eat_step_clears; [exact Heat|].
      rewrite Hf4. intros Hx. apply Htl, Ht4, Hx. }
    split; [left; exact Hclear | intros _; exact Hclear].
Qed.

Lemma move_body_incl (G : Globals) (s s' : Snake) (t : Q)
      (buf buf' : list ndarray) (alive : bool) :
  move G s t buf = Done (s', alive, buf') ->
  (alive = false -> body s' = body s) /\
  (forall x, In x (body s') -> In x (body s) \/ body0 s' = Done x).
Proof.
  intros H.
  destruct (move_outcome _ _ _ _ _ _ _ H)
    as [(-> & _) | [Hdied | Hstep]].
  - auto.
  - destruct Hdied as (_ & _ & _ & _ & Hb & _). rewrite Hb. auto.
  - destruct Hstep as (Ha & _ & _ & _ & head & tl & c & Hb & _ & _ & _ &
                       Hb' & _).
    split; [intros; congruence|].
    unfold body0. rewrite Hb'. intros x Hx.
    destruct (grow s); simpl in Hx; destruct Hx as [<- | Hx]; auto.
    left. unfold pop in Hx. rewrite removelast_firstn_len in Hx.
    rewrite <- (firstn_skipn (pred (length (body s))) (body s)).
    apply in_or_app. auto.
Qed.

Lemma spawn_step_clear (g g' : Game) (ds : list Cell) (e : Env) :
  spawn_step g e = Done (g', ds) ->
  wf g -> power_ups_clear g -> power_ups_clear g'.
Proof.
  unfold spawn_step. intros H Hwf Hcl.
  destruct (_ >=? _) in H.
  - bind_inv H. destruct a as [g3 ds3]. inversion H; subst. clear H.
    unfold _spawn_power_up in E. bind_inv E. destruct a as [pos rest].
    simpl in E. inversion E; subst. clear E.
    apply sample_free_spec in E0. destruct E0 as (_ & Hfree & _).
    simpl in Hfree. apply negb_false_iff, andb_true_iff in Hfree.
    destruct Hfree as (Hfree & _). apply negb_true_iff, cell_in_false in Hfree.
    destruct Hwf as (_ & Hin & _).
    unfold power_ups_clear in *. simpl.
    rewrite Forall_forall in Hin, Hcl. rewrite Forall_app. split.
    + rewrite Forall_forall. intros r Hr. destruct (Hin r Hr) as (Hlt & _).
      rewrite deref_alloc_old by exact Hlt. apply Hcl, Hr.
    + repeat constructor. rewrite deref_alloc_new. exact Hfree.
  - inversion H; subst. exact Hcl.
Qed.

(** A frame keeps the live power-ups off the body: the collection loop
    removes every power-up the head has reached. *)
Lemma _update_game_power_ups_clear (G : Globals) (g g' : Game) (d d' : Disk)
      (e : Env) :
  _update_game G g d e = Done (g', d') ->
  wf g -> snake_ok (snake g) -> power_ups_clear g -> power_ups_clear g'.
Proof.
  intros H Hwf Hok Hcl.
  destruct (_update_game_stages _ _ _ _ _ _ H)
    as (g1 & g2 & ds & s & alive & buf & Hup & Hsp & Hmv & Hrest).
  rewrite (_update_power_ups_wf g Hwf) in Hup. inversion Hup; subst g1.
  assert (Hok3 : snake_ok s).
  { eapply move_snake_ok; [exact Hmv|].
    destruct (spawn_step_snake _ _ _ _ Hsp) as (-> & _). exact Hok. }
  pose proof (spawn_step_clear _ _ _ _ Hsp Hwf Hcl) as Hcl2.
  pose proof (spawn_step_wf _ _ _ _ Hsp Hwf) as Hwf2.
  destruct (move_body_incl _ _ _ _ _ _ _ Hmv) as (Hdead & Hincl).
  unfold power_ups_clear in *.
  destruct Hrest as [[Ha Hgo]|[Ha (g4 & Hcol & Heat)]].
  - apply game_over_step_board in Hgo.
    destruct Hgo as (Hsn & _ & Hpu & Hh & _).
    rewrite Hsn, Hpu, Hh. simpl. rewrite (Hdead Ha). exact Hcl2.
  - apply eat_step_body in Heat. destruct Heat as (Hb & Hpu & Hh & _).
    rewrite Hb, Hpu, Hh.
    set (g3 := set_snake (set_recording_buffer g2 buf) s) in *.
    destruct (collect_loop_body _ _ _ Hcol) as (Hh4 & Ht4 & _).
    destruct (collect_loop_kinds _ _ _ Hcol) as (Hk & _).
    simpl in Hh4, Ht4.
    assert (Ehead : exists head, body0 s = Done head).
    { unfold body0. destruct (body s) eqn:Eb; [|eauto].
      destruct Hok3 as (Hne & _). congruence. }
    destruct Ehead as (head & Ehead).
    assert (Hpu4 : power_ups g4 =
                   filter (fun r => negb (cell_eqb head
                                            (position (deref (heap g3) r))))
                          (power_ups g3)).
    { apply (collect_loop_removes (power_ups g3) [] g3 g4 head).
      - simpl. apply Hwf2.
      - reflexivity.
      - exact Ehead.
      - exact Hcol. }
    rewrite Hpu4. rewrite Forall_forall in *. intros r Hr.
    apply filter_In in Hr. destruct Hr as (Hr & Hnm). simpl in Hr.
    apply negb_true_iff in Hnm.
    destruct (Hk r) as (_ & Hpos). rewrite Hpos. simpl in Hpos, Hnm |- *.
    intros Hin.
    assert (Hcase : position (deref (heap g2) r) = head \/
                    In (position (deref (heap g2) r)) (body s)).
    { rewrite Ehead in Hh4.
      destruct (body_head_tail _ _ _ Hh4 Hin) as [Hx | Hx]; [left; exact Hx|].
      right. apply Ht4 in Hx. destruct (body s); simpl in *; auto. }
    assert (Hne : position (deref (heap g2) r) <> head).
    { intros Hx. rewrite Hx, cell_eqb_refl in Hnm. discriminate. }
    destruct Hcase as [Hx | Hx]; [contradiction|].
    destruct (Hincl _ Hx) as [Hy | Hy].
    + exact (Hcl2 r Hr Hy).
    + congruence.
Qed.

(** The state of the board in every reachable game. *)
Definition board_ok (g : Game) : Prop :=
  wf g /\ snake_ok (snake g) /\ food_clear g /\ power_ups_clear g.

Lemma reachable_board_ok (a : App) : reachable a -> board_ok (game a).
Proof.
  intros (G & st & d & e0 & evs & a0 & Hfresh & Hrun).
  assert (Hnew : forall G0 g e g',
             _start_new_game G0 g e = Done g' ->
             Forall (fun p => timer p = 0) (heap g) -> board_ok g').
  { intros G0 g e g' H Htm. unfold _start_new_game in H.
    destruct (draws e) as [|c ds]; [discriminate|]. inversion H; subst.
    unfold board_ok, wf, food_clear, power_ups_clear. simpl.
    split; [repeat split; auto; constructor|].
    split; [apply Snake_init_ok|]. split; [|constructor].
    destruct (cell_eqb c (GRID_COUNT / 2, GRID_COUNT / 2)) eqn:Ec.
    - apply cell_eqb_eq in Ec. subst c. right. auto.
    - left. intros [Hx | []]. rewrite Hx, cell_eqb_refl in Ec. discriminate. }
  refine (run_game_inv board_ok _ _ _ _ _ _ _ evs a0 a _ Hrun).
  - intros G0 g d0 e g' d' (Hwf & Hok & Hfc & Hpc) _ H.
    split; [eapply _update_game_wf; eauto|].
    split; [eapply _update_game_snake_ok; eauto|].
    split; [eapply _update_game_food_clear; eauto|].
    eapply _update_game_power_ups_clear; eauto.
  - intros g dir Hdir (Hwf & Hok & Hfc & Hpc).
    unfold board_ok, food_clear, power_ups_clear. simpl.
    rewrite change_direction_body.
    assert (Hg : grow (change_direction (snake g) dir) = grow (snake g)).
    { unfold change_direction. destruct (not_reverse _ _); reflexivity. }
    rewrite Hg.
    split; [exact Hwf|]. split; [apply change_direction_snake_ok; auto|].
    split; assumption.
  - intros g H; exact H.
  - intros g v H; exact H.
  - intros g v H; exact H.
  - intros g v _ H; exact H.
  - intros G0 g e g' (Hwf & _) H. eapply Hnew; [exact H|]. apply Hwf.
  - unfold fresh_app, fresh_game in Hfresh. bind_inv Hfresh.
    inversion Hfresh; subst. simpl. eapply Hnew; [exact E|]. constructor.
Qed.

(** X6. In every reachable state the food is off the snake's body, except
    that a game may start with the food drawn under the one-cell snake
    (the start draw is not tested against the body); and after every frame
    of a game in play that the snake survives, the food is on no body
    cell. *)
Theorem X6_food_is_never_left_on_the_snake :
  forall a : App,
    reachable a ->
    (~ In (food (game a)) (body (snake (game a))) \/
     (body (snake (game a)) = [food (game a)] /\
      grow (snake (game a)) = false)) /\
    (forall e a',
        state (game a) = PLAYING ->
        step a FRAME e = Done (Running a') ->
        dead (snake (game a')) = false ->
        ~ In (food (game a')) (body (snake (game a')))).
Proof.
  intros a Hr. destruct (reachable_board_ok a Hr) as (Hwf & _ & Hfc & _).
  split; [exact Hfc|].
  intros e a' Hst H Hd. unfold step in H. rewrite Hst in H.
  bind_inv H. rename a0 into a1. bind_inv E. destruct a0 as [g1 d1].
  inversion E; subst. simpl in H.
  destruct (running a); inversion H; subst. simpl in *.
  eapply _update_game_food_clear; eauto.
Qed.

Lemma X6_witness :
  ~ In (food (game played_app)) (body (snake (game played_app))) \/
  (body (snake (game played_app)) = [food (game played_app)] /\
   grow (snake (game played_app)) = false).
Proof.
  exact (proj1 (X6_food_is_never_left_on_the_snake
                  played_app played_app_reachable)).
Defined.

(** X7. In every reachable state no power-up that is still in [power_ups]
    lies on a cell of the snake's body: a power-up is spawned off the body
    and is collected in the frame in which the head reaches it. *)
Theorem X7_live_power_ups_are_off_the_snake :
  forall (a : App) (r : ref),
    reachable a ->
    In r (power_ups (game a)) ->
    ~ In (position (deref (heap (game a)) r)) (body (snake (game a))).
Proof.
  intros a r Hr Hin. destruct (reachable_board_ok a Hr) as (_ & _ & _ & Hpc).
  unfold power_ups_clear in Hpc. rewrite Forall_forall in Hpc. auto.
Qed.

Lemma X7_witness :
  let a := app_after shield_run (start_app (13, 17) Normal) in
  ~ In (position (deref (heap (game a)) 0%nat)) (body (snake (game a))).
Proof.
  intros a. apply (X7_live_power_ups_are_off_the_snake a 0%nat).
  - exists quiet_globals, (default_settings Normal), (mkDisk None None),
      (start_env (13, 17)), shield_run, (start_app (13, 17) Normal).
    split; [reflexivity | vm_compute; reflexivity].
  - vm_compute. auto.
Defined.

(** ** Spawning power-ups *)

(** X8. When [_spawn_power_up] returns, exactly one new object has been
    allocated and appended at the end of [power_ups]; it is inactive, with
    timer 0, duration [10 * FPS] and the picked kind; its position is one of
    the draws (an interior cell when the draws are in range), is not a body
    cell and is not the food cell; the draws before it were all rejected;
    the existing objects, the snake and the food are untouched.  It returns
    as soon as the draws contain a cell off the body and the food. *)
Theorem X8_spawn_places_one_fresh_power_up_on_a_free_cell :
  (forall (g g' : Game) (ds rest : list Cell) (ty : PowerUpType),
      Forall randint_pair ds ->
      _spawn_power_up g ds ty = Done (g', rest) ->
      let r := length (heap g) in
      let p := deref (heap g') r in
      power_ups g' = power_ups g ++ [r] /\
      length (heap g') = S (length (heap g)) /\
      (forall r', (r' < length (heap g))%nat ->
                  deref (heap g') r' = deref (heap g) r') /\
      p = PowerUp_init (position p) ty /\
      active p = false /\ timer p = 0 /\ duration p = 600 /\ type p = ty /\
      In (position p) ds /\ on_border (position p) = false /\
      ~ In (position p) (body (snake g)) /\ position p <> food g /\
      snake g' = snake g /\ food g' = food g /\
      exists skipped,
        ds = skipped ++ position p :: rest /\
        forall c, In c skipped -> In c (body (snake g)) \/ c = food g) /\
  (forall (g : Game) (ds : list Cell) (ty : PowerUpType) (c : Cell),
      In c ds -> ~ In c (body (snake g)) -> c <> food g ->
      exists g' rest, _spawn_power_up g ds ty = Done (g', rest)).
Proof.
  split.
  - intros g g' ds rest ty Hds H r p. subst r p.
    unfold _spawn_power_up in H. bind_inv H. destruct a as [pos rest'].
    simpl in H. inversion H; subst. clear H. simpl.
    rewrite deref_alloc_new. simpl.
    assert (Hspec : exists skipped,
               ds = skipped ++ pos :: rest /\
               (forall c, In c skipped ->
                          In c (body (snake g)) \/ c = food g) /\
               ~ In pos (body (snake g)) /\ pos <> food g).
    { clear Hds. revert E. induction ds as [|c ds IH]; simpl; intros E;
        [discriminate|].
      destruct (negb (negb (cell_in c (body (snake g)))
                      && negb (cell_eqb c (food g)))) eqn:Eo.
      - destruct (IH E) as (sk & -> & Hsk & Hfree).
        exists (c :: sk). split; [reflexivity|]. split; [|exact Hfree].
        intros c0 [<- | Hc0]; [|auto].
        apply negb_true_iff, andb_false_iff in Eo.
        destruct Eo as [Eo | Eo]; apply negb_false_iff in Eo.
        + left. apply cell_in_In, Eo.
        + right. apply cell_eqb_eq, Eo.
      - inversion E; subst. exists []. split; [reflexivity|].
        split; [simpl; tauto|].
        apply negb_false_iff, andb_true_iff in Eo. destruct Eo as (E1 & E2).
        apply negb_true_iff in E1, E2. split.
        + apply cell_in_false, E1.
        + intros Hx. rewrite Hx, cell_eqb_refl in E2. discriminate. }
    destruct Hspec as (sk & Hsplit & Hsk & Hfree1 & Hfree2).
    assert (Hin : In pos ds).
    { rewrite Hsplit. apply in_or_app. right. left. reflexivity. }
    rewrite Forall_forall in Hds.
    repeat split; auto.
    + rewrite length_app. simpl. lia.
    + intros r' Hr'. apply deref_alloc_old, Hr'.
    + apply randint_pair_interior, Hds, Hin.
    + eauto.
  - intros g ds ty c Hin Hb Hf. unfold _spawn_power_up.
    match goal with
    | |- context [sample_free ?f ds] =>
        destruct (sample_free_total f ds c Hin) as ([pos rest] & rest' & ->)
    end.
    + apply negb_false_iff, andb_true_iff. split; apply negb_true_iff.
      * apply cell_in_false, Hb.
      * destruct (cell_eqb c (food g)) eqn:E; [|reflexivity].
        apply cell_eqb_eq in E. contradiction.
    + simpl. eauto.
Qed.

Lemma X8_witness :
  let g := game (start_app (18, 16) Normal) in
  exists g' rest,
    _spawn_power_up g [(16, 16); (18, 16); (7, 9); (3, 3)] SCORE
      = Done (g', rest) /\
    power_ups g' = [0%nat] /\
    position (deref (heap g') 0%nat) = (7, 9) /\ rest = [(3, 3)].
Proof.
  intros g.
  destruct (_spawn_power_up g [(16, 16); (18, 16); (7, 9); (3, 3)] SCORE)
    as [[g' rest]| |] eqn:E; try (vm_compute in E; discriminate E).
  exists g', rest. split; [reflexivity|].
  assert (Hds : Forall randint_pair [(16, 16); (18, 16); (7, 9); (3, 3)]).
  { repeat constructor; vm_compute; discriminate. }
  destruct (proj1 X8_spawn_places_one_fresh_power_up_on_a_free_cell
                  g g' _ rest SCORE Hds E) as (Hpu & _).
  split; [exact Hpu|]. vm_compute in E. inversion E; subst. split; reflexivity.
Defined.

(** ** Bookkeeping of a frame: state, score, spawn timer *)

Lemma collect_loop_meta (snapshot : list ref) (g g' : Game) :
  collect_loop snapshot g = Done g' ->
  state g' = state g /\ settings g' = settings g /\
  high_score g' = high_score g /\ score g' = score g /\
  power_up_spawn_timer g' = power_up_spawn_timer g /\
  length (heap g') = length (heap g) /\
  recording_buffer g' = recording_buffer g.
Proof.
  apply (collect_loop_inv
           (fun y => state y = state g /\ settings y = settings g /\
                     high_score y = high_score g /\ score y = score g /\
                     power_up_spawn_timer y = power_up_spawn_timer g /\
                     length (heap y) = length (heap g) /\
                     recording_buffer y = recording_buffer g)).
  - intros g0 r l (H1 & H2 & H3 & H4 & H5 & H6 & H7) _. simpl.
    destruct (_apply_power_up_heap g0 r) as (_ & [Hh | Hh]); rewrite Hh;
      rewrite ?length_store;
      unfold _apply_power_up; destruct (type (deref (heap g0) r)); simpl;
      try (destruct (_ >? 3); simpl); auto 10.
  - auto 10.
Qed.

Lemma spawn_step_meta (g g' : Game) (ds : list Cell) (e : Env) :
  spawn_step g e = Done (g', ds) ->
  state g' = state g /\ settings g' = settings g /\
  high_score g' = high_score g /\ score g' = score g /\
  recording_buffer g' = recording_buffer g /\
  let due := power_up_spawn_timer g + 1 >=? FPS * 15 in
  power_up_spawn_timer g' = (if due then 0 else power_up_spawn_timer g + 1) /\
  length (heap g') =
    (if due then S (length (heap g)) else length (heap g)) /\
  length (power_ups g') =
    (if due then S (length (power_ups g)) else length (power_ups g)).
Proof.
  unfold spawn_step. intros H. cbv zeta in *.
  change (power_up_spawn_timer
            (set_power_up_spawn_timer g (power_up_spawn_timer g + 1)))
    with (power_up_spawn_timer g + 1) in H.
  destruct (power_up_spawn_timer g + 1 >=? FPS * 15).
  - bind_inv H. destruct a as [g3 ds3]. inversion H; subst. clear H.
    unfold _spawn_power_up in E. bind_inv E. destruct a as [pos rest].
    simpl in E. inversion E; subst. simpl.
    rewrite !length_app. simpl. repeat split; auto; lia.
  - inversion H; subst. simpl. auto 10.
Qed.

Lemma game_over_step_meta (g g' : Game) (d d' : Disk) (e : Env) :
  game_over_step g d e = Done (g', d') ->
  score g' = score g /\
  power_up_spawn_timer g' = power_up_spawn_timer g /\
  recording_buffer g' = recording_buffer g.
Proof.
  unfold game_over_step. intros H. bind_inv H. destruct a as [g5 d5].
  inversion H; subst. simpl.
  destruct (negb (high_score g)) in E.
  - bind_inv E. destruct a as [[st b] d6]. inversion E; subst. simpl. auto.
  - inversion E; subst. auto.
Qed.

(** The food block: either the head is off the food and nothing changes,
    or the head is on it and the score grows by the score multiplier, the
    growth flag is set and the food moves to a drawn cell off the body. *)
Lemma eat_step_cases (G : Globals) (g g' : Game) (d d' : Disk)
      (ds : list Cell) :
  eat_step G g d ds = Done (g', d') ->
  d' = d /\
  state g' = state g /\ settings g' = settings g /\
  high_score g' = high_score g /\
  power_up_spawn_timer g' = power_up_spawn_timer g /\
  ((g' = g /\ body0 (snake g) <> Done (food g)) \/
   (body0 (snake g) = Done (food g) /\
    score g' = score g + score_multiplier (snake g) /\
    snake g' = set_grow (snake g) true /\
    In (food g') ds /\ ~ In (food g') (body (snake g)) /\
    recording_buffer g'
    = play_sound G (eat_sound G) (recording_buffer g))).
Proof.
  unfold eat_step. intros H. bind_inv H. rename a into head.
  destruct (cell_eqb head (food g)) eqn:Eh.
  - bind_inv H. destruct a as [nf rest]. inversion H; subst. simpl.
    apply sample_free_spec in E0. destruct E0 as (Hin & Hfree & _).
    simpl in Hfree. apply cell_in_false in Hfree.
    apply cell_eqb_eq in Eh. subst head.
    repeat split; auto. right. repeat split; auto.
    destruct (score_multiplier (snake g)); reflexivity.
  - inversion H; subst. repeat split; auto. left. split; auto.
    intros Hx. inversion Hx; subst. rewrite cell_eqb_refl in Eh. discriminate.
Qed.

(** X9. The spawn timer of a reachable game stays in [0, 900).  A frame of
    a game in play allocates a power-up exactly when the timer stands at
    899 (every 900th frame of the game), resetting the timer to 0; in every
    other frame the timer advances by one and no power-up is created. *)
Theorem X9_a_power_up_spawns_every_900th_frame :
  forall a : App,
    reachable a ->
    0 <= power_up_spawn_timer (game a) < FPS * 15 /\
    (forall e a',
        state (game a) = PLAYING ->
        step a FRAME e = Done (Running a') ->
        (power_up_spawn_timer (game a) = FPS * 15 - 1 ->
         power_up_spawn_timer (game a') = 0 /\
         length (heap (game a')) = S (length (heap (game a)))) /\
        (power_up_spawn_timer (game a) < FPS * 15 - 1 ->
         power_up_spawn_timer (game a')
         = power_up_spawn_timer (game a) + 1 /\
         length (heap (game a')) = length (heap (game a)))).
Proof.
  assert (Hframe : forall G g d e g' d',
             wf g -> _update_game G g d e = Done (g', d') ->
             let due := power_up_spawn_timer g + 1 >=? FPS * 15 in
             power_up_spawn_timer g'
             = (if due then 0 else power_up_spawn_timer g + 1) /\
             length (heap g')
             = (if due then S (length (heap g)) else length (heap g))).
  { intros G g d e g' d' Hwf H.
    destruct (_update_game_stages _ _ _ _ _ _ H)
      as (g1 & g2 & ds & s & alive & buf & Hup & Hsp & Hmv & Hrest).
    rewrite (_update_power_ups_wf g Hwf) in Hup. inversion Hup; subst g1.
    apply spawn_step_meta in Hsp.
    destruct Hsp as (_ & _ & _ & _ & _ & Ht & Hh & _).
    destruct Hrest as [[_ Hgo]|[_ (g4 & Hcol & Heat)]].
    - pose proof (game_over_step_meta _ _ _ _ _ Hgo) as (_ & Ht' & _).
      apply game_over_step_board in Hgo. destruct Hgo as (_ & _ & _ & Hh' & _).
      cbv zeta. rewrite Ht', Hh'. simpl. auto.
    - apply collect_loop_meta in Hcol.
      destruct Hcol as (_ & _ & _ & _ & Ht4 & Hh4 & _).
      pose proof (eat_step_cases _ _ _ _ _ _ Heat) as (_ & _ & _ & _ & Ht' & _).
      apply eat_step_body in Heat. destruct Heat as (_ & _ & Hh' & _).
      cbv zeta. rewrite Ht', Hh', Ht4, Hh4. simpl. auto. }
  assert (Hrange : forall a, reachable a ->
             wf (game a) /\ 0 <= power_up_spawn_timer (game a) < FPS * 15).
  { intros a (G & st & d & e0 & evs & a0 & Hfresh & Hrun).
    refine (run_game_inv
              (fun g => wf g /\ 0 <= power_up_spawn_timer g < FPS * 15)
              _ _ _ _ _ _ _ evs a0 a _ Hrun).
    - intros G0 g d0 e g' d' (Hwf & Hr) _ H.
      split; [eapply _update_game_wf; eauto|].
      destruct (Hframe _ _ _ _ _ _ Hwf H) as (Ht & _). rewrite Ht.
      destruct (Z.geb_spec (power_up_spawn_timer g + 1) (FPS * 15));
        unfold FPS in *; lia.
    - intros g dir _ H; exact H.
    - intros g H; exact H.
    - intros g v H; exact H.
    - intros g v H; exact H.
    - intros g v _ H; exact H.
    - intros G0 g e g' (Hwf & _) H. unfold _start_new_game in H.
      destruct (draws e); [discriminate|]. inversion H; subst.
      unfold wf; simpl. unfold FPS.
      split; [|lia]. split; [constructor|]. split; [constructor|]. apply Hwf.
    - unfold fresh_app, fresh_game, _start_new_game in Hfresh.
      destruct (draws e0); simpl in Hfresh; [discriminate|].
      inversion Hfresh; subst. unfold wf; simpl. unfold FPS.
      split; [|lia]. repeat split; constructor. }
  intros a Hr. destruct (Hrange a Hr) as (Hwf & Hrg). split; [exact Hrg|].
  intros e a' Hst H. unfold step in H. rewrite Hst in H.
  bind_inv H. rename a0 into a1. bind_inv E. destruct a0 as [g1 d1].
  inversion E; subst. simpl in H.
  destruct (running a); inversion H; subst. simpl.
  destruct (Hframe _ _ _ _ _ _ Hwf E0) as (Ht & Hh).
  rewrite Ht, Hh.
  destruct (Z.geb_spec (power_up_spawn_timer (game a) + 1) (FPS * 15));
    split; intros; split; auto; unfold FPS in *; lia.
Qed.

Lemma X9_witness :
  0 <= power_up_spawn_timer (game played_app) < FPS * 15.
Proof.
  exact (proj1 (X9_a_power_up_spawns_every_900th_frame
                  played_app played_app_reachable)).
Defined.

(** ** The high-score store *)

Lemma hs_get_set_same (h : HighScores) (d : Difficulty) (v : Z) :
  hs_get (hs_set h d v) d = v.
Proof. destruct d; reflexivity. Qed.

Lemma hs_get_set_other (h : HighScores) (d k : Difficulty) (v : Z) :
  k <> d -> hs_get (hs_set h d v) k = hs_get h k.
Proof. destruct d, k; simpl; congruence. Qed.

(** X10. When [save_high_score] returns, its result tells whether the score
    beat the stored best of the selected difficulty; afterwards the stored
    best of that difficulty is the larger of the two, the bests of the
    other difficulties and the other settings are untouched, and when the
    score was a new best the file holds exactly the table in memory (so
    reloading it gives the same table back) while the capture file is left
    alone; otherwise neither the settings nor the disk change. *)
Theorem X10_save_high_score_keeps_the_maximum :
  forall (st st' : Settings) (score : Z) (d d' : Disk) (ok b : bool),
    save_high_score st score d ok = Done (st', b, d') ->
    let best := hs_get (high_scores st) (difficulty st) in
    b = (score >? best) /\
    difficulty st' = difficulty st /\
    volume st' = volume st /\ pro_controller st' = pro_controller st /\
    hs_get (high_scores st') (difficulty st) = Z.max best score /\
    (forall k, k <> difficulty st ->
               hs_get (high_scores st') k = hs_get (high_scores st) k) /\
    (b = true ->
       ok = true /\
       high_score_file d' = Some (high_scores st') /\
       _load_high_scores d' = high_scores st' /\
       wav_file d' = wav_file d) /\
    (b = false -> st' = st /\ d' = d).
Proof.
  intros st st' score d d' ok b H best. unfold save_high_score in H.
  fold best in H.
  destruct (score >? best) eqn:E.
  - destruct ok; [|discriminate]. inversion H; subst. simpl.
    apply Z.gtb_lt in E.
    rewrite hs_get_set_same.
    repeat split; auto; try discriminate.
    + lia.
    + intros k Hk. apply hs_get_set_other, Hk.
  - inversion H; subst.
    assert (Hle : score <= best).
    { destruct (Z.gtb_spec score best); [discriminate | lia]. }
    repeat split; auto; try discriminate. lia.
Qed.

Lemma X10_witness :
  exists st' d',
    save_high_score (default_settings Normal) 10 (mkDisk None None) true
      = Done (st', true, d') /\
    high_scores st' = mkHighScores 0 10 0 0 /\
    _load_high_scores d' = mkHighScores 0 10 0 0.
Proof.
  destruct (save_high_score (default_settings Normal) 10 (mkDisk None None)
                            true) as [[[st' b] d']| |] eqn:E;
    try (vm_compute in E; discriminate E).
  destruct (X10_save_high_score_keeps_the_maximum _ _ _ _ _ _ _ E)
    as (Hb & _ & _ & _ & _ & _ & Hnew & _).
  assert (Hbt : b = true) by (rewrite Hb; reflexivity). subst b.
  destruct (Hnew eq_refl) as (_ & _ & Hload & _).
  exists st', d'. split; [reflexivity|].
  assert (Hst : high_scores st' = mkHighScores 0 10 0 0)
    by (vm_compute in E; inversion E; reflexivity).
  split; [exact Hst | rewrite Hload; exact Hst].
Defined.

(** ** The two ways a frame of a game in play can end *)

Lemma _update_game_phase (G : Globals) (g g' : Game) (d d' : Disk) (e : Env) :
  wf g -> dead (snake g) = false -> high_score g = false ->
  _update_game G g d e = Done (g', d') ->
  (dead (snake g') = false /\ state g' = state g /\
   high_score g' = false /\ settings g' = settings g /\ d' = d /\
   ((score g' = score g /\ food g' = food g) \/
    (score g' = score g + score_multiplier (snake g') /\
     grow (snake g') = true /\
     body0 (snake g') = Done (food g) /\
     In (food g') (draws e) /\
     ~ In (food g') (body (snake g'))))) \/
  (dead (snake g') = true /\ state g' = GAME_OVER /\
   score g' = score g /\ food g' = food g /\
   body (snake g') = body (snake g) /\
   exists b,
     save_high_score (settings g) (score g) d (disk_ok e)
       = Done (settings g', b, d') /\
     high_score g' = b).
Proof.
  intros Hwf Hd Hhs H.
  destruct (_update_game_stages _ _ _ _ _ _ H)
    as (g1 & g2 & ds & s & alive & buf & Hup & Hsp & Hmv & Hrest).
  rewrite (_update_power_ups_wf g Hwf) in Hup. inversion Hup; subst g1.
  pose proof (spawn_step_meta _ _ _ _ Hsp) as (Hst2 & Hse2 & Hhs2 & Hsc2 & _).
  pose proof (spawn_step_snake _ _ _ _ Hsp) as (Hs2 & Hf2 & _ & Hsub).
  pose proof (move_alive _ _ _ _ _ _ _ Hmv) as Halive.
  destruct (move_body_incl _ _ _ _ _ _ _ Hmv) as (Hbsame & _).
  destruct Hrest as [[Ha Hgo]|[Ha (g4 & Hcol & Heat)]].
  - right. pose proof (game_over_step_meta _ _ _ _ _ Hgo) as (Hsc & _).
    pose proof (game_over_step_board _ _ _ _ _ Hgo) as (Hsn & Hfd & _ & _ & Hst).
    rewrite Hsn, Hsc, Hfd. simpl.
    rewrite Ha in Halive. symmetry in Halive. apply negb_false_iff in Halive.
    rewrite (Hbsame Ha), Hs2.
    repeat split; auto; try congruence.
    unfold game_over_step in Hgo. simpl in Hgo.
    rewrite Hhs2, Hhs in Hgo. simpl in Hgo.
    rewrite Hse2, Hsc2 in Hgo.
    destruct (save_high_score (settings g) (score g) d (disk_ok e))
      as [[[st b] d6]| |]; simpl in Hgo; try discriminate.
    inversion Hgo; subst. simpl. eauto.
  - left.
    pose proof (collect_loop_meta _ _ _ Hcol)
      as (Hst4 & Hse4 & Hhs4 & Hsc4 & _).
    pose proof (collect_loop_board _ _ _ Hcol) as (Hf4 & Hd4 & _).
    simpl in Hst4, Hse4, Hhs4, Hsc4, Hf4, Hd4.
    pose proof (eat_step_body _ _ _ _ _ _ Heat)
      as (Hb & _ & _ & _ & _ & Hc' & _ & Hd').
    pose proof (eat_step_cases _ _ _ _ _ _ Heat)
      as (-> & Hst' & Hse' & Hhs' & _ & Hcases).
    rewrite Ha in Halive. symmetry in Halive. apply negb_true_iff in Halive.
    repeat split; try congruence.
    destruct Hcases as [(-> & _) | (Hhead & Hsc' & Hsn' & Hin & Hfree)].
    + left. split; congruence.
    + right. destruct Hfree as (Hfree & _).
      split; [rewrite Hsc', Hc'; congruence|].
      split; [rewrite Hsn'; reflexivity|].
      split; [unfold body0 in *; rewrite Hb, Hhead; congruence|].
      split; [auto|]. rewrite Hb. exact Hfree.
Qed.

(** The phase of a reachable game: [PAUSED], [SETTINGS] and [CREDITS] are
    never entered; the snake of a game in play is alive and its best-score
    flag is down; the snake of a finished game is dead. *)
Definition phase_ok (g : Game) : Prop :=
  (state g = TITLE \/ state g = PLAYING \/ state g = GAME_OVER) /\
  (state g = PLAYING -> dead (snake g) = false /\ high_score g = false) /\
  (state g = GAME_OVER -> dead (snake g) = true) /\
  0 <= score g.

Lemma reachable_phase_ok (a : App) : reachable a -> phase_ok (game a).
Proof.
  intros (G & st & d & e0 & evs & a0 & Hfresh & Hrun).
  assert (Hnew : forall G0 g e g',
             _start_new_game G0 g e = Done g' -> phase_ok g').
  { intros G0 g e g' H. unfold _start_new_game in H.
    destruct (draws e) as [|c ds]; [discriminate|]. inversion H; subst.
    unfold phase_ok. simpl. repeat split; auto; try discriminate. }
  assert (Hwf0 : wf (game a0)) by (eapply fresh_app_wf; eauto).
  assert (Hall : wf (game a) /\ snake_ok (snake (game a)) /\
                 phase_ok (game a)); [|tauto].
  refine (run_game_inv
            (fun g => wf g /\ snake_ok (snake g) /\ phase_ok g)
            _ _ _ _ _ _ _ evs a0 a _ Hrun).
  - intros G0 g d0 e g' d' (Hwf & Hok & Hst & Hpl & Hgo & Hsc) Hplaying H.
    destruct (Hpl Hplaying) as (Hd & Hhs).
    pose proof (_update_game_snake_ok _ _ _ _ _ _ H Hok) as Hok'.
    split; [eapply _update_game_wf; eauto|]. split; [exact Hok'|].
    destruct (_update_game_phase _ _ _ _ _ _ Hwf Hd Hhs H)
      as [(Hd' & Hst' & Hhs' & _ & _ & Hscore) |
          (Hd' & Hst' & Hsc' & _)].
    + unfold phase_ok. rewrite Hst', Hplaying.
      repeat split; auto; try discriminate.
      destruct Hscore as [(-> & _) | (-> & _)]; [exact Hsc|].
      destruct Hok' as (_ & _ & _ & _ & _ & [-> | ->]); lia.
    + unfold phase_ok. rewrite Hst', Hsc'.
      repeat split; auto; discriminate.
  - intros g dir Hdir (Hwf & Hok & Hph).
    split; [exact Hwf|]. split; [apply change_direction_snake_ok; auto|].
    unfold phase_ok in *. simpl.
    assert (Hd : dead (change_direction (snake g) dir) = dead (snake g)).
    { unfold change_direction. destruct (not_reverse _ _); reflexivity. }
    rewrite Hd. exact Hph.
  - intros g (Hwf & Hok & Hst & Hpl & Hgo & Hsc).
    split; [exact Hwf|]. split; [exact Hok|].
    unfold phase_ok. simpl. repeat split; auto; discriminate.
  - intros g v H; exact H.
  - intros g v H; exact H.
  - intros g v _ H; exact H.
  - intros G0 g e g' (Hwf & _) H.
    split; [|split; [|eapply Hnew; exact H]].
    + unfold _start_new_game in H.
      destruct (draws e); [discriminate|]. inversion H; subst.
      unfold wf; simpl. split; [constructor|]. split; [constructor|].
      apply Hwf.
    + unfold _start_new_game in H.
      destruct (draws e); [discriminate|]. inversion H; subst.
      apply Snake_init_ok.
  - split; [exact Hwf0|]. unfold fresh_app, fresh_game in Hfresh.
    bind_inv Hfresh. inversion Hfresh; subst. simpl.
    split; [|eapply Hnew; exact E].
    unfold _start_new_game in E.
    destruct (draws e0); [discriminate|]. inversion E; subst.
    apply Snake_init_ok.
Qed.

(** A frame of a game in play, seen from the program. *)
Lemma step_frame_playing (a a' : App) (e : Env) :
  state (game a) = PLAYING ->
  step a FRAME e = Done (Running a') ->
  _update_game (globals a) (game a) (disk a) e = Done (game a', disk a') /\
  globals a' = globals a.
Proof.
  intros Hst H. unfold step in H. rewrite Hst in H.
  bind_inv H. rename a0 into a1. bind_inv E. destruct a0 as [g1 d1].
  inversion E; subst. simpl in H.
  destruct (running a); inversion H; subst. simpl. auto.
Qed.



(** X12. When the snake of a reachable game in play dies in a frame, the
    game goes to [GAME_OVER] in that same frame with score, food and body
    as they were; the stored best of the selected difficulty becomes the
    larger of the old best and the score, the bests of the other
    difficulties stay, the best-score flag tells whether the score was a
    new best, and the file is rewritten with the table in memory exactly in
    that case. *)
Theorem X12_death_ends_the_game_and_records_the_best :
  forall (a a' : App) (e : Env),
    reachable a ->
    state (game a) = PLAYING ->
    step a FRAME e = Done (Running a') ->
    dead (snake (game a')) = true ->
    let st := settings (game a) in
    let st' := settings (game a') in
    let best := hs_get (high_scores st) (difficulty st) in
    state (game a') = GAME_OVER /\
    score (game a') = score (game a) /\
    food (game a') = food (game a) /\
    body (snake (game a')) = body (snake (game a)) /\
    difficulty st' = difficulty st /\
    hs_get (high_scores st') (difficulty st) = Z.max best (score (game a)) /\
    (forall k, k <> difficulty st ->
               hs_get (high_scores st') k = hs_get (high_scores st) k) /\
    high_score (game a') = (score (game a) >? best) /\
    (score (game a) > best ->
       disk_ok e = true /\
       high_score_file (disk a') = Some (high_scores st')) /\
    (score (game a) <= best -> disk a' = disk a /\ st' = st).
Proof.
  intros a a' e Hr Hst H Hdead st st' best.
  destruct (step_frame_playing _ _ _ Hst H) as (Hup & _).
  pose proof (reachable_wf a Hr) as Hwf.
  destruct (reachable_phase_ok a Hr) as (_ & Hpl & _).
  destruct (Hpl Hst) as (Hd & Hhs).
  destruct (_update_game_phase _ _ _ _ _ _ Hwf Hd Hhs Hup)
    as [(Hd' & _) | (_ & Hst' & Hsc' & Hf' & Hb' & b & Hsave & Hflag)];
    [congruence|].
  fold st st' in Hsave. unfold save_high_score in Hsave. fold best in Hsave.
  split; [exact Hst'|]. split; [exact Hsc'|]. split; [exact Hf'|].
  split; [exact Hb'|]. rewrite Hflag.
  destruct (score (game a) >? best) eqn:E.
  - apply Z.gtb_lt in E.
    destruct (disk_ok e); [|discriminate]. inversion Hsave as [[Hs Hbb Hdd]].
    simpl. rewrite hs_get_set_same.
    repeat split; auto; try lia.
    intros k Hk. apply hs_get_set_other, Hk.
  - assert (Hle : score (game a) <= best).
    { destruct (Z.gtb_spec (score (game a)) best); [discriminate | lia]. }
    inversion Hsave as [[Hs Hbb Hdd]].
    repeat split; auto; try lia.
Qed.

Lemma X12_witness :
  let a := app_after (frames_from 0 89 [(5, 5)] SPEED true)
                     (start_app (18, 16) Normal) in
  let a' := app_after (wall_run true) (start_app (18, 16) Normal) in
  state (game a') = GAME_OVER /\
  hs_get (high_scores (settings (game a'))) Normal = 1.
Proof.
  intros a a'.
  assert (Hr : reachable a).
  { exists quiet_globals, (default_settings Normal), (mkDisk None None),
      (start_env (18, 16)), (frames_from 0 89 [(5, 5)] SPEED true),
      (start_app (18, 16) Normal).
    split; [reflexivity | vm_compute; reflexivity]. }
  assert (Hst : state (game a) = PLAYING) by (vm_compute; reflexivity).
  assert (Hstep : step a FRAME (env_at 90 [(5, 5)] SPEED true)
                  = Done (Running a')) by (vm_compute; reflexivity).
  assert (Hd : dead (snake (game a')) = true) by (vm_compute; reflexivity).
  destruct (X12_death_ends_the_game_and_records_the_best
              a a' _ Hr Hst Hstep Hd) as (H1 & _ & _ & _ & _ & H6 & _).
  split; [exact H1|].
  assert (Hdiff : difficulty (settings (game a)) = Normal)
    by (vm_compute; reflexivity).
  rewrite Hdiff in H6. rewrite H6. vm_compute. reflexivity.
Defined.

(** ** States of the game-state machine *)

(** In a state other than [TITLE] and [PLAYING] no event touches the game,
    the module state or the disk, and none raises. *)
Lemma step_frozen (a : App) (ev : event) (e : Env) :
  state (game a) <> TITLE -> state (game a) <> PLAYING ->
  (exists a', step a ev e = Done (Running a') /\
              game a' = game a /\ globals a' = globals a /\
              disk a' = disk a) \/
  (exists d, step a ev e = Done (Quitted d) /\ running a = false).
Proof.
  intros Ht Hp.
  assert (Hin : forall a1, state (game a1) = state (game a) ->
             handle_input a1 ev e = Done (Running a1)).
  { intros a1 H1. unfold handle_input. rewrite H1.
    destruct (state (game a)); congruence. }
  unfold step. destruct ev.
  - left. exists a. rewrite Hin; auto.
  - left. exists a. rewrite Hin; auto.
  - left. exists a. rewrite Hin; auto.
  - left. eexists. rewrite Hin; [|reflexivity]. simpl. auto.
  - assert (Hs : match state (game a) with
                 | PLAYING =>
                     '(g, d) <- _update_game (globals a) (game a) (disk a) e ;;
                     Done (mkApp (globals a) g d (running a))
                 | _ => Done a
                 end = Done a).
    { destruct (state (game a)); congruence. }
    rewrite Hs. simpl. destruct (running a) eqn:Er.
    + left. exists a. auto.
    + right. eexists. split; [reflexivity | reflexivity].
Qed.

(** X13. A reachable game is in one of the states [TITLE], [PLAYING] and
    [GAME_OVER] ([PAUSED], [SETTINGS] and [CREDITS] are never entered).
    The snake of a game in play is alive and the snake of a finished game
    is dead.  [GAME_OVER] is final: no run of events changes the game
    object, the module state or the disk, and none raises; the program then
    only waits to be closed. *)
Theorem X13_game_over_is_final :
  forall a : App,
    reachable a ->
    (state (game a) = TITLE \/ state (game a) = PLAYING \/
     state (game a) = GAME_OVER) /\
    (state (game a) = PLAYING -> dead (snake (game a)) = false) /\
    (state (game a) = GAME_OVER ->
     dead (snake (game a)) = true /\
     forall evs,
       (exists a', run evs a = Done (Running a') /\
                   game a' = game a /\ globals a' = globals a /\
                   disk a' = disk a) \/
       (exists d, run evs a = Done (Quitted d))).
Proof.
  intros a Hr. destruct (reachable_phase_ok a Hr) as (Hst & Hpl & Hgo & _).
  split; [exact Hst|]. split; [intros H; apply Hpl, H|].
  intros Hover. split; [apply Hgo, Hover|].
  assert (Ht : state (game a) <> TITLE) by congruence.
  assert (Hp : state (game a) <> PLAYING) by congruence.
  clear Hr Hst Hpl Hgo Hover. intros evs. revert a Ht Hp.
  induction evs as [|[ev e] rest IH]; simpl; intros a Ht Hp.
  - left. eauto.
  - destruct (step_frozen a ev e Ht Hp)
      as [(a1 & Hs & Hg & HG & Hd) | (d & Hs & _)]; rewrite Hs; simpl;
      [|right; eauto].
    destruct (IH a1) as [(a' & Hrun & Hg' & HG' & Hd') | (d & Hrun)];
      try (rewrite Hg; assumption).
    + left. exists a'. repeat split; congruence.
    + right. eauto.
Qed.

Lemma X13_witness :
  let a := app_after (wall_run true) (start_app (18, 16) Normal) in
  state (game a) = GAME_OVER /\ dead (snake (game a)) = true.
Proof.
  intros a.
  assert (Hr : reachable a).
  { exists quiet_globals, (default_settings Normal), (mkDisk None None),
      (start_env (18, 16)), (wall_run true), (start_app (18, 16) Normal).
    split; [reflexivity | vm_compute; reflexivity]. }
  assert (Hst : state (game a) = GAME_OVER) by (vm_compute; reflexivity).
  destruct (X13_game_over_is_final a Hr) as (_ & _ & Hgo).
  split; [exact Hst | exact (proj1 (Hgo Hst))].
Defined.

(** ** Exporting the capture buffer *)

Lemma np_concatenate_rec_frames (fs : list (list (Z * Z))) :
  np_concatenate_rec (map Frames fs) = Done (concat fs).
Proof.
  induction fs as [|f fs IH]; simpl; [reflexivity|]. rewrite IH. reflexivity.
Qed.

Lemma np_concatenate_rec_scalar (buf : list ndarray) :
  In ObjScalar buf -> np_concatenate_rec buf = Raised ValueError.
Proof.
  induction buf as [|x buf IH]; simpl; [tauto|].
  destruct x as [f|]; [|reflexivity].
  intros [Hx | Hx]; [discriminate|]. rewrite (IH Hx). reflexivity.
Qed.

Lemma int16_id (v : Z) : -32768 <= v <= 32767 -> int16 v = v.
Proof.
  intros H. unfold int16. rewrite Z.mod_small by lia. lia.
Qed.

Lemma int16_range (v : Z) : -32768 <= int16 v <= 32767.
Proof.
  unfold int16. pose proof (Z.mod_pos_bound (v + 32768) 65536). lia.
Qed.

Definition is_int16 (s : Z * Z) : Prop :=
  -32768 <= fst s <= 32767 /\ -32768 <= snd s <= 32767.

Lemma astype_int16_id (f : list (Z * Z)) :
  Forall is_int16 f -> astype_int16 f = f.
Proof.
  unfold astype_int16. induction 1 as [|[l r] f (Hl & Hr) _ IH]; simpl;
    [reflexivity|].
  simpl in Hl, Hr. rewrite IH, !int16_id by assumption. reflexivity.
Qed.

Lemma length_concat_sum (fs : list (list (Z * Z))) :
  length (concat fs) = list_sum (map (@length _) fs).
Proof.
  induction fs as [|f fs IH]; simpl; [reflexivity|].
  rewrite length_app, IH. reflexivity.
Qed.

(** X14. [save_recording] never touches the high-score file and never
    raises.  On a non-empty buffer of frame arrays, with the file writable,
    it writes the arrays concatenated in buffer order, each sample cast to
    int16: the exported frame count is the sum of the arrays' frame counts,
    and samples that are already in the int16 range are written unchanged.
    It leaves the disk as it is when the buffer is empty, when an element
    is not a frame array (the concatenation fails), or when the file is not
    writable. *)
Theorem X14_save_recording_exports_the_concatenation :
  (forall (buf : list ndarray) (d : Disk) (ok : bool),
      high_score_file (save_recording buf d ok) = high_score_file d) /\
  (forall (fs : list (list (Z * Z))) (d : Disk),
      fs <> [] ->
      let d' := save_recording (map Frames fs) d true in
      wav_file d' = Some (astype_int16 (concat fs)) /\
      (forall out, wav_file d' = Some out ->
                   length out = list_sum (map (@length _) fs) /\
                   Forall is_int16 out) /\
      (Forall (Forall is_int16) fs -> wav_file d' = Some (concat fs))) /\
  (forall (d : Disk) (ok : bool), save_recording [] d ok = d) /\
  (forall (buf : list ndarray) (d : Disk) (ok : bool),
      In ObjScalar buf -> save_recording buf d ok = d) /\
  (forall (buf : list ndarray) (d : Disk), save_recording buf d false = d).
Proof.
  split; [|split; [|split; [|split]]].
  - intros buf d ok. unfold save_recording. destruct buf; [reflexivity|].
    destruct (np_concatenate _); [|reflexivity..]. destruct ok; reflexivity.
  - intros fs d Hne d'.
    assert (Hd : d' = mkDisk (high_score_file d)
                             (Some (astype_int16 (concat fs)))).
    { subst d'. unfold save_recording, np_concatenate.
      destruct fs as [|f fs]; [congruence|].
      change (Frames f :: map Frames fs) with (map Frames (f :: fs)).
      rewrite np_concatenate_rec_frames. reflexivity. }
    rewrite Hd. simpl. split; [reflexivity|]. split.
    + intros out Hout. inversion Hout; subst. split.
      * unfold astype_int16. rewrite length_map. apply length_concat_sum.
      * unfold astype_int16. apply Forall_map. apply Forall_forall.
        intros s _. split; apply int16_range.
    + intros Hall. rewrite astype_int16_id; [reflexivity|].
      apply Forall_concat. exact Hall.
  - reflexivity.
  - intros buf d ok Hin. unfold save_recording, np_concatenate.
    destruct buf as [|x buf]; [reflexivity|].
    rewrite (np_concatenate_rec_scalar _ Hin). reflexivity.
  - intros buf d. unfold save_recording. destruct buf; [reflexivity|].
    destruct (np_concatenate _); reflexivity.
Qed.

Lemma X14_witness :
  wav_file (save_recording
              (map Frames [[(1, -1); (2, -2)]; [(3, -3)]])
              (mkDisk None None) true)
  = Some [(1, -1); (2, -2); (3, -3)].
Proof.
  assert (Hne : [[(1, -1); (2, -2)]; [(3, -3)]] <> ([] : list (list (Z * Z))))
    by discriminate.
  destruct (proj1 (proj2 X14_save_recording_exports_the_concatenation)
                  [[(1, -1); (2, -2)]; [(3, -3)]] (mkDisk None None) Hne)
    as (_ & _ & Hid).
  apply Hid. repeat constructor; simpl; lia.
Defined.

(** ** What reaches the capture buffer and the capture file *)

Lemma move_buffer (G : Globals) (s s' : Snake) (t : Q)
      (buf buf' : list ndarray) (alive : bool) :
  move G s t buf = Done (s', alive, buf') ->
  buf' = buf \/ exists snd, buf' = play_sound G snd buf.
Proof.
  unfold move. intros H.
  destruct (dead s); [inversion H; auto|].
  destruct (Qltb _ _); [inversion H; auto|].
  bind_inv H. cbv zeta in H.
  repeat match type of H with
         | context [if ?c then _ else _] => destruct c
         end; inversion H; eauto.
Qed.

Lemma game_over_step_wav (g g' : Game) (d d' : Disk) (e : Env) :
  game_over_step g d e = Done (g', d') -> wav_file d' = wav_file d.
Proof.
  unfold game_over_step. intros H. bind_inv H. destruct a as [g5 d5].
  inversion H; subst. clear H.
  destruct (negb (high_score g)).
  - bind_inv E. destruct a as [[st b] d6]. inversion E; subst.
    unfold save_high_score in E0.
    destruct (_ >? _); [|inversion E0; reflexivity].
    destruct (disk_ok e); inversion E0; reflexivity.
  - inversion E; reflexivity.
Qed.

(** A frame changes the capture buffer only through [play_sound], and never
    touches the capture file. *)
Lemma _update_game_buffer (P : list ndarray -> Prop) (G : Globals)
      (g g' : Game) (d d' : Disk) (e : Env) :
  (forall snd buf, P buf -> P (play_sound G snd buf)) ->
  P (recording_buffer g) ->
  _update_game G g d e = Done (g', d') ->
  P (recording_buffer g') /\ wav_file d' = wav_file d.
Proof.
  intros Hplay HP H.
  destruct (_update_game_stages _ _ _ _ _ _ H)
    as (g1 & g2 & ds & s & alive & buf & H1 & H2 & H3 & H4).
  assert (B1 : recording_buffer g1 = recording_buffer g).
  { revert H1. unfold _update_power_ups.
    apply (_update_power_ups_loop_inv
             (fun y => recording_buffer y = recording_buffer g));
      intros; simpl; auto. }
  destruct (spawn_step_meta _ _ _ _ H2) as (_ & _ & _ & _ & B2 & _).
  assert (B3 : P buf).
  { destruct (move_buffer _ _ _ _ _ _ _ H3) as [-> | (snd & ->)];
      rewrite B2, B1; auto. }
  cbv zeta in H4. destruct H4 as [(_ & Hg) | (_ & g4 & Hcol & Heat)].
  - destruct (game_over_step_meta _ _ _ _ _ Hg) as (_ & _ & B4).
    rewrite B4. simpl. split; [exact B3|].
    apply (game_over_step_wav _ _ _ _ _ Hg).
  - destruct (collect_loop_meta _ _ _ Hcol) as (_ & _ & _ & _ & _ & _ & B4).
    simpl in B4.
    destruct (eat_step_cases _ _ _ _ _ _ Heat)
      as (-> & _ & _ & _ & _ & [(-> & _) | (_ & _ & _ & _ & _ & B5)]).
    + rewrite B4. auto.
    + rewrite B5, B4. auto.
Qed.

(** A title input changes the capture buffer only through [play_sound]; it
    keeps the module state and the disk, unless it closes the program. *)
Lemma _handle_title_input_buffer (P : list ndarray -> Prop) (a : App)
      (ev : event) (e : Env) (p : process) :
  (forall snd buf, P buf -> P (play_sound (globals a) snd buf)) ->
  P (recording_buffer (game a)) ->
  _handle_title_input a ev e = Done p ->
  match p with
  | Running a' =>
      globals a' = globals a /\ disk a' = disk a /\
      running a' = running a /\ P (recording_buffer (game a'))
  | Quitted d' => quit_game a e = Quitted d'
  end.
Proof.
  intros Hplay HP.
  assert (Hmenu : forall delta,
             globals (menu_step a delta) = globals a /\
             disk (menu_step a delta) = disk a /\
             running (menu_step a delta) = running a /\
             P (recording_buffer (game (menu_step a delta)))).
  { intros delta. unfold menu_step. simpl. auto 10. }
  assert (Hsel : _select_menu_option a e = Done p ->
             match p with
             | Running a' =>
                 globals a' = globals a /\ disk a' = disk a /\
                 running a' = running a /\ P (recording_buffer (game a'))
             | Quitted d' => quit_game a e = Quitted d'
             end).
  { unfold _select_menu_option. intros H.
    destruct (selected (game a) =? 0).
    - bind_inv H. inversion H; subst. simpl.
      unfold _start_new_game in E. destruct (draws e); [discriminate|].
      inversion E; subst. simpl. auto 10.
    - destruct (selected (game a) =? 3); inversion H; subst; simpl; auto 10. }
  unfold _handle_title_input. intros H.
  destruct ev as [k|b|ax v| |].
  - destruct k; try (apply Hsel, H); inversion H; subst;
      try apply Hmenu; simpl; auto.
  - destruct (_ && _); [apply Hsel, H|]. inversion H; subst. auto.
  - repeat match type of H with
           | context [if ?c then _ else _] => destruct c
           end; inversion H; subst; try apply Hmenu; auto.
  - inversion H; subst. auto.
  - inversion H; subst. auto.
Qed.

(** A gameplay input other than the capture key keeps the module state,
    the disk and the capture buffer. *)
Lemma _handle_game_input_buffer (a : App) (ev : event) (e : Env) :
  ev <> KEYDOWN K_r ->
  let a' := _handle_game_input a ev e in
  globals a' = globals a /\ disk a' = disk a /\ running a' = running a /\
  recording_buffer (game a') = recording_buffer (game a).
Proof.
  intros Hev. unfold _handle_game_input, turn.
  destruct ev as [k|b|ax v| |]; simpl; auto.
  - destruct k; try congruence;
      repeat match goal with
             | |- context [if ?c then _ else _] => destruct c
             end; simpl; auto.
  - repeat match goal with
           | |- context [if ?c then _ else _] => destruct c
           end; simpl; auto.
Qed.

(** The key that toggles capture during play. *)
Definition event_is_capture_key (ev : event) : bool :=
  match ev with
  | KEYDOWN K_r => true
  | _ => false
  end.

(** An array that exposes no sample memory is all [play_sound] can append. *)
Definition opaque_only (buf : list ndarray) : Prop :=
  Forall (fun x => x = ObjScalar) buf.

Lemma play_sound_opaque (G : Globals) (snd : option Sound)
      (buf : list ndarray) :
  opaque_only buf -> opaque_only (play_sound G snd buf).
Proof.
  intros H. unfold play_sound, Sound_play, sndarray_samples.
  destruct snd; auto.
  destruct (AUDIO_ENABLED G), (RECORDING_ENABLED G), (numpy_view G); auto.
  apply Forall_app. split; [exact H|]. constructor; auto.
Qed.

Lemma save_recording_opaque (buf : list ndarray) (d : Disk) (ok : bool) :
  opaque_only buf -> save_recording buf d ok = d.
Proof.
  intros H. destruct buf as [|x buf]; [reflexivity|].
  unfold save_recording, np_concatenate.
  rewrite np_concatenate_rec_scalar; [reflexivity|].
  left. inversion H; subst. reflexivity.
Qed.

Lemma step_opaque (a : App) (ev : event) (e : Env) (p : process) :
  opaque_only (recording_buffer (game a)) ->
  step a ev e = Done p ->
  match p with
  | Running a' => opaque_only (recording_buffer (game a')) /\
                  wav_file (disk a') = wav_file (disk a)
  | Quitted d' => wav_file d' = wav_file (disk a)
  end.
Proof.
  intros HP.
  assert (Hquit : forall a1 d', opaque_only (recording_buffer (game a1)) ->
             quit_game a1 e = Quitted d' -> d' = disk a1).
  { intros a1 d' H1 H. unfold quit_game in H.
    rewrite (save_recording_opaque _ _ _ H1) in H.
    destruct (RECORDING_ENABLED _); inversion H; reflexivity. }
  assert (Hin : forall a1,
             game a1 = game a -> disk a1 = disk a ->
             handle_input a1 ev e = Done p ->
             match p with
             | Running a' => opaque_only (recording_buffer (game a')) /\
                             wav_file (disk a') = wav_file (disk a)
             | Quitted d' => wav_file d' = wav_file (disk a)
             end).
  { intros a1 Hg Hd H. unfold handle_input in H.
    assert (HP1 : opaque_only (recording_buffer (game a1)))
      by (rewrite Hg; exact HP).
    destruct (state (game a1)).
    - pose proof (_handle_title_input_buffer opaque_only a1 ev e p
                    (fun snd buf => play_sound_opaque _ snd buf) HP1 H) as Ht.
      destruct p as [a'|d'].
      + destruct Ht as (_ & Hd' & _ & Hb). split; [exact Hb|]. congruence.
      + rewrite (Hquit _ _ HP1 Ht). congruence.
    - inversion H; subst. clear H.
      destruct (event_is_capture_key ev) eqn:Ek.
      + destruct ev as [k| | | |]; try discriminate.
        destruct k; try discriminate. rewrite <- Hd, <- Hg in *.
        unfold _handle_game_input.
        destruct (negb (RECORDING_ENABLED _)); simpl; [|auto].
        destruct (recording_buffer (game a1)) eqn:Eb; simpl.
        * rewrite Eb. split; [constructor | reflexivity].
        * inversion HP1; subst. simpl. split; [constructor | reflexivity].
      + assert (Hev : ev <> KEYDOWN K_r).
        { intros ->. discriminate. }
        destruct (_handle_game_input_buffer a1 ev e Hev) as (_ & Hd' & _ & Hb).
        rewrite Hb, Hd'. split; congruence.
    - inversion H; subst. split; congruence.
    - inversion H; subst. split; congruence.
    - inversion H; subst. split; congruence.
    - inversion H; subst. split; congruence. }
  unfold step. destruct ev; try (apply Hin; reflexivity).
  intros H. bind_inv H. rename a0 into a1.
  assert (H1 : opaque_only (recording_buffer (game a1)) /\
               wav_file (disk a1) = wav_file (disk a)).
  { destruct (state (game a)); try (inversion E; subst; auto; fail).
    bind_inv E. destruct a0 as [g d]. inversion E; subst. simpl.
    apply (_update_game_buffer opaque_only _ _ _ _ _ _
             (fun snd buf => play_sound_opaque _ snd buf) HP E0). }
  destruct H1 as (Hb & Hw).
  destruct (running a1); inversion H as [Hp]; subst; [auto|].
  unfold quit_game. rewrite (Hquit a1 _ Hb eq_refl). exact Hw.
Qed.

Lemma play_sound_off (G : Globals) (snd : option Sound)
      (buf : list ndarray) :
  RECORDING_ENABLED G = false -> play_sound G snd buf = buf.
Proof.
  intros H. unfold play_sound. rewrite H.
  destruct snd; auto. destruct (AUDIO_ENABLED G); auto.
Qed.

Lemma step_capture_off (a : App) (ev : event) (e : Env) (p : process) :
  RECORDING_ENABLED (globals a) = false ->
  event_is_capture_key ev = false ->
  step a ev e = Done p ->
  match p with
  | Running a' =>
      recording_buffer (game a') = recording_buffer (game a) /\
      globals a' = globals a /\
      wav_file (disk a') = wav_file (disk a)
  | Quitted d' => wav_file d' = wav_file (disk a)
  end.
Proof.
  intros Hoff Hev.
  assert (Hne : ev <> KEYDOWN K_r) by (intros ->; discriminate).
  set (P := fun buf : list ndarray => buf = recording_buffer (game a)).
  assert (Hplay : forall snd buf, P buf -> P (play_sound (globals a) snd buf)).
  { intros snd buf Hb. unfold P. rewrite play_sound_off; auto. }
  assert (Hin : forall a1,
             game a1 = game a -> disk a1 = disk a -> globals a1 = globals a ->
             handle_input a1 ev e = Done p ->
             match p with
             | Running a' =>
                 recording_buffer (game a') = recording_buffer (game a) /\
                 globals a' = globals a /\
                 wav_file (disk a') = wav_file (disk a)
             | Quitted d' => wav_file d' = wav_file (disk a)
             end).
  { intros a1 Hg Hd HG H. unfold handle_input in H.
    destruct (state (game a1)).
    - assert (Hplay1 : forall snd buf,
                 P buf -> P (play_sound (globals a1) snd buf))
        by (rewrite HG; exact Hplay).
      assert (HP1 : P (recording_buffer (game a1)))
        by (unfold P; rewrite Hg; reflexivity).
      pose proof (_handle_title_input_buffer P a1 ev e p Hplay1 HP1 H) as Ht.
      destruct p as [a'|d'].
      + destruct Ht as (HG' & Hd' & _ & Hb). repeat split; congruence.
      + unfold quit_game in Ht. rewrite HG, Hoff in Ht.
        inversion Ht. congruence.
    - inversion H; subst. clear H.
      destruct (_handle_game_input_buffer a1 ev e Hne)
        as (HG' & Hd' & _ & Hb).
      repeat split; congruence.
    - inversion H; subst. repeat split; congruence.
    - inversion H; subst. repeat split; congruence.
    - inversion H; subst. repeat split; congruence.
    - inversion H; subst. repeat split; congruence. }
  unfold step. destruct ev; try (apply Hin; reflexivity).
  intros H. bind_inv H. rename a0 into a1.
  assert (H1 : recording_buffer (game a1) = recording_buffer (game a) /\
               globals a1 = globals a /\
               wav_file (disk a1) = wav_file (disk a)).
  { destruct (state (game a)); try (inversion E; subst; auto; fail).
    bind_inv E. destruct a0 as [g d]. inversion E; subst. simpl.
    destruct (_update_game_buffer P _ _ _ _ _ _ Hplay eq_refl E0) as (Hb & Hw).
    auto. }
  destruct H1 as (Hb & HG & Hw).
  destruct (running a1); inversion H; subst; [auto|].
  unfold quit_game. rewrite HG, Hoff. exact Hw.
Qed.

(** X15. No run writes the capture file.  [play_sound] hands the Channel
    returned by [sound.play()] to [pygame.sndarray.samples]; whichever way
    the library answers (it raises, or wraps the object in a 0-d array),
    the capture buffer of a program started by [Game()] only ever holds
    arrays without sample memory, and every export ([K_r] toggling capture
    off, [quit_game]) leaves [game_audio.wav] as it was at start-up. *)
Theorem X15_no_run_writes_the_capture_file :
  forall (G : Globals) (st : Settings) (d : Disk) (e0 : Env) (a0 : App)
         (evs : list (event * Env)),
    fresh_app G st d e0 = Done a0 ->
    match run evs a0 with
    | Done (Running a') =>
        opaque_only (recording_buffer (game a')) /\
        wav_file (disk a') = wav_file d
    | Done (Quitted d') => wav_file d' = wav_file d
    | _ => True
    end.
Proof.
  intros G st d e0 a0 evs H0.
  assert (Hb0 : opaque_only (recording_buffer (game a0)) /\ disk a0 = d).
  { unfold fresh_app, fresh_game, _start_new_game in H0.
    destruct (draws e0); [discriminate|]. simpl in H0.
    inversion H0; subst. simpl. split; [|reflexivity].
    apply play_sound_opaque. constructor. }
  destruct Hb0 as (Hb0 & <-). clear H0. revert a0 Hb0.
  induction evs as [|[ev e] rest IH]; simpl; intros a Hb; [auto|].
  destruct (step a ev e) as [p| |] eqn:Es; simpl; auto.
  pose proof (step_opaque _ _ _ _ Hb Es) as Hs.
  destruct p as [a1|d1]; [|exact Hs].
  destruct Hs as (Hb1 & Hw1). specialize (IH a1 Hb1).
  destruct (run rest a1) as [[a'|d']| |]; auto.
  - rewrite <- Hw1. exact IH.
  - rewrite <- Hw1. exact IH.
Qed.

Lemma X15_witness :
  match run capture_run (capture_app ViewWraps (mkSound [(7, 7)])
                                     (mkSound [(9, 9)])) with
  | Done (Running a') => wav_file (disk a') = None
  | _ => False
  end.
Proof.
  pose (G := mkGlobals true false (Some (mkSound [(9, 9)]))
                       (Some (mkSound [(7, 7)])) (Some (mkSound []))
                       (Some (mkSound [])) ViewWraps).
  assert (H0 : fresh_app G (default_settings Normal) (mkDisk None None)
                         (start_env (17, 16))
               = Done (capture_app ViewWraps (mkSound [(7, 7)])
                                   (mkSound [(9, 9)])))
    by (vm_compute; reflexivity).
  pose proof (X15_no_run_writes_the_capture_file
                G (default_settings Normal) (mkDisk None None)
                (start_env (17, 16)) _ capture_run H0) as H.
  destruct (run capture_run _) as [[a'|d']| |] eqn:Er;
    try (vm_compute in Er; discriminate Er).
  exact (proj2 H).
Defined.

(** X16. While capture is off and the capture key [K_r] is not pressed,
    nothing is captured: over any run (menu moves, new games, frames,
    deaths) the capture buffer and the module state stay as they were, and
    closing the program does not export. *)
Theorem X16_nothing_is_captured_while_capture_is_off :
  forall (evs : list (event * Env)) (a : App),
    RECORDING_ENABLED (globals a) = false ->
    Forall (fun x => event_is_capture_key (fst x) = false) evs ->
    match run evs a with
    | Done (Running a') =>
        recording_buffer (game a') = recording_buffer (game a) /\
        globals a' = globals a /\
        wav_file (disk a') = wav_file (disk a)
    | Done (Quitted d') => wav_file d' = wav_file (disk a)
    | _ => True
    end.
Proof.
  induction evs as [|[ev e] rest IH]; simpl; intros a Hoff Hevs; [auto|].
  inversion Hevs as [|x l Hev Hrest]; subst. simpl in Hev.
  destruct (step a ev e) as [p| |] eqn:Es; simpl; auto.
  assert (Hs : match p with
               | Running a' =>
                   recording_buffer (game a') = recording_buffer (game a) /\
                   globals a' = globals a /\
                   wav_file (disk a') = wav_file (disk a)
               | Quitted d' => wav_file d' = wav_file (disk a)
               end).
  { eapply step_capture_off; eauto. }
  destruct p as [a1|d1]; [|exact Hs].
  destruct Hs as (Hb1 & HG1 & Hw1).
  assert (Hoff1 : RECORDING_ENABLED (globals a1) = false) by congruence.
  specialize (IH a1 Hoff1 Hrest).
  destruct (run rest a1) as [[a'|d']| |]; auto.
  - destruct IH as (I1 & I2 & I3). repeat split; congruence.
  - congruence.
Qed.

Lemma X16_witness :
  let a := start_app (18, 16) Normal in
  let a' := app_after (wall_run true) a in
  recording_buffer (game a') = [] /\ globals a' = quiet_globals.
Proof.
  intros a a'.
  assert (Hoff : RECORDING_ENABLED (globals a) = false) by reflexivity.
  assert (Hevs : Forall (fun x => event_is_capture_key (fst x) = false)
                        (wall_run true)).
  { apply Forall_forall. intros x Hx.
    assert (Hall : forallb (fun x => negb (event_is_capture_key (fst x)))
                           (wall_run true) = true)
      by (vm_compute; reflexivity).
    rewrite forallb_forall in Hall. specialize (Hall x Hx).
    destruct (event_is_capture_key (fst x)); [discriminate | reflexivity]. }
  pose proof (X16_nothing_is_captured_while_capture_is_off
                (wall_run true) a Hoff Hevs) as H.
  assert (Er : run (wall_run true) a = Done (Running a'))
    by (vm_compute; reflexivity).
  rewrite Er in H. destruct H as (H1 & H2 & _).
  split; [exact H1 | exact H2].
Defined.

(** ** Closing the program *)



Lemma run_cons (ev : event) (e : Env) (rest : list (event * Env)) (a : App) :
  run ((ev, e) :: rest) a
  = (p <- step a ev e ;;
     match p with
     | Running a' => run rest a'
     | Quitted d => Done (Quitted d)
     end).
Proof. reflexivity. Qed.




(** ** The title menu *)

Lemma menu_step_selected (a : App) (delta : Z) :
  selected (game (menu_step a delta)) = (selected (game a) + delta) mod 4 /\
  state (game (menu_step a delta)) = state (game a) /\
  settings (game (menu_step a delta)) = settings (game a).
Proof. unfold menu_step. simpl. auto. Qed.

Lemma title_moves (a : App) (e : Env) :
  state (game a) = TITLE ->
  step a (KEYDOWN K_DOWN) e = Done (Running (menu_step a 1)) /\
  step a (KEYDOWN K_UP) e = Done (Running (menu_step a (-1))).
Proof.
  intros Hst. unfold step, handle_input. rewrite Hst. split; reflexivity.
Qed.

(** The difficulty key of the title screen. *)
Definition difficulty_step (a : App) : App :=
  let st := settings (game a) in
  let g := set_settings (game a)
             (mkSettings (volume st) (pro_controller st)
                         (next_difficulty (difficulty st)) (high_scores st)) in
  with_game a (set_recording_buffer g
                 (play_sound (globals a) (move_sound (globals a))
                             (recording_buffer g))).

Lemma title_difficulty (a : App) (e : Env) :
  state (game a) = TITLE ->
  step a (KEYDOWN K_d) e = Done (Running (difficulty_step a)) /\
  state (game (difficulty_step a)) = TITLE /\
  selected (game (difficulty_step a)) = selected (game a).
Proof.
  intros Hst. unfold step, handle_input. rewrite Hst.
  repeat split; try reflexivity. exact Hst.
Qed.

Lemma difficulty_step_settings (a : App) :
  settings (game (difficulty_step a))
  = mkSettings (volume (settings (game a)))
               (pro_controller (settings (game a)))
               (next_difficulty (difficulty (settings (game a))))
               (high_scores (settings (game a))).
Proof. reflexivity. Qed.

(** X18. The title menu.  The cursor always stays on one of the four
    entries and wraps around: Down then Up leaves it where it was, and so
    do four Downs; four presses of the difficulty key [d] bring the
    settings back.  Confirming [Start Game] puts the game in play and
    keeps the cursor and the settings; confirming [Settings] or [Credits]
    only plays the confirmation sound (no state is entered); confirming
    [Exit] ends the program at once. *)
Theorem X18_title_menu_wraps_and_two_entries_do_nothing :
  forall (a : App) (e : Env),
    state (game a) = TITLE ->
    0 <= selected (game a) < 4 ->
    let down := (KEYDOWN K_DOWN, e) in
    let up := (KEYDOWN K_UP, e) in
    let d := (KEYDOWN K_d, e) in
    (forall ev a', step a ev e = Done (Running a') ->
                   0 <= selected (game a') < 4) /\
    (exists a', run [down; up] a = Done (Running a') /\
                selected (game a') = selected (game a) /\
                state (game a') = TITLE) /\
    (exists a', run [down; down; down; down] a = Done (Running a') /\
                selected (game a') = selected (game a) /\
                state (game a') = TITLE) /\
    (exists a', run [d; d; d; d] a = Done (Running a') /\
                settings (game a') = settings (game a) /\
                selected (game a') = selected (game a)) /\
    (selected (game a) = 0 ->
     forall a', step a (KEYDOWN K_RETURN) e = Done (Running a') ->
                state (game a') = PLAYING /\
                selected (game a') = 0 /\
                settings (game a') = settings (game a)) /\
    (selected (game a) = 1 \/ selected (game a) = 2 ->
     step a (KEYDOWN K_RETURN) e
     = Done (Running
               (with_game a
                  (set_recording_buffer (game a)
                     (play_sound (globals a) (eat_sound (globals a))
                                 (recording_buffer (game a))))))) /\
    (selected (game a) = 3 ->
     step a (KEYDOWN K_RETURN) e = Done (quit_game a e)).
Proof.
  intros a e Hst Hsel down up d.
  assert (Hcases : selected (game a) = 0 \/ selected (game a) = 1 \/
                   selected (game a) = 2 \/ selected (game a) = 3) by lia.
  split; [|split; [|split; [|split; [|split; [|split]]]]].
  - intros ev a' H.
    assert (Hin : forall a1, game a1 = game a ->
               handle_input a1 ev e = Done (Running a') ->
               0 <= selected (game a') < 4).
    { intros a1 Hg Hh. unfold handle_input in Hh. rewrite Hg, Hst in Hh.
      destruct (_handle_title_input_game _ _ _ _ Hh)
        as [Hx | [(v & buf & Hv & Hx) | [(g1 & buf & Hg1 & Hx) |
            [(buf & Hx) | (st & buf & Hx)]]]];
        rewrite Hx; simpl; rewrite ?Hg; auto.
      unfold _start_new_game in Hg1. destruct (draws e); [discriminate|].
      inversion Hg1; subst. simpl. rewrite Hg. exact Hsel. }
    unfold step in H. destruct ev; try (apply (Hin a eq_refl H)).
    + apply (Hin (mkApp (globals a) (game a) (disk a) false) eq_refl H).
    + rewrite Hst in H. simpl in H.
      destruct (running a); inversion H; subst. exact Hsel.
  - destruct (title_moves a e Hst) as (Hd & _).
    destruct (menu_step_selected a 1) as (S1 & T1 & _).
    destruct (title_moves (menu_step a 1) e) as (_ & Hu);
      [rewrite T1; exact Hst|].
    destruct (menu_step_selected (menu_step a 1) (-1)) as (S2 & T2 & _).
    exists (menu_step (menu_step a 1) (-1)).
    split; [|split].
    + unfold down, up. rewrite run_cons, Hd. cbn [bind].
      rewrite run_cons, Hu. reflexivity.
    + rewrite S2, S1.
      destruct Hcases as [-> | [-> | [-> | ->]]]; reflexivity.
    + rewrite T2, T1. exact Hst.
  - destruct (title_moves a e Hst) as (M1 & _).
    destruct (menu_step_selected a 1) as (S1 & T1 & _).
    rewrite Hst in T1.
    destruct (title_moves _ e T1) as (M2 & _).
    destruct (menu_step_selected (menu_step a 1) 1) as (S2 & T2 & _).
    rewrite T1 in T2.
    destruct (title_moves _ e T2) as (M3 & _).
    destruct (menu_step_selected (menu_step (menu_step a 1) 1) 1)
      as (S3 & T3 & _).
    rewrite T2 in T3.
    destruct (title_moves _ e T3) as (M4 & _).
    destruct (menu_step_selected
                (menu_step (menu_step (menu_step a 1) 1) 1) 1)
      as (S4 & T4 & _).
    rewrite T3 in T4.
    eexists. split; [|split; [|exact T4]].
    + unfold down.
      rewrite run_cons, M1. cbn [bind].
      rewrite run_cons, M2. cbn [bind].
      rewrite run_cons, M3. cbn [bind].
      rewrite run_cons, M4. reflexivity.
    + rewrite S4, S3, S2, S1.
      destruct Hcases as [-> | [-> | [-> | ->]]]; reflexivity.
  - destruct (title_difficulty a e Hst) as (D1 & T1 & S1).
    destruct (title_difficulty _ e T1) as (D2 & T2 & S2).
    destruct (title_difficulty _ e T2) as (D3 & T3 & S3).
    destruct (title_difficulty _ e T3) as (D4 & T4 & S4).
    eexists. split; [|split].
    + unfold d.
      rewrite run_cons, D1. cbn [bind].
      rewrite run_cons, D2. cbn [bind].
      rewrite run_cons, D3. cbn [bind].
      rewrite run_cons, D4. reflexivity.
    + rewrite !difficulty_step_settings. simpl.
      destruct (settings (game a)) as [v p df hs]. simpl.
      destruct df; reflexivity.
    + rewrite S4, S3, S2. exact S1.
  - intros H0 a' H. unfold step, handle_input in H. rewrite Hst in H.
    unfold _handle_title_input, _select_menu_option in H. rewrite H0 in H.
    simpl in H. unfold _start_new_game in H.
    destruct (draws e); [discriminate|]. simpl in H.
    inversion H; subst. simpl. auto.
  - intros H12. unfold step, handle_input. rewrite Hst.
    unfold _handle_title_input, _select_menu_option.
    destruct H12 as [-> | ->]; reflexivity.
  - intros H3. unfold step, handle_input. rewrite Hst.
    unfold _handle_title_input, _select_menu_option. rewrite H3. reflexivity.
Qed.

Lemma X18_witness :
  let a := app_after [(KEYDOWN K_ESCAPE, env_at 0 [] SPEED true)]
                     (start_app (18, 16) Normal) in
  exists a', run [(KEYDOWN K_DOWN, env_at 1 [] SPEED true);
                  (KEYDOWN K_UP, env_at 1 [] SPEED true)] a
             = Done (Running a') /\
             selected (game a') = 0.
Proof.
  intros a.
  assert (Hst : state (game a) = TITLE) by reflexivity.
  assert (Hsel : 0 <= selected (game a) < 4) by (vm_compute; split; congruence).
  destruct (X18_title_menu_wraps_and_two_entries_do_nothing
              a (env_at 1 [] SPEED true) Hst Hsel)
    as (_ & (a' & Hrun & Hs & _) & _).
  exists a'. split; [exact Hrun | exact Hs].
Defined.

(** ** Wrapping at the wall *)

Lemma on_border_false (c : Cell) :
  on_border c = false <->
  1 <= fst c <= GRID_COUNT - 2 /\ 1 <= snd c <= GRID_COUNT - 2.
Proof.
  unfold on_border, GRID_COUNT, WINDOW_SIZE, GRID_SIZE.
  change (256 / 8) with 32.
  rewrite !orb_false_iff, !Z.geb_leb, !Z.ltb_ge, !Z.leb_gt. lia.
Qed.

(** X19. [_wrap_position] always returns a cell inside the walls, and the
    cells it leaves alone are exactly the cells inside the walls.  When the
    head steps from a cell inside the walls onto the wall, the wrapped head
    comes back in on the opposite side, in the same row or column: at
    column 1 after leaving to the right, at column [GRID_COUNT - 2] after
    leaving to the left, and likewise for rows. *)
Theorem X19_wrap_reenters_on_the_opposite_side :
  (forall pos, on_border (_wrap_position pos) = false) /\
  (forall pos, _wrap_position pos = pos <-> on_border pos = false) /\
  (forall head d,
      on_border head = false -> unit_dir d ->
      let new_head := (fst head + fst d, snd head + snd d) in
      on_border new_head = true ->
      _wrap_position new_head
      = (if fst d =? 1 then 1
         else if fst d =? -1 then GRID_COUNT - 2 else fst head,
         if snd d =? 1 then 1
         else if snd d =? -1 then GRID_COUNT - 2 else snd head)).
Proof.
  split; [|split].
  - intros [x y]. apply on_border_false.
    unfold _wrap_position, GRID_COUNT, WINDOW_SIZE, GRID_SIZE.
    change (256 / 8) with 32. simpl fst. simpl snd.
    destruct (Z.ltb_spec x 1), (Z.ltb_spec y 1); simpl;
      repeat match goal with
             | |- context [?a >=? ?b] => destruct (Z.geb_spec a b)
             end; simpl; lia.
  - intros [x y]. rewrite on_border_false.
    unfold _wrap_position, GRID_COUNT, WINDOW_SIZE, GRID_SIZE.
    change (256 / 8) with 32. simpl fst. simpl snd.
    destruct (Z.ltb_spec x 1), (Z.ltb_spec y 1); simpl;
      repeat match goal with
             | |- context [?a >=? ?b] => destruct (Z.geb_spec a b)
             end; simpl; split; intros Hx;
      try (inversion Hx; lia); try lia; try reflexivity.
  - intros [x y] d Hin Hd new_head Hout.
    apply on_border_false in Hin. simpl in Hin.
    assert (Hnot : ~ (1 <= fst new_head <= GRID_COUNT - 2 /\
                      1 <= snd new_head <= GRID_COUNT - 2)).
    { intros Hx. apply on_border_false in Hx. congruence. }
    subst new_head. revert Hnot Hin.
    unfold _wrap_position, GRID_COUNT, WINDOW_SIZE, GRID_SIZE.
    change (256 / 8) with 32. simpl fst. simpl snd.
    destruct Hd as [-> | [-> | [-> | ->]]]; simpl fst; simpl snd;
      intros Hnot Hin;
      repeat match goal with
             | |- context [?a <? ?b] => destruct (Z.ltb_spec a b)
             | |- context [?a >=? ?b] => destruct (Z.geb_spec a b)
             end; simpl; try lia; f_equal; lia.
Qed.

Lemma X19_witness :
  _wrap_position (31, 16) = (1, 16).
Proof.
  destruct X19_wrap_reenters_on_the_opposite_side as (_ & _ & H).
  assert (Hin : on_border (30, 16) = false) by reflexivity.
  assert (Hd : unit_dir (1, 0)) by (left; reflexivity).
  assert (Hout : on_border (30 + 1, 16 + 0) = true) by reflexivity.
  exact (H (30, 16) (1, 0) Hin Hd Hout).
Defined.

(** ** What a frame of the game draws *)



















(** ** Turn keys between two moves *)

(** The direction a key asks for during play. *)
Definition key_direction (k : Key) : option Direction :=
  match k with
  | K_LEFT | K_a => Some (-1, 0)
  | K_RIGHT | K_d => Some (1, 0)
  | K_UP | K_w => Some (0, -1)
  | K_DOWN | K_s => Some (0, 1)
  | _ => None
  end.

Lemma apply_buffered_moved (s : Snake) :
  moved_this_frame (apply_buffered s) = moved_this_frame s.
Proof.
  unfold apply_buffered. destruct (next_direction s); [|reflexivity].
  destruct (not_reverse (direction s) d); reflexivity.
Qed.

Lemma move_moved (G : Globals) (s s' : Snake) (t : Q)
      (buf buf' : list ndarray) (alive : bool) :
  move G s t buf = Done (s', alive, buf') ->
  moved_this_frame s' = moved_this_frame s.
Proof.
  unfold move. intros H.
  destruct (dead s); [inversion H; reflexivity|].
  destruct (Qltb _ _); [inversion H; reflexivity|].
  bind_inv H. cbv zeta in H.
  repeat match type of H with
         | context [if ?c then _ else _] => destruct c
         end; inversion H; subst; simpl; apply apply_buffered_moved.
Qed.

Lemma _update_game_moved (G : Globals) (g g' : Game) (d d' : Disk)
      (e : Env) :
  _update_game G g d e = Done (g', d') ->
  moved_this_frame (snake g') = moved_this_frame (snake g).
Proof.
  intros H.
  destruct (_update_game_stages _ _ _ _ _ _ H)
    as (g1 & g2 & ds & s & alive & buf & Hup & Hsp & Hmv & Hrest).
  assert (H1 : moved_this_frame (snake g1) = moved_this_frame (snake g)).
  { revert Hup. unfold _update_power_ups.
    apply (_update_power_ups_loop_inv1
             (fun x => moved_this_frame (snake x)
                       = moved_this_frame (snake g)));
      intros; simpl; auto. }
  apply spawn_step_snake in Hsp. destruct Hsp as (Hs2 & _).
  pose proof (move_moved _ _ _ _ _ _ _ Hmv) as H3.
  rewrite Hs2, H1 in H3.
  destruct Hrest as [[_ Hgo]|[_ (g4 & Hcol & Heat)]].
  - apply game_over_step_board in Hgo. destruct Hgo as (-> & _). exact H3.
  - assert (H4 : moved_this_frame (snake g4) = moved_this_frame (snake g)).
    { refine (collect_loop_inv
                (fun x => moved_this_frame (snake x)
                          = moved_this_frame (snake g)) _ _ _ _ _ Hcol).
      - intros g0 r l Hg0 _. simpl. rewrite <- Hg0.
        unfold _apply_power_up. destruct (type (deref (heap g0) r)); simpl;
          try reflexivity.
        destruct (_ >? 3); reflexivity.
      - exact H3. }
    destruct (eat_step_snake _ _ _ _ _ _ Heat) as [-> | ->]; exact H4.
Qed.

Lemma reachable_never_moved (a : App) :
  reachable a -> moved_this_frame (snake (game a)) = false.
Proof.
  intros (G & st & d & e0 & evs & a0 & Hfresh & Hrun).
  refine (run_game_inv (fun g => moved_this_frame (snake g) = false)
            _ _ _ _ _ _ _ evs a0 a _ Hrun).
  - intros G0 g d0 e g' d' Hg _ H.
    rewrite (_update_game_moved _ _ _ _ _ _ H). exact Hg.
  - intros g dir _ Hg. simpl. unfold change_direction.
    destruct (not_reverse _ _); exact Hg.
  - auto.
  - auto.
  - auto.
  - auto.
  - intros G0 g e g' _ H. unfold _start_new_game in H.
    destruct (draws e); [discriminate|]. inversion H; reflexivity.
  - unfold fresh_app, fresh_game, _start_new_game in Hfresh.
    destruct (draws e0); simpl in Hfresh; [discriminate|].
    inversion Hfresh; reflexivity.
Qed.

Lemma key_direction_turn (a : App) (e : Env) (k : Key) (dir : Direction) :
  moved_this_frame (snake (game a)) = false ->
  key_direction k = Some dir ->
  _handle_game_input a (KEYDOWN k) e = turn a dir.
Proof.
  intros Hm Hk. unfold _handle_game_input. rewrite Hm.
  destruct k; inversion Hk; subst; reflexivity.
Qed.

(** X21. The flag [moved_this_frame] that guards the turn keys is never
    set: it is false in every reachable state, so during play every turn
    key reaches [change_direction], however many are pressed between two
    moves.  Of two turn keys pressed in a row the second replaces the
    first in the buffer unless it asks for the reverse of the direction
    the snake is moving in; the direction itself and the body change only
    at the next move. *)
Theorem X21_the_last_acceptable_turn_key_wins :
  forall (a : App),
    reachable a ->
    moved_this_frame (snake (game a)) = false /\
    forall (e1 e2 : Env) (k1 k2 : Key) (d1 d2 : Direction),
      state (game a) = PLAYING ->
      key_direction k1 = Some d1 ->
      key_direction k2 = Some d2 ->
      exists a',
        run [(KEYDOWN k1, e1); (KEYDOWN k2, e2)] a = Done (Running a') /\
        let s := snake (game a) in
        next_direction (snake (game a'))
        = (if not_reverse (direction s) d2 then Some d2
           else if not_reverse (direction s) d1 then Some d1
                else next_direction s) /\
        direction (snake (game a')) = direction s /\
        body (snake (game a')) = body s /\
        state (game a') = PLAYING.
Proof.
  intros a Hr. pose proof (reachable_never_moved a Hr) as Hm.
  split; [exact Hm|].
  intros e1 e2 k1 k2 d1 d2 Hst Hk1 Hk2.
  assert (Hs1 : step a (KEYDOWN k1) e1 = Done (Running (turn a d1))).
  { unfold step, handle_input. rewrite Hst.
    rewrite (key_direction_turn a e1 k1 d1 Hm Hk1). reflexivity. }
  assert (Hm1 : moved_this_frame (snake (game (turn a d1))) = false).
  { unfold turn, change_direction. simpl.
    destruct (not_reverse _ _); exact Hm. }
  assert (Hst1 : state (game (turn a d1)) = PLAYING) by exact Hst.
  assert (Hs2 : step (turn a d1) (KEYDOWN k2) e2
                = Done (Running (turn (turn a d1) d2))).
  { unfold step, handle_input. rewrite Hst1.
    rewrite (key_direction_turn _ e2 k2 d2 Hm1 Hk2). reflexivity. }
  exists (turn (turn a d1) d2). split.
  { rewrite run_cons, Hs1. cbn [bind]. rewrite run_cons, Hs2. reflexivity. }
  unfold turn, change_direction. simpl.
  destruct (not_reverse (direction (snake (game a))) d1) eqn:E1; simpl;
    destruct (not_reverse (direction (snake (game a))) d2) eqn:E2; simpl;
    auto.
Qed.

Lemma X21_witness :
  let a := played_app in
  exists a',
    run [(KEYDOWN K_UP, env_at 31 [] SPEED true);
         (KEYDOWN K_s, env_at 31 [] SPEED true)] a = Done (Running a') /\
    next_direction (snake (game a')) = Some (0, 1).
Proof.
  intros a.
  destruct (X21_the_last_acceptable_turn_key_wins a played_app_reachable)
    as (_ & H).
  assert (Hst : state (game a) = PLAYING) by (vm_compute; reflexivity).
  destruct (H (env_at 31 [] SPEED true) (env_at 31 [] SPEED true)
              K_UP K_s (0, -1) (0, 1) Hst eq_refl eq_refl)
    as (a' & Hrun & Hnd & _).
  exists a'. split; [exact Hrun|].
  rewrite Hnd.
  assert (Hdir : direction (snake (game a)) = (1, 0))
    by (vm_compute; reflexivity).
  rewrite Hdir. reflexivity.
Defined.

(** ** The blinking cursor of the title screen *)

(** The part of [TitleScreen] that [update] works on ([selected] is the
    [selected] field of the game object above). *)
Record TitleScreen : Type := mkTitleScreen {
  blink_timer : Z;
  show_cursor : bool
}.

(** [TitleScreen.__init__] *)
Definition TitleScreen_init : TitleScreen := mkTitleScreen 0 true.

(** [TitleScreen.update], called once per frame spent on the title. *)
Definition TitleScreen_update (t : TitleScreen) : TitleScreen :=
  let blink_timer := blink_timer t + 1 in
  if blink_timer >=? 15
  then mkTitleScreen 0 (negb (show_cursor t))
  else mkTitleScreen blink_timer (show_cursor t).

(** [n] frames on the title. *)
Fixpoint title_frames (n : nat) (t : TitleScreen) : TitleScreen :=
  match n with
  | O => t
  | S n' => TitleScreen_update (title_frames n' t)
  end.

Lemma title_frames_add (n m : nat) (t : TitleScreen) :
  title_frames (n + m) t = title_frames n (title_frames m t).
Proof.
  induction n as [|n IH]; simpl; [reflexivity|]. rewrite IH. reflexivity.
Qed.

Lemma title_frames_closed_form (n : nat) :
  blink_timer (title_frames n TitleScreen_init) = Z.of_nat n mod 15 /\
  show_cursor (title_frames n TitleScreen_init) = Z.even (Z.of_nat n / 15).
Proof.
  induction n as [|n (IHt & IHs)]; [split; reflexivity|].
  cbn [title_frames]. unfold TitleScreen_update. rewrite IHt, IHs.
  rewrite Nat2Z.inj_succ. unfold Z.succ.
  set (v := Z.of_nat n).
  pose proof (Z.div_mod v 15 ltac:(lia)) as Hdm.
  pose proof (Z.mod_pos_bound v 15 ltac:(lia)) as Hb.
  destruct (Z.geb_spec (v mod 15 + 1) 15) as [Hge | Hlt]; simpl.
  - assert (Hq : (v + 1) / 15 = v / 15 + 1).
    { symmetry. apply (Z.div_unique (v + 1) 15 (v / 15 + 1) 0); lia. }
    assert (Hr : (v + 1) mod 15 = 0).
    { symmetry. apply (Z.mod_unique (v + 1) 15 (v / 15 + 1) 0); lia. }
    rewrite Hq, Hr. split; [reflexivity|].
    rewrite Z.even_add. destruct (Z.even (v / 15)); reflexivity.
  - assert (Hq : (v + 1) / 15 = v / 15).
    { symmetry. apply (Z.div_unique (v + 1) 15 (v / 15) (v mod 15 + 1)); lia. }
    assert (Hr : (v + 1) mod 15 = v mod 15 + 1).
    { symmetry. apply (Z.mod_unique (v + 1) 15 (v / 15) (v mod 15 + 1)); lia. }
    rewrite Hq, Hr. split; reflexivity.
Qed.

(** X22. The cursor of the title menu blinks with a period of 30 title
    frames: starting from [TitleScreen()] it is shown during the frames
    whose number divided by 15 is even and hidden during the others, and
    the blink counter after [n] frames is [n mod 15] (so it stays in
    [0, 15)).  From any state with the counter in that range, 30 more
    frames bring the same state back and 15 frames flip the cursor. *)
Theorem X22_title_cursor_blinks_every_15_frames :
  (forall n : nat,
      let t := title_frames n TitleScreen_init in
      blink_timer t = Z.of_nat n mod 15 /\
      show_cursor t = Z.even (Z.of_nat n / 15)) /\
  (forall t : TitleScreen,
      0 <= blink_timer t < 15 ->
      title_frames 30 t = t /\
      blink_timer (title_frames 15 t) = blink_timer t /\
      show_cursor (title_frames 15 t) = negb (show_cursor t) /\
      0 <= blink_timer (TitleScreen_update t) < 15).
Proof.
  split; [exact title_frames_closed_form|].
  intros [bt sc] Hb. simpl in Hb.
  assert (Hcases : In bt [0; 1; 2; 3; 4; 5; 6; 7; 8; 9; 10; 11; 12; 13; 14]).
  { simpl. lia. }
  simpl in Hcases.
  repeat match type of Hcases with
         | _ \/ _ => destruct Hcases as [<- | Hcases]
         end; try contradiction;
    destruct sc; vm_compute; intuition congruence.
Qed.

Lemma X22_witness :
  title_frames 30 (mkTitleScreen 7 false) = mkTitleScreen 7 false.
Proof.
  assert (Hb : 0 <= blink_timer (mkTitleScreen 7 false) < 15)
    by (simpl; lia).
  exact (proj1 (proj2 X22_title_cursor_blinks_every_15_frames _ Hb)).
Defined.
